(** * Search-Engine-Project: the balanced index, the text normaliser,
    the index manager and the query parser.

    A shallow embedding of [avl_tree.h], [text_processor.h] and
    [searchEngine.cpp], with the properties of the design document stated
    and settled against it.

    Conventions of the embedding.
    - [std::string] is [string]; [operator<] on it is the lexicographic
      order on unsigned bytes, which is [String.compare].
    - A [std::shared_ptr<AVLNode<T>>] is a value of [AVLNode T]; the null
      pointer is the constructor [nullnode].  The tree is never shared, so
      the in-place updates of the source are written as rebuilding the
      node.
    - Dereferencing a null pointer is undefined in the source; the
      functions that can do it return [option], with [None] for that case.
    - The [int] field [height] is a [Z].  A tree whose height reaches
      [2^31] has more nodes than any address space, so the wrap-around of
      [int] is not written out for it.
    - [std::unordered_map<std::string,int>] is [gmap string Z]; its
      iteration order is the order of [map_to_list].  A count is an
      [int]: incrementing it wraps to 32 bits.
    - Indices and lengths of strings ([int], [size_t]) are [nat]; the
      strings at hand are far shorter than [2^31] characters.
    - [std::unordered_set<std::string>] is [gset string] where the code
      only tests membership or returns the set, and a [list] in the
      order of iteration where the code loops over it. *)

From Stdlib Require Import ZArith Lia List Ascii String Bool.
From Stdlib Require Import Strings.Byte.
From stdpp Require Import base option gmap strings list sorting pretty.

Local Open Scope string_scope.
Local Open Scope Z_scope.
Local Open Scope list_scope.

(** ** Order on keys *)

(** [a < b] on [std::string]. *)
Definition str_lt (a b : string) : bool :=
  match String.compare a b with Lt => true | _ => false end.

(** [a > b] on [std::string]. *)
Definition str_gt (a b : string) : bool :=
  match String.compare a b with Gt => true | _ => false end.

(** [a == b] on [std::string]. *)
Definition str_eq (a b : string) : bool := String.eqb a b.

(** The three outcomes of comparing two keys, as the code tests them. *)
Inductive key_cmp (a b : string) : Prop :=
| key_lt : str_lt a b = true → str_gt a b = false → str_eq b a = false →
           a ≠ b → key_cmp a b
| key_gt : str_lt a b = false → str_gt a b = true → str_eq b a = false →
           a ≠ b → key_cmp a b
| key_eq : str_lt a b = false → str_gt a b = false → str_eq b a = true →
           a = b → key_cmp a b.

(** ** avl_tree.h *)

Section AVL.
Context {T : Type}.

Inductive AVLNode : Type :=
| nullnode : AVLNode
| Node (key : string) (value : T) (hgt : Z) (left right : AVLNode) : AVLNode.

(** [AVLNode(k, v)]: the constructor of the source. *)
Definition new_node (k : string) (v : T) : AVLNode :=
  Node k v 1 nullnode nullnode.

(** [int height(node)] *)
Definition height (node : AVLNode) : Z :=
  match node with
  | nullnode => 0
  | Node _ _ h _ _ => h
  end.

(** [int getBalance(node)] *)
Definition getBalance (node : AVLNode) : Z :=
  match node with
  | nullnode => 0
  | Node _ _ _ l r => height l - height r
  end.

(** [rightRotate(y)]: [x = y->left] and [x->right] are dereferenced. *)
Definition rightRotate (y : AVLNode) : option AVLNode :=
  match y with
  | Node ky vy _ (Node kx vx _ xl T2) yr =>
      let y' := Node ky vy (Z.max (height T2) (height yr) + 1) T2 yr in
      Some (Node kx vx (Z.max (height xl) (height y') + 1) xl y')
  | _ => None
  end.

(** [leftRotate(x)]: [y = x->right] and [y->left] are dereferenced. *)
Definition leftRotate (x : AVLNode) : option AVLNode :=
  match x with
  | Node kx vx _ xl (Node ky vy _ T2 yr) =>
      let x' := Node kx vx (Z.max (height xl) (height T2) + 1) xl T2 in
      Some (Node ky vy (Z.max (height x') (height yr) + 1) x' yr)
  | _ => None
  end.

(** [node->key] *)
Definition key_of (node : AVLNode) : option string :=
  match node with
  | nullnode => None
  | Node k _ _ _ _ => Some k
  end.

(** [b && test(child->key)]: the key of the child is read only when
    [b] holds, as [&&] evaluates it. *)
Definition and_key (b : bool) (child : AVLNode) (test : string → bool)
  : option bool :=
  if b then test <$> key_of child else Some false.

(** The tail of the private [insert], from the height update on: the
    node has its children already in place. *)
Definition rebalance (k : string) (v : T) (l r : AVLNode) (key : string)
  : option AVLNode :=
  let node := Node k v (1 + Z.max (height l) (height r)) l r in
  let balance := getBalance node in
  c1 ← and_key (1 <? balance) l (str_lt key);
  if c1 : bool then rightRotate node else
  c2 ← and_key (balance <? -1) r (str_gt key);
  if c2 : bool then leftRotate node else
  c3 ← and_key (1 <? balance) l (str_gt key);
  if c3 : bool then
    l' ← leftRotate l;
    rightRotate (Node k v (1 + Z.max (height l) (height r)) l' r)
  else
  c4 ← and_key (balance <? -1) r (str_lt key);
  if c4 : bool then
    r' ← rightRotate r;
    leftRotate (Node k v (1 + Z.max (height l) (height r)) l r')
  else Some node.

(** The private, recursive [insert(node, key, value)]. *)
Fixpoint insert (node : AVLNode) (key : string) (value : T)
  : option AVLNode :=
  match node with
  | nullnode => Some (new_node key value)
  | Node k v h l r =>
      if str_lt key k then
        l' ← insert l key value; rebalance k v l' r key
      else if str_gt key k then
        r' ← insert r key value; rebalance k v l r' key
      else Some (Node k value h l r)
  end.

(** The private, recursive [find(node, key)]; the result is the pointer
    the source returns, null included. *)
Fixpoint find (node : AVLNode) (key : string) : AVLNode :=
  match node with
  | nullnode => nullnode
  | Node k _ _ l r =>
      if str_eq k key then node
      else if str_lt key k then find l key
      else find r key
  end.

(** [class AVLTree]: the only data member is [root]. *)
Record AVLTree : Type := mkTree { root : AVLNode }.

(** A default-constructed tree. *)
Definition empty_tree : AVLTree := mkTree nullnode.

(** The public [insert(key, value)]. *)
Definition tree_insert (t : AVLTree) (key : string) (value : T)
  : option AVLTree :=
  mkTree <$> insert (root t) key value.

(** The public [find(key)]. *)
Definition tree_find (t : AVLTree) (key : string) : AVLNode :=
  find (root t) key.

(** [node->value] behind a null test, as every caller reads it. *)
Definition value_of (node : AVLNode) : option T :=
  match node with
  | nullnode => None
  | Node _ v _ _ _ => Some v
  end.

(** A sequence of public [insert] calls, first call first. *)
Fixpoint insert_all (ops : list (string * T)) (t : AVLTree)
  : option AVLTree :=
  match ops with
  | [] => Some t
  | (k, v) :: ops' => t' ← tree_insert t k v; insert_all ops' t'
  end.

End AVL.

Arguments AVLNode : clear implicits.
Arguments AVLTree : clear implicits.

(** ** text_processor.h *)

(** [str[i]]; at [i = str.length()] the source reads the terminating
    zero, which is what the default gives. *)
Definition char_at (str : string) (i : nat) : ascii :=
  match String.get i str with
  | Some c => c
  | None => zero
  end.

(** [str.substr(pos, n)] for [pos + n <= str.length()]. *)
Definition substr (str : string) (pos n : nat) : string :=
  String.substring pos n str.

(** [str.pop_back()] *)
Definition pop_back (str : string) : string :=
  substr str 0 (String.length str - 1).

(** [::tolower] in the classic locale, on one byte: the letters [A] to
    [Z] move to [a] to [z], every other byte stays. *)
Definition tolower_char (c : ascii) : ascii :=
  let n := nat_of_ascii c in
  if (65 <=? n)%nat && (n <=? 90)%nat then ascii_of_nat (n + 32) else c.

(** [std::transform(s.begin(), s.end(), s.begin(), ::tolower)] *)
Fixpoint tolower (s : string) : string :=
  match s with
  | EmptyString => EmptyString
  | String c s' => String (tolower_char c) (tolower s')
  end.

(** [endsWith(str, suffix)] *)
Definition endsWith (str suffix : string) : bool :=
  if (String.length str <? String.length suffix)%nat then false
  else String.eqb
         (substr str (String.length str - String.length suffix)
                 (String.length suffix))
         suffix.

(** [isConsonant(str, i)]; the recursion on [i - 1] is the source's. *)
Fixpoint isConsonant (str : string) (i : nat) : bool :=
  let c := char_at str i in
  if Ascii.eqb c "a" || Ascii.eqb c "e" || Ascii.eqb c "i"
     || Ascii.eqb c "o" || Ascii.eqb c "u" then false
  else if Ascii.eqb c "y" then
    match i with
    | O => true
    | S j => negb (isConsonant str j)
    end
  else true.

(** The body of the loop of [measureConsecutiveVC], on the pair
    [(m, prevC)]. *)
Definition measure_step (str : string) (st : Z * bool) (i : nat) : Z * bool :=
  let '(m, prevC) := st in
  let isC := isConsonant str i in
  (if prevC && negb isC then m + 1 else m, isC).

(** [measureConsecutiveVC(str)] *)
Definition measureConsecutiveVC (str : string) : Z :=
  fst (fold_left (measure_step str) (seq 0 (String.length str)) (0, true)).

(** [hasVowel(str)] *)
Definition hasVowel (str : string) : bool :=
  existsb (fun i => negb (isConsonant str i)) (seq 0 (String.length str)).

(** [endsWithDoubleConsonant(str)] *)
Definition endsWithDoubleConsonant (str : string) : bool :=
  if (String.length str <? 2)%nat then false
  else Ascii.eqb (char_at str (String.length str - 1))
                 (char_at str (String.length str - 2))
       && isConsonant str (String.length str - 1).

(** [endsWithCVC(str)] *)
Definition endsWithCVC (str : string) : bool :=
  if (String.length str <? 3)%nat then false
  else
    let j := (String.length str - 1)%nat in
    isConsonant str j && negb (isConsonant str (j - 1))
    && isConsonant str (j - 2)
    && negb (Ascii.eqb (char_at str j) "w")
    && negb (Ascii.eqb (char_at str j) "x")
    && negb (Ascii.eqb (char_at str j) "y").

(** [replaceSuffix(str, suffix, replacement)] *)
Definition replaceSuffix (str suffix replacement : string) : string :=
  if (String.length suffix <=? String.length str)%nat
     && String.eqb
          (substr str (String.length str - String.length suffix)
                  (String.length suffix))
          suffix
  then substr str 0 (String.length str - String.length suffix) +:+ replacement
  else str.

(** [step1a(str)] *)
Definition step1a (str : string) : string :=
  if endsWith str "sses" then replaceSuffix str "sses" "ss"
  else if endsWith str "ies" then replaceSuffix str "ies" "i"
  else if endsWith str "ss" then str
  else if endsWith str "s" then pop_back str
  else str.

(** The part of [step1b] that runs after "ed" or "ing" was removed. *)
Definition step1b_fixup (str : string) : string :=
  if endsWith str "at" || endsWith str "bl" || endsWith str "iz"
  then str +:+ "e"
  else if endsWithDoubleConsonant str
          && negb (endsWith str "l") && negb (endsWith str "s")
          && negb (endsWith str "z")
  then pop_back str
  else if (measureConsecutiveVC str =? 1) && endsWithCVC str
  then str +:+ "e"
  else str.

(** [step1b(str)] *)
Definition step1b (str : string) : string :=
  if endsWith str "eed" then
    if 0 <? measureConsecutiveVC (substr str 0 (String.length str - 3))
    then replaceSuffix str "eed" "ee"
    else str
  else if (endsWith str "ed"
           && hasVowel (substr str 0 (String.length str - 2)))
          || (endsWith str "ing"
              && hasVowel (substr str 0 (String.length str - 3)))
  then
    step1b_fixup
      (if endsWith str "ed" then replaceSuffix str "ed" ""
       else replaceSuffix str "ing" "")
  else str.

(** [step1c(str)] *)
Definition step1c (str : string) : string :=
  if endsWith str "y" && hasVowel (substr str 0 (String.length str - 1))
  then substr str 0 (String.length str - 1) +:+ "i"
  else str.

(** [stem(word)] *)
Definition stem (word : string) : string :=
  if (String.length word <=? 2)%nat then word
  else step1c (step1b (step1a (tolower word))).

Section Stopwords.
(** The initialiser list of [commonStopwords] names ten words and then
    reads "continued for brevity": the remaining entries are not in the
    source and are taken as a parameter. *)
Variable more_stopwords : list string.

Definition commonStopwords : list string :=
  ["a"; "about"; "above"; "after"; "again"; "against"; "all"; "am"; "an";
   "and"] ++ more_stopwords.

(** The member [stopwords], as the constructor fills it. *)
Definition stopwords : gset string := list_to_set commonStopwords.

(** [isStopword(word)] *)
Definition isStopword (word : string) : bool :=
  bool_decide (word ∈ stopwords).

(** [processWord(word)] *)
Definition processWord (word : string) : string :=
  if isStopword word then "" else stem word.
End Stopwords.

(** ** Binary persistence ([saveMap], [loadMap], [AVLNode::save/load],
    [AVLTree::save/load/saveToFile/loadFromFile])

    The source writes the object representation of [size_t] and [int]
    values.  The embedding fixes the usual 64-bit little-endian platform:
    [sizeof(size_t) = 8], [sizeof(int) = 4], two's complement. *)

Definition sizeof_size_t : nat := 8.
Definition sizeof_int : nat := 4.

Definition byte_of_Z (z : Z) : byte :=
  match Byte.of_N (Z.to_N (z mod 256)) with
  | Some b => b
  | None => x00
  end.

(** The [n] bytes of the object representation of [z]. *)
Fixpoint le_encode (n : nat) (z : Z) : list byte :=
  match n with
  | O => []
  | S n' => byte_of_Z z :: le_encode n' (z / 256)
  end.

(** The unsigned value a sequence of bytes represents. *)
Fixpoint le_decode (bs : list byte) : Z :=
  match bs with
  | [] => 0
  | b :: bs' => Z.of_N (Byte.to_N b) + 256 * le_decode bs'
  end.

(** The [int] that four bytes represent. *)
Definition decode_int (bs : list byte) : Z :=
  let u := le_decode bs in
  if u <? 2 ^ 31 then u else u - 2 ^ 32.

(** The value of an [int] expression, wrapped to 32 bits. *)
Definition wrap_int (z : Z) : Z :=
  (z + 2 ^ 31) mod 2 ^ 32 - 2 ^ 31.

(** A file system: the files that exist, with their bytes. *)
Abbreviation filesystem := (gmap string (list byte)).

(** What [saveMap] writes for one pair of the map. *)
Definition saveMap_pair (pair : string * Z) : list byte :=
  le_encode sizeof_size_t (Z.of_nat (String.length pair.1))
  ++ list_byte_of_string pair.1
  ++ le_encode sizeof_int pair.2.

(** [saveMap(map, out)]: [out] is the bytes written so far. *)
Definition saveMap (map : gmap string Z) (out : list byte) : list byte :=
  fold_left (fun out pair => out ++ saveMap_pair pair)
            (map_to_list map)
            (out ++ le_encode sizeof_size_t (Z.of_nat (size map))).

(** [AVLNode::save(out)] for [T = unordered_map<string,int>], on a node
    that holds [value]: the key and the children are not written. *)
Definition node_save (value : gmap string Z) (out : list byte) : list byte :=
  saveMap value out.

(** The private [AVLTree::save(out)]: the root is the only node
    saved. *)
Definition tree_save (t : AVLTree (gmap string Z)) (out : list byte)
  : list byte :=
  match root t with
  | nullnode => out
  | Node _ value _ _ _ => node_save value out
  end.

(** [saveToFile(filename)]: the file is created or truncated, then
    written. *)
Definition saveToFile (t : AVLTree (gmap string Z)) (filename : string)
    (fs : filesystem) : filesystem :=
  <[filename := tree_save t []]> fs.

(** An input stream: the bytes not yet read, and whether the stream is
    still good.  A stream opened on a missing file is not. *)
Record ifstream : Type := mkStream { rdbuf : list byte; good : bool }.

(** [std::ifstream in(filename, std::ios::binary)] *)
Definition open_in (fs : filesystem) (filename : string) : ifstream :=
  match fs !! filename with
  | Some bytes => mkStream bytes true
  | None => mkStream [] false
  end.

(** [in.read(p, n)] where the [n] bytes at [p] hold [old]: the bytes that
    could be read replace a prefix of [old]; a short read leaves the rest
    of [old] and fails the stream; a failed stream reads nothing. *)
Definition read_into (old : list byte) (s : ifstream) : list byte * ifstream :=
  if good s then
    if (length old <=? length (rdbuf s))%nat
    then (take (length old) (rdbuf s), mkStream (drop (length old) (rdbuf s)) true)
    else (rdbuf s ++ drop (length (rdbuf s)) old, mkStream [] false)
  else (old, s).

(** How a call ends: it returns, or a [std::exception] leaves it; either
    way with the state it had reached. *)
Inductive outcome (A : Type) : Type :=
| Returns (a : A)
| Throws (a : A).
Arguments Returns {A} a.
Arguments Throws {A} a.

Definition state_of {A} (o : outcome A) : A :=
  match o with Returns a | Throws a => a end.

Definition returned {A} (o : outcome A) : bool :=
  match o with Returns _ => true | Throws _ => false end.

Section Load.
(** [size], [keyLength] and [value] are declared without an
    initialiser and then read into; when the read fails they keep
    whatever their storage held.  [indet i] is byte [i] of such
    storage. *)
Variable indet : nat → byte.

(** Whether [std::string key(n, 0)] can be built: otherwise it throws
    [std::length_error] or [std::bad_alloc]. *)
Variable can_allocate : Z → bool.

Definition uninitialised (n : nat) : list byte := indet <$> seq 0 n.

(** The loop of [loadMap]: [n] iterations remain. *)
Fixpoint loadMap_loop (n : nat) (map : gmap string Z) (s : ifstream)
  : outcome (gmap string Z * ifstream) :=
  match n with
  | O => Returns (map, s)
  | S n' =>
      let '(kl, s1) := read_into (uninitialised sizeof_size_t) s in
      let keyLength := le_decode kl in
      if can_allocate keyLength then
        let '(key, s2) :=
          read_into (replicate (Z.to_nat keyLength) x00) s1 in
        let '(vb, s3) := read_into (uninitialised sizeof_int) s2 in
        loadMap_loop n' (<[string_of_list_byte key := decode_int vb]> map) s3
      else Throws (map, s1)
  end.

(** [loadMap(map, in)] *)
Definition loadMap (map : gmap string Z) (s : ifstream)
  : outcome (gmap string Z * ifstream) :=
  let '(sz, s0) := read_into (uninitialised sizeof_size_t) s in
  loadMap_loop (Z.to_nat (le_decode sz)) ∅ s0.

(** [AVLNode::load(in)] for [T = unordered_map<string,int>], on a node
    that holds [value]: the value the node holds afterwards. *)
Definition node_load (value : gmap string Z) (s : ifstream)
  : outcome (gmap string Z * ifstream) :=
  loadMap value s.

(** The private [AVLTree::load(in)]: the root is the only node loaded,
    and only when there is one. *)
Definition tree_load (t : AVLTree (gmap string Z)) (s : ifstream)
  : outcome (AVLTree (gmap string Z) * ifstream) :=
  match root t with
  | nullnode => Returns (t, s)
  | Node k value h l r =>
      match node_load value s with
      | Returns (value', s') => Returns (mkTree (Node k value' h l r), s')
      | Throws (value', s') => Throws (mkTree (Node k value' h l r), s')
      end
  end.

(** [loadFromFile(filename)] *)
Definition loadFromFile (t : AVLTree (gmap string Z)) (filename : string)
    (fs : filesystem) : outcome (AVLTree (gmap string Z)) :=
  match tree_load t (open_in fs filename) with
  | Returns (t', _) => Returns t'
  | Throws (t', _) => Throws t'
  end.
End Load.

(** ** searchEngine.cpp: [SearchEngine::WordMap] *)

(** The posting map of a term: document path to occurrence count. *)
Abbreviation posting := (gmap string Z).

Record WordMap : Type := mkWordMap {
  orgIndex : AVLTree posting;
  nameIndex : AVLTree posting;
  wordIndex : AVLTree posting
}.

(** A default-constructed [WordMap]: three empty trees. *)
Definition empty_WordMap : WordMap :=
  mkWordMap empty_tree empty_tree empty_tree.

(** Modelled from the spec: the two-argument [find(key, out)] that
    [WordMap] calls is not declared in [avl_tree.h].  The design document
    has the callers "look up the term's current posting map (absent
    means start from an empty map)" and return "the posting map for the
    term, or an empty map if absent": the call reports whether the key is
    present and, when it is, copies its value into [out]. *)
Definition find_into {T} (t : AVLTree T) (key : string) (out : T) : bool * T :=
  match tree_find t key with
  | nullnode => (false, out)
  | Node _ v _ _ _ => (true, v)
  end.

(** [files[filepath]++] *)
Definition increment (files : posting) (filepath : string) : posting :=
  <[filepath := wrap_int (default 0 (files !! filepath) + 1)]> files.

(** The common body of the three [associate] members, on one index. *)
Definition associate (index : AVLTree posting) (term filepath : string)
  : option (AVLTree posting) :=
  let '(found, files) := find_into index term ∅ in
  let files := if found then files else ∅ in
  tree_insert index term (increment files filepath).

(** [WordMap::associateOrg(org, filepath)] *)
Definition associateOrg (wm : WordMap) (org filepath : string)
  : option WordMap :=
  idx ← associate (orgIndex wm) org filepath;
  Some (mkWordMap idx (nameIndex wm) (wordIndex wm)).

(** [WordMap::associateName(name, filepath)] *)
Definition associateName (wm : WordMap) (name filepath : string)
  : option WordMap :=
  idx ← associate (nameIndex wm) name filepath;
  Some (mkWordMap (orgIndex wm) idx (wordIndex wm)).

(** [WordMap::associateWord(word, filepath)] *)
Definition associateWord (wm : WordMap) (word filepath : string)
  : option WordMap :=
  if String.eqb word "" then Some wm
  else
    idx ← associate (wordIndex wm) word filepath;
    Some (mkWordMap (orgIndex wm) (nameIndex wm) idx).

(** [WordMap::getFilesByOrg(org)] *)
Definition getFilesByOrg (wm : WordMap) (org : string) : posting :=
  (find_into (orgIndex wm) org ∅).2.

(** [WordMap::getFilesByName(name)] *)
Definition getFilesByName (wm : WordMap) (name : string) : posting :=
  (find_into (nameIndex wm) name ∅).2.

(** [WordMap::getFilesByWord(word)] *)
Definition getFilesByWord (wm : WordMap) (word : string) : posting :=
  (find_into (wordIndex wm) word ∅).2.

(** [WordMap::getOtherFilesByWord(word)] *)
Definition getOtherFilesByWord (wm : WordMap) (word : string) : posting :=
  getFilesByWord wm word.

(** [WordMap::save(filenamepath, osavePath, nsavePath, wsavePath,
    fsavePath)]; the source calls the per-index operation [save], which
    is [saveToFile] in [avl_tree.h]. *)
Definition WordMap_save (wm : WordMap)
    (filenamepath osavePath nsavePath wsavePath fsavePath : string)
    (fs : filesystem) : filesystem :=
  saveToFile (wordIndex wm) wsavePath
    (saveToFile (nameIndex wm) nsavePath
       (saveToFile (orgIndex wm) osavePath fs)).

Section LoadAll.
Variable indet : nat → byte.
Variable can_allocate : Z → bool.

(** [WordMap::load(filenamepath, osavePath, nsavePath, wsavePath,
    fsavePath)]: the three per-index loads ([loadFromFile] in
    [avl_tree.h]) inside [try], [true] after them, [false] from the
    handler.  The result pairs the state of the member indices with
    the value returned. *)
Definition WordMap_load (wm : WordMap)
    (filenamepath osavePath nsavePath wsavePath fsavePath : string)
    (fs : filesystem) : WordMap * bool :=
  match loadFromFile indet can_allocate (orgIndex wm) osavePath fs with
  | Throws o => (mkWordMap o (nameIndex wm) (wordIndex wm), false)
  | Returns o =>
      match loadFromFile indet can_allocate (nameIndex wm) nsavePath fs with
      | Throws n => (mkWordMap o n (wordIndex wm), false)
      | Returns n =>
          match loadFromFile indet can_allocate (wordIndex wm) wsavePath fs with
          | Throws w => (mkWordMap o n w, false)
          | Returns w => (mkWordMap o n w, true)
          end
      end
  end.
End LoadAll.

(** ** searchEngine.cpp: [SearchEngine] *)

(** What [getRelevantData(filePath)] hands to the ingestion loop for one
    regular file: [words[0]], [words[1]] and [words[2]], each in the
    order the loop visits it. *)
Record document : Type := mkDocument {
  filePath : string;
  organizations : list string;
  persons : list string;
  bodyWords : list string
}.

(** A [for] loop whose body can fail. *)
Fixpoint for_each {A S} (body : S → A → option S) (xs : list A) (s : S)
  : option S :=
  match xs with
  | [] => Some s
  | x :: xs' => s' ← body s x; for_each body xs' s'
  end.

(** [std::istream >> std::string] skips white space first; this is
    [isspace] in the classic locale. *)
Definition is_space (c : ascii) : bool :=
  let n := nat_of_ascii c in
  (n =? 32)%nat || ((9 <=? n)%nat && (n <=? 13)%nat).

Fixpoint skip_ws (s : string) : string :=
  match s with
  | EmptyString => EmptyString
  | String c s' => if is_space c then skip_ws s' else s
  end.

(** The characters up to the next white space, and the rest. *)
Fixpoint read_word (s : string) : string * string :=
  match s with
  | EmptyString => (EmptyString, EmptyString)
  | String c s' =>
      if is_space c then (EmptyString, s)
      else let '(w, rest) := read_word s' in (String c w, rest)
  end.

(** [iss >> term]: [None] when the extraction fails, which ends the
    loop; otherwise the term and the stream after it. *)
Definition extract (iss : string) : option (string * string) :=
  match skip_ws iss with
  | EmptyString => None
  | s => Some (read_word s)
  end.

(** [term.rfind(prefix, 0) == 0] *)
Definition starts_with (prefix term : string) : bool :=
  String.prefix prefix term.

Section Engine.
Variable more_stopwords : list string.

(** The body of the third inner loop of [buildFromScratch]. *)
Definition word_body (filePath : string) (wm : WordMap) (word : string)
  : option WordMap :=
  let processedWord := processWord more_stopwords word in
  if negb (String.eqb processedWord "")
  then associateWord wm processedWord filePath
  else Some wm.

(** The three inner loops of [buildFromScratch], for one file. *)
Definition index_document (wm : WordMap) (doc : document)
  : option WordMap :=
  wm1 ← for_each (fun wm word => associateOrg wm (tolower word) (filePath doc))
                 (organizations doc) wm;
  wm2 ← for_each (fun wm word => associateName wm (tolower word) (filePath doc))
                 (persons doc) wm1;
  for_each (word_body (filePath doc)) (bodyWords doc) wm2.

(** [buildFromScratch(folderPath)]: [corpus] is the regular files under
    the folder, in the order of the directory iterator. *)
Definition buildFromScratch (corpus : list document) (wm : WordMap)
  : option WordMap :=
  for_each index_document corpus wm.

(** The body of the loop of [parse], for one extracted term. *)
Definition parse_term (term : string) (terms : gset string) : gset string :=
  let term := tolower term in
  if starts_with "org:" term || starts_with "person:" term then
    {[ term ]} ∪ terms
  else if Ascii.eqb (char_at term 0) "-" then
    let processedTerm :=
      "-" +:+ processWord more_stopwords
                (substr term 1 (String.length term - 1)) in
    if (1 <? String.length processedTerm)%nat
    then {[ processedTerm ]} ∪ terms
    else terms
  else
    let processedTerm := processWord more_stopwords term in
    if negb (String.eqb processedTerm "")
    then {[ processedTerm ]} ∪ terms
    else terms.

(** [while (iss >> term) { ... }], with a bound on the iterations. *)
Fixpoint parse_loop (fuel : nat) (iss : string) (terms : gset string)
  : gset string :=
  match fuel with
  | O => terms
  | S fuel' =>
      match extract iss with
      | None => terms
      | Some (term, iss') => parse_loop fuel' iss' (parse_term term terms)
      end
  end.

(** [SearchEngine::parse(searchTerms)]: every iteration consumes at
    least one character, so the length of the input bounds them. *)
Definition parse (searchTerms : string) : gset string :=
  parse_loop (String.length searchTerms) searchTerms ∅.

Variable indet : nat → byte.
Variable can_allocate : Z → bool.

(** The constructor of [SearchEngine]: the index set it ends with and
    the files it leaves. *)
Definition SearchEngine_new (corpus : list document)
    (filenamepath osavePath nsavePath wsavePath fsavePath : string)
    (fs : filesystem) : option (WordMap * filesystem) :=
  let '(wordMap, loaded) :=
    WordMap_load indet can_allocate empty_WordMap
                 filenamepath osavePath nsavePath wsavePath fsavePath fs in
  if loaded then Some (wordMap, fs)
  else
    wordMap' ← buildFromScratch corpus wordMap;
    Some (wordMap',
          WordMap_save wordMap' filenamepath osavePath nsavePath wsavePath
                       fsavePath fs).
End Engine.

(** ** main.cpp: the command line and the result list

    Console and file output is not modelled; what is modelled is what
    the code decides: which branch [main] takes, which results
    [displayResults] lists under which number, and which numbers
    [handleSearch] accepts. *)



(** The loop of [displayResults]: the number and the path of each
    result it lists; [count] is the counter of the source. *)
Fixpoint display_loop (results : list string) (count : Z)
  : list (Z * string) :=
  match results with
  | [] => []
  | filepath :: rest =>
      if 15 <=? count then []
      else (count + 1, filepath) :: display_loop rest (count + 1)
  end.

(** [displayResults(results)]: the numbered list, and whether the note
    "Showing first 15 of ..." follows it. *)
Definition displayResults (results : list string)
  : list (Z * string) * bool :=
  (display_loop results 0, (15 <? length results)%nat).

(** The test of [handleSearch] on the number the user gave. *)
Definition valid_result_number (results : list string) (resultNum : Z)
  : bool :=
  (0 <? resultNum)
  && (resultNum <=? Z.min (wrap_int (Z.of_nat (length results))) 15).

(** [results[resultNum - 1]], the result [handleSearch] then shows. *)
Definition chosen_result (results : list string) (resultNum : Z)
  : option string :=
  results !! Z.to_nat (resultNum - 1).

(** ** document_info.h: the text form of a document's record

    [save] writes with [<<], [load] reads with [std::getline], [>>] and
    [ignore]; the streams are text streams in the classic locale.  An
    input stream is the characters not yet read and its two state bits;
    [badbit] is never set by the operations used. *)

Module DocumentInfo.

Record t : Type := mk {
  title : string;
  publication : string;
  date : string;
  filepath : string;
  termFrequencies : gmap string Z
}.

(** [out << n] for an integer [n]: its decimal digits, after a minus
    sign when it is negative. *)
Definition put_int (n : Z) : string := pretty n.

(** The string of the one character the source writes as "\n". *)
Definition newline : string := String "010" "".

(** [out << term << " " << freq << "\n"] *)
Definition put_term (entry : string * Z) : string :=
  entry.1 +:+ " " +:+ put_int entry.2 +:+ newline.

Definition put_terms (entries : list (string * Z)) : string :=
  foldr (λ entry text, put_term entry +:+ text) "" entries.

(** [save(out)]: what follows the characters [out] already holds.  The
    loop visits the map in the order of [map_to_list]. *)
Definition save (d : t) (out : string) : string :=
  out +:+ title d +:+ newline +:+ publication d +:+ newline
      +:+ date d +:+ newline +:+ filepath d +:+ newline
      +:+ put_int (Z.of_nat (size (termFrequencies d))) +:+ newline
      +:+ put_terms (map_to_list (termFrequencies d)).

Record istream : Type := mkIn {
  unread : string;
  eofbit : bool;
  failbit : bool
}.

(** A stream just opened on a file of the given characters. *)
Definition opened (text : string) : istream := mkIn text false false.

Definition is_good (s : istream) : bool :=
  negb (eofbit s) && negb (failbit s).

Definition set_failbit (s : istream) : istream :=
  mkIn (unread s) (eofbit s) true.

(** The characters before the next newline, and what follows the
    newline; [None] when the characters end before a newline. *)
Fixpoint read_line (s : string) : string * option string :=
  match s with
  | EmptyString => (EmptyString, None)
  | String c s' =>
      if Ascii.eqb c "010"%char then (EmptyString, Some s')
      else let '(line, rest) := read_line s' in (String c line, rest)
  end.

(** [std::getline(in, str)]: a stream that is not good fails and leaves
    [str]; otherwise [str] is erased and filled up to the newline, which
    is taken and dropped; reaching the end sets [eofbit], and [failbit]
    too when nothing at all was taken. *)
Definition getline (s : istream) (str : string) : istream * string :=
  if is_good s then
    match read_line (unread s) with
    | (line, Some rest) => (mkIn rest false false, line)
    | (line, None) => (mkIn "" true (String.eqb line ""), line)
    end
  else (set_failbit s, str).

Definition digit_of (c : ascii) : option Z :=
  let n := Z.of_nat (nat_of_ascii c) in
  if (48 <=? n) && (n <=? 57) then Some (n - 48) else None.

(** The digits at the front of [s]: their value on top of [acc], whether
    there was any, and the rest. *)
Fixpoint read_digits (s : string) (acc : Z) (any : bool)
  : Z * bool * string :=
  match s with
  | EmptyString => (acc, any, EmptyString)
  | String c s' =>
      match digit_of c with
      | Some d => read_digits s' (10 * acc + d) true
      | None => (acc, any, s)
      end
  end.

(** [in >> v] for an [int v]: a stream that is not good, or that ends
    within the white space, fails and leaves [v]; otherwise a sign and
    digits are taken; no digit fails the stream and stores 0, a value
    out of range fails it and stores the nearest bound. *)
Definition get_int (s : istream) (v : Z) : istream * Z :=
  if is_good s then
    match skip_ws (unread s) with
    | EmptyString => (mkIn "" true true, v)
    | String c s' as u =>
        let '(negative, body) :=
          if Ascii.eqb c "-"%char then (true, s')
          else if Ascii.eqb c "+"%char then (false, s')
          else (false, u) in
        let '(n, any, rest) := read_digits body 0 false in
        let eof := String.eqb rest "" in
        if negb any then (mkIn rest eof true, 0)
        else
          let x := if negative then - n else n in
          if x <? - 2 ^ 31 then (mkIn rest eof true, - 2 ^ 31)
          else if 2 ^ 31 <=? x then (mkIn rest eof true, 2 ^ 31 - 1)
          else (mkIn rest eof false, x)
    end
  else (set_failbit s, v).

(** [in >> str] for a string: fails like [get_int]; otherwise [str] is
    the characters up to the next white space. *)
Definition get_string (s : istream) (str : string) : istream * string :=
  if is_good s then
    match skip_ws (unread s) with
    | EmptyString => (mkIn "" true true, str)
    | u => let '(word, rest) := read_word u in
           (mkIn rest (String.eqb rest "") false, word)
    end
  else (set_failbit s, str).

(** [in.ignore()]: one character is dropped. *)
Definition ignore (s : istream) : istream :=
  if is_good s then
    match unread s with
    | EmptyString => mkIn "" true false
    | String _ s' => mkIn s' false false
    end
  else set_failbit s.

Section Load.
(** [size] and [freq] are declared without an initialiser; [indet] is
    what their storage held. *)
Variable indet : nat → byte.

Definition uninitialised_int : Z := decode_int (indet <$> seq 0 4).

(** The loop of [load], [n] rounds of it. *)
Fixpoint load_terms (n : nat) (s : istream) (tf : gmap string Z)
  : istream * gmap string Z :=
  match n with
  | O => (s, tf)
  | S n' =>
      let '(s, term) := get_string s "" in
      let '(s, freq) := get_int s uninitialised_int in
      load_terms n' s (<[term := freq]> tf)
  end.

(** [load(in)] *)
Definition load (d : t) (s : istream) : istream * t :=
  let '(s, title') := getline s (title d) in
  let '(s, publication') := getline s (publication d) in
  let '(s, date') := getline s (date d) in
  let '(s, filepath') := getline s (filepath d) in
  let '(s, size) := get_int s uninitialised_int in
  let s := ignore s in
  let '(s, tf) := load_terms (Z.to_nat size) s (termFrequencies d) in
  (s, mk title' publication' date' filepath' tf).

End Load.

(** A string [std::getline] reads back in one piece. *)
Fixpoint one_line (s : string) : bool :=
  match s with
  | EmptyString => true
  | String c s' => negb (Ascii.eqb c "010"%char) && one_line s'
  end.

(** A string [>>] reads back in one piece. *)
Fixpoint no_space (s : string) : bool :=
  match s with
  | EmptyString => true
  | String c s' => negb (is_space c) && no_space s'
  end.

Definition is_token (s : string) : bool :=
  negb (String.eqb s "") && no_space s.

Definition is_int (z : Z) : bool := (- 2 ^ 31 <=? z) && (z <? 2 ^ 31).

(** An entry of the term map that [load] reads back. *)
Definition ok_entry (entry : string * Z) : Prop :=
  is_token entry.1 = true ∧ is_int entry.2 = true.

(** The records [save] can write so that [load] reads them back. *)
Definition loadable (d : t) : Prop :=
  one_line (title d) = true ∧ one_line (publication d) = true
  ∧ one_line (date d) = true ∧ one_line (filepath d) = true
  ∧ Z.of_nat (size (termFrequencies d)) < 2 ^ 31
  ∧ map_Forall (λ term freq, ok_entry (term, freq)) (termFrequencies d).

End DocumentInfo.

(** ** Invariants and reference notions used by the statements *)

Section Invariants.
Context {T : Type}.

(** The height of a subtree, counted on the tree itself. *)
Fixpoint real_height (node : AVLNode T) : Z :=
  match node with
  | nullnode => 0
  | Node _ _ _ l r => 1 + Z.max (real_height l) (real_height r)
  end.

(** The balance invariant of the design document: at every node the
    stored height is the height of the subtree, and the heights of the
    two subtrees differ by at most one. *)
Fixpoint balanced (node : AVLNode T) : Prop :=
  match node with
  | nullnode => True
  | Node _ _ h l r =>
      h = real_height node
      ∧ Z.abs (real_height l - real_height r) ≤ 1
      ∧ balanced l ∧ balanced r
  end.

(** The same invariant on the stored [height] fields, as the code reads
    them. *)
Fixpoint avl (node : AVLNode T) : Prop :=
  match node with
  | nullnode => True
  | Node _ _ h l r =>
      h = 1 + Z.max (height l) (height r)
      ∧ -1 ≤ height l - height r ≤ 1
      ∧ avl l ∧ avl r
  end.

(** Every key of the subtree satisfies [P]. *)
Fixpoint all_keys (P : string → Prop) (node : AVLNode T) : Prop :=
  match node with
  | nullnode => True
  | Node k _ _ l r => P k ∧ all_keys P l ∧ all_keys P r
  end.

(** The search-tree order on keys. *)
Fixpoint bst (node : AVLNode T) : Prop :=
  match node with
  | nullnode => True
  | Node k _ _ l r =>
      all_keys (fun x => str_lt x k = true) l
      ∧ all_keys (fun x => str_lt k x = true) r
      ∧ bst l ∧ bst r
  end.

(** After an insertion made the subtree one higher: the root is not the
    inserted key, and the side the key went to is the higher one. *)
Definition grown (node : AVLNode T) (key : string) : Prop :=
  match node with
  | nullnode => False
  | Node k _ _ l r =>
      (str_lt key k = true ∧ height l = height r + 1)
      ∨ (str_gt key k = true ∧ height r = height l + 1)
  end.

(** The value most recently given for [key] in a sequence of inserts,
    first insert first. *)
Fixpoint last_inserted (ops : list (string * T)) (key : string) : option T :=
  match ops with
  | [] => None
  | (k, v) :: ops' =>
      match last_inserted ops' key with
      | Some v' => Some v'
      | None => if String.eqb k key then Some v else None
      end
  end.

(** The entries of a tree, in key order. *)
Fixpoint entries (node : AVLNode T) : list (string * T) :=
  match node with
  | nullnode => []
  | Node k v _ l r => entries l ++ (k, v) :: entries r
  end.

(** The shape of a tree: its keys and structure, without the values. *)
Fixpoint shape (node : AVLNode T) : AVLNode unit :=
  match node with
  | nullnode => nullnode
  | Node k _ h l r => Node k tt h (shape l) (shape r)
  end.
(** What [find] yields for a key: its value, or nothing. *)
Definition lookup_key (node : AVLNode T) (key : string) : option T := value_of (find node key).

(** [b] holds the same keys as [a], and when [a] is ordered so is [b],
    with the same value under every key. *)
Definition same_content (a b : AVLNode T) : Prop :=
  (∀ P, all_keys P a → all_keys P b)
  ∧ (bst a → bst b ∧ ∀ key, lookup_key b key = lookup_key a key).

(** Two subtrees that differ at most in the value held by the root: both
    null, or the same key, stored height and children. *)
Definition same_but_root_value (a b : AVLNode T) : Prop :=
  match a, b with
  | nullnode, nullnode => True
  | Node k _ h l r, Node k' _ h' l' r' => k = k' ∧ h = h' ∧ l = l' ∧ r = r'
  | _, _ => False
  end.

End Invariants.

(** An index is well formed when its tree is balanced and ordered, and
    an index set when its three indices are. *)
Definition wf_index (t : AVLTree posting) : Prop :=
  avl (root t) ∧ bst (root t).

Definition wf_WordMap (wm : WordMap) : Prop :=
  wf_index (orgIndex wm) ∧ wf_index (nameIndex wm) ∧ wf_index (wordIndex wm).

(** A posting that [loadMap] reads back as it was written: the
    document-id can be allocated and the count is an [int]. *)
Definition loadable (can_allocate : Z → bool) (p : string * Z) : Prop :=
  can_allocate (Z.of_nat (String.length p.1)) = true
  ∧ Z.of_nat (String.length p.1) < 2 ^ 64
  ∧ - 2 ^ 31 ≤ p.2 < 2 ^ 31.

(** ** The persistence format as the design document words it

    "Format per entry: key length + key bytes, then posting-map entry
    count, then for each posting: document-id length + bytes + 8-byte
    count."  The document does not give the width of the length and
    count-of-entries fields; [w] is that width. *)




(** ** Query parsing as the design document words it *)

(** Split on white space: the maximal runs of other characters, in
    order.  [cur] is the run being read. *)
Fixpoint split_ws (s : string) (cur : string) : list string :=
  match s with
  | EmptyString => if String.eqb cur "" then [] else [cur]
  | String c s' =>
      if is_space c
      then (if String.eqb cur "" then [] else [cur]) ++ split_ws s' ""
      else split_ws s' (cur +:+ String c "")
  end.

Section ParseSpec.
Variable more_stopwords : list string.

(** What one case-folded token contributes: nothing, or one term. *)
Definition classify (token : string) : option string :=
  if starts_with "org:" token || starts_with "person:" token then
    Some token
  else if starts_with "-" token then
    let stem := processWord more_stopwords
                  (substr token 1 (String.length token - 1)) in
    if String.eqb stem "" then None else Some ("-" +:+ stem)
  else
    let stem := processWord more_stopwords token in
    if String.eqb stem "" then None else Some stem.

Definition parse_spec (query : string) : gset string :=
  list_to_set (omap classify (tolower <$> split_ws query "")).
End ParseSpec.

(** Whether a string has an upper-case letter, and whether it has none. *)
Definition is_upper (c : ascii) : bool :=
  let n := nat_of_ascii c in (65 <=? n)%nat && (n <=? 90)%nat.

Fixpoint has_upper (s : string) : bool :=
  match s with
  | EmptyString => false
  | String c s' => is_upper c || has_upper s'
  end.

(** ** Further reference notions *)

(** The order on keys, as a relation. *)
Definition key_less (a b : string) : Prop := str_lt a b = true.

Section Counting.
Context {T : Type}.

(** The number of nodes of a subtree. *)
Fixpoint node_count (node : AVLNode T) : Z :=
  match node with
  | nullnode => 0
  | Node _ _ _ l r => 1 + node_count l + node_count r
  end.

(** The keys of a subtree, in order of an in-order walk. *)
Definition keys (node : AVLNode T) : list string := (entries node).*1.
End Counting.

Section Heights.
Context {T : Type}.

(** Every stored height is the height of its subtree. *)
Fixpoint heights_ok (node : AVLNode T) : Prop :=
  match node with
  | nullnode => True
  | Node _ _ h l r =>
      h = 1 + Z.max (height l) (height r) ∧ heights_ok l ∧ heights_ok r
  end.

(** Whether [find] reaches the key. *)
Definition has_key (node : AVLNode T) (key : string) : bool :=
  match find node key with
  | nullnode => false
  | Node _ _ _ _ _ => true
  end.
End Heights.

(** ** Concrete inputs used by the statements *)

(** One term with one posting. *)
Definition one_posting : posting := {[ "doc" := 1 ]}.

Definition one_entry_ops : list (string * posting) := [("term", one_posting)].

(** The index that [one_entry_ops] builds. *)
Definition one_entry_tree : AVLTree posting :=
  mkTree (Node "term" one_posting 1 nullnode nullnode).

(** A file that announces one posting whose document-id length has all
    64 bits set. *)
Definition corrupt_file : list byte :=
  le_encode 8 1 ++ le_encode 8 (2 ^ 64 - 1).

(** Strings can be built up to the [max_size()] of the usual 64-bit
    library. *)
Definition allocate_below_max_size (n : Z) : bool := n <? 2 ^ 62.

(** No entry of the stopword list has an upper-case letter. *)
Definition stopwords_lowercase (more_stopwords : list string) : bool :=
  forallb (λ s, negb (has_upper s)) (commonStopwords more_stopwords).

(** A document whose body holds the single word "The". *)
Definition the_document : document := mkDocument "a.json" [] [] ["The"].

(** Small trees over integer values: a left chain of three nodes, the
    balanced tree a right rotation makes of it, and that tree after
    ["b"] was given the value 7. *)
Definition left_chain : AVLNode Z :=
  Node "c" 3 3 (Node "b" 2 2 (Node "a" 1 1 nullnode nullnode) nullnode)
       nullnode.

Definition small_tree : AVLNode Z :=
  Node "b" 2 2 (Node "a" 1 1 nullnode nullnode)
       (Node "c" 3 1 nullnode nullnode).

Definition small_tree_b7 : AVLNode Z :=
  Node "b" 7 2 (Node "a" 1 1 nullnode nullnode)
       (Node "c" 3 1 nullnode nullnode).

Definition small_tree_d : AVLNode Z :=
  Node "b" 2 3 (Node "a" 1 1 nullnode nullnode)
       (Node "c" 3 2 nullnode (Node "d" 4 1 nullnode nullnode)).

(** Whether [loadMap] can read a posting map back: fewer than [2^64]
    postings, every document-id of a length that can be allocated, and
    every count an [int]. *)
Definition posting_loadable (can_allocate : Z → bool) (m : posting) : bool :=
  (Z.of_nat (size m) <? 2 ^ 64)
  && forallb (λ p, can_allocate (Z.of_nat (String.length p.1))
                   && (Z.of_nat (String.length p.1) <? 2 ^ 64)
                   && (- 2 ^ 31 <=? p.2) && (p.2 <? 2 ^ 31))
             (map_to_list m).

(** The same for the only posting map an index saves, that of its
    root. *)
Definition index_loadable (can_allocate : Z → bool) (t : AVLTree posting)
  : bool :=
  match root t with
  | nullnode => true
  | Node _ m _ _ _ => posting_loadable can_allocate m
  end.

(** An index set with one organisation, one person and one word, each
    met once in ["a.json"]. *)
Definition sample_WordMap : WordMap :=
  mkWordMap (mkTree (Node "acme" {[ "a.json" := 1 ]} 1 nullnode nullnode))
            (mkTree (Node "ann lee" {[ "a.json" := 1 ]} 1 nullnode nullnode))
            (mkTree (Node "run" {[ "a.json" := 1 ]} 1 nullnode nullnode)).

(** Uninitialised storage that happens to hold zeros. *)
Definition zero_storage (i : nat) : byte := x00.

(** How many of the words have the given processed form. *)
Definition occurrences (more_stopwords : list string) (term : string)
    (words : list string) : Z :=
  Z.of_nat (length (filter (λ w, processWord more_stopwords w = term) words)).

(** No posting of the first index set is missing from the second. *)
Definition postings_kept (wm wm' : WordMap) : Prop :=
  ∀ key f,
    (f ∈ dom (getFilesByOrg wm key) → f ∈ dom (getFilesByOrg wm' key))
    ∧ (f ∈ dom (getFilesByName wm key) → f ∈ dom (getFilesByName wm' key))
    ∧ (f ∈ dom (getFilesByWord wm key) → f ∈ dom (getFilesByWord wm' key)).

(** Every term of the document leads to the document: its organisations
    and persons in lower case, its body words in processed form, those
    that [processWord] drops apart. *)
Definition document_posted (more_stopwords : list string) (wm : WordMap)
    (doc : document) : Prop :=
  (∀ org, org ∈ organizations doc →
     filePath doc ∈ dom (getFilesByOrg wm (tolower org)))
  ∧ (∀ name, name ∈ persons doc →
       filePath doc ∈ dom (getFilesByName wm (tolower name)))
  ∧ (∀ word, word ∈ bodyWords doc →
       processWord more_stopwords word ≠ "" →
       filePath doc ∈ dom (getFilesByWord wm (processWord more_stopwords word))).

(** A document naming one organisation and one person, with a body of
    four words. *)
Definition sample_document : document :=
  mkDocument "b.json" ["ACME"] ["Ann Lee"] ["Running"; "and"; "runs"; "run"].

(** A record of a document with two terms. *)
Definition sample_record : DocumentInfo.t :=
  DocumentInfo.mk "Markets rally" "Daily News" "2018-02-01" "news/1.json"
    {[ "market" := 3; "ralli" := 1 ]}.

(** * Properties *)

(** ** The order on keys is a strict total order *)

Lemma ascii_compare_lt_trans (a b c : ascii) :
  Ascii.compare a b = Lt → Ascii.compare b c = Lt → Ascii.compare a c = Lt.
Proof.
  unfold Ascii.compare. rewrite !N.compare_lt_iff. lia.
Qed.

Lemma ascii_compare_refl (a : ascii) : Ascii.compare a a = Eq.
Proof. unfold Ascii.compare. apply N.compare_refl. Qed.

Lemma string_compare_refl (a : string) : String.compare a a = Eq.
Proof.
  induction a as [|c a IH]; simpl; [done|].
  by rewrite ascii_compare_refl.
Qed.

Lemma string_compare_lt_trans (a b c : string) :
  String.compare a b = Lt → String.compare b c = Lt → String.compare a c = Lt.
Proof.
  revert b c. induction a as [|x a IH]; intros [|y b] [|z c]; simpl; try done.
  destruct (Ascii.compare x y) eqn:Hxy; try done.
  - apply Ascii.compare_eq_iff in Hxy as ->.
    destruct (Ascii.compare y z); try done. apply IH.
  - intros _. destruct (Ascii.compare y z) eqn:Hyz; try done.
    + apply Ascii.compare_eq_iff in Hyz as <-. by rewrite Hxy.
    + by rewrite (ascii_compare_lt_trans x y z).
Qed.

Lemma str_gt_lt (a b : string) : str_gt a b = str_lt b a.
Proof.
  unfold str_gt, str_lt. rewrite (String.compare_antisym b a).
  by destruct (String.compare a b).
Qed.

Lemma str_lt_irrefl (a : string) : str_lt a a = false.
Proof. unfold str_lt. by rewrite string_compare_refl. Qed.

Lemma str_lt_trans (a b c : string) :
  str_lt a b = true → str_lt b c = true → str_lt a c = true.
Proof.
  unfold str_lt. intros Hab Hbc.
  destruct (String.compare a b) eqn:H1; try done.
  destruct (String.compare b c) eqn:H2; try done.
  by rewrite (string_compare_lt_trans a b c).
Qed.

Lemma str_lt_asym (a b : string) : str_lt a b = true → str_lt b a = false.
Proof.
  intros H. destruct (str_lt b a) eqn:H'; [|done].
  by rewrite <- (str_lt_irrefl a), (str_lt_trans a b a).
Qed.

Lemma str_total (a b : string) :
  str_lt a b = false → str_lt b a = false → a = b.
Proof.
  unfold str_lt. rewrite (String.compare_antisym b a).
  destruct (String.compare a b) eqn:H; try done.
  intros _ _. by apply String.compare_eq_iff.
Qed.

Lemma str_eq_true (a b : string) : str_eq a b = true ↔ a = b.
Proof. apply String.eqb_eq. Qed.

Lemma str_eq_false (a b : string) : str_eq a b = false ↔ a ≠ b.
Proof. apply String.eqb_neq. Qed.

Lemma key_cmp_spec (a b : string) : key_cmp a b.
Proof.
  destruct (str_lt a b) eqn:Hlt.
  - apply key_lt; trivial.
    + rewrite str_gt_lt. by apply str_lt_asym.
    + apply str_eq_false. intros ->. by rewrite str_lt_irrefl in Hlt.
    + intros ->. by rewrite str_lt_irrefl in Hlt.
  - destruct (str_gt a b) eqn:Hgt.
    + rewrite str_gt_lt in Hgt.
      assert (a ≠ b) by (intros ->; by rewrite str_lt_irrefl in Hgt).
      apply key_gt; trivial.
      * by rewrite str_gt_lt.
      * apply str_eq_false. congruence.
    + rewrite str_gt_lt in Hgt.
      assert (a = b) by by apply str_total.
      apply key_eq; trivial.
      * by rewrite str_gt_lt.
      * by apply str_eq_true.
Qed.

(** Closes a goal whose hypotheses order keys inconsistently. *)
Ltac key_contra :=
  exfalso;
  repeat match goal with
  | H : str_gt _ _ = _ |- _ => rewrite str_gt_lt in H
  end;
  repeat match goal with
  | H : ?a = ?b :> string |- _ => first [subst a | subst b]
  end;
  repeat match goal with
  | H1 : str_lt ?a ?b = true, H2 : str_lt ?b ?c = true |- _ =>
      lazymatch goal with
      | _ : str_lt a c = true |- _ => fail
      | _ => pose proof (str_lt_trans a b c H1 H2)
      end
  end;
  repeat match goal with
  | H : str_lt ?a ?a = true |- _ => rewrite str_lt_irrefl in H
  end;
  congruence.

(** ** The balanced index keeps its invariants *)

Section AVLFacts.
Context {T : Type}.
Implicit Types (node child l r : AVLNode T) (key k : string) (v value : T).

Lemma avl_height_nonneg node : avl node → 0 ≤ height node.
Proof.
  induction node as [|k v h l IHl r IHr]; simpl; [lia|].
  intros (-> & _ & Hl & Hr). specialize (IHl Hl). lia.
Qed.

Lemma avl_height_pos k v h l r : avl (Node k v h l r) → 1 ≤ h.
Proof.
  simpl. intros (-> & _ & Hl & _). apply avl_height_nonneg in Hl. lia.
Qed.

Lemma avl_real_height node : avl node → height node = real_height node.
Proof.
  induction node as [|k v h l IHl r IHr]; simpl; [done|].
  intros (-> & _ & Hl & Hr). rewrite IHl, IHr; done.
Qed.

Lemma avl_balanced node : avl node → balanced node.
Proof.
  induction node as [|k v h l IHl r IHr]; [done|].
  intros Havl. pose proof Havl as (Hh & Hb & Hl & Hr).
  cbn [balanced]. split_and!; auto.
  - rewrite <- (avl_real_height _ Havl). done.
  - rewrite <- !avl_real_height by done. lia.
Qed.

Lemma and_key_false b child (test : string → bool) :
  b = false → and_key b child test = Some false.
Proof. by intros ->. Qed.

Lemma and_key_node b k v h l r (test : string → bool) :
  and_key b (Node k v h l r) test = Some (b && test k).
Proof. by destruct b. Qed.

(** Rebalancing after the key went to the left subtree. *)
Lemma rebalance_left k v l' r key :
  avl l' → avl r →
  str_lt key k = true →
  -1 ≤ height l' - height r ≤ 2 →
  (height l' - height r = 2 → grown l' key) →
  ∃ node',
    rebalance k v l' r key = Some node' ∧ avl node'
    ∧ (height l' - height r = 2 → height node' = height l')
    ∧ (height l' - height r ≠ 2 →
       node' = Node k v (1 + Z.max (height l') (height r)) l' r).
Proof.
  intros Hl Hr Hk Hb Hg.
  destruct (decide (height l' - height r = 2)) as [H2|H2].
  - specialize (Hg H2).
    destruct l' as [|kl vl hl ll lr]; [done|].
    pose proof Hl as (Hhl & Hbl & Hll & Hlr).
    pose proof (avl_height_nonneg _ Hll). pose proof (avl_height_nonneg _ Hlr).
    pose proof (avl_height_nonneg _ Hr).
    unfold rebalance. cbn [getBalance]. rewrite !and_key_node.
    simpl in H2, Hg.
    assert (Hb1 : (1 <? height (Node kl vl hl ll lr) - height r) = true)
      by (simpl; lia).
    rewrite Hb1. cbn [andb].
    destruct Hg as [[Hlt Hh]|[Hgt Hh]].
    + rewrite Hlt. cbn [mbind option_bind rightRotate].
      eexists; split; [done|]. simpl in *. split_and!; auto; lia.
    + destruct (key_cmp_spec key kl) as [?? _ _|Hlt' _ _ _|?? _ _]; try congruence.
      rewrite Hlt', Hgt. cbn [mbind option_bind].
      assert (Hb2 : (height (Node kl vl hl ll lr) - height r <? -1) = false)
        by (simpl; lia).
      rewrite and_key_false by done. cbn [mbind option_bind].
      destruct lr as [|klr vlr hlr lrl lrr]; [simpl in *; lia|].
      destruct Hlr as (Hhlr & Hblr & Hlrl & Hlrr).
      pose proof (avl_height_nonneg _ Hlrl).
      pose proof (avl_height_nonneg _ Hlrr).
      cbn [leftRotate rightRotate mbind option_bind].
      eexists; split; [done|]. simpl in *. split_and!; auto; lia.
  - unfold rebalance. cbn [getBalance].
    assert (Hb1 : (1 <? height l' - height r) = false) by lia.
    assert (Hb2 : (height l' - height r <? -1) = false) by lia.
    rewrite !(and_key_false (1 <? _)) by done.
    rewrite !(and_key_false (_ <? -1)) by done.
    cbn [mbind option_bind].
    eexists; split; [done|]. split_and!; [|lia|done].
    simpl. split_and!; auto; lia.
Qed.

(** Rebalancing after the key went to the right subtree. *)
Lemma rebalance_right k v l r' key :
  avl l → avl r' →
  str_gt key k = true →
  -1 ≤ height r' - height l ≤ 2 →
  (height r' - height l = 2 → grown r' key) →
  ∃ node',
    rebalance k v l r' key = Some node' ∧ avl node'
    ∧ (height r' - height l = 2 → height node' = height r')
    ∧ (height r' - height l ≠ 2 →
       node' = Node k v (1 + Z.max (height l) (height r')) l r').
Proof.
  intros Hl Hr Hk Hb Hg.
  destruct (decide (height r' - height l = 2)) as [H2|H2].
  - specialize (Hg H2).
    destruct r' as [|kr vr hr rl rr]; [done|].
    pose proof Hr as (Hhr & Hbr & Hrl & Hrr).
    pose proof (avl_height_nonneg _ Hrl). pose proof (avl_height_nonneg _ Hrr).
    pose proof (avl_height_nonneg _ Hl).
    unfold rebalance. cbn [getBalance]. rewrite !and_key_node.
    simpl in H2, Hg.
    assert (Hb1 : (1 <? height l - height (Node kr vr hr rl rr)) = false)
      by (simpl; lia).
    assert (Hb2 : (height l - height (Node kr vr hr rl rr) <? -1) = true)
      by (simpl; lia).
    rewrite !(and_key_false (1 <? _)) by done.
    rewrite Hb2. cbn [andb mbind option_bind].
    destruct Hg as [[Hlt Hh]|[Hgt Hh]].
    + destruct (key_cmp_spec key kr) as [_ Hgt' _ _|? _ _ _|? _ _ _]; try congruence.
      rewrite Hgt', Hlt. cbn [mbind option_bind].
      destruct rl as [|krl vrl hrl rll rlr]; [simpl in *; lia|].
      destruct Hrl as (Hhrl & Hbrl & Hrll & Hrlr).
      pose proof (avl_height_nonneg _ Hrll).
      pose proof (avl_height_nonneg _ Hrlr).
      cbn [leftRotate rightRotate mbind option_bind].
      eexists; split; [done|]. simpl in *. split_and!; auto; lia.
    + rewrite Hgt. cbn [mbind option_bind leftRotate].
      eexists; split; [done|]. simpl in *. split_and!; auto; lia.
  - unfold rebalance. cbn [getBalance].
    assert (Hb1 : (1 <? height l - height r') = false) by lia.
    assert (Hb2 : (height l - height r' <? -1) = false) by lia.
    rewrite !(and_key_false (1 <? _)) by done.
    rewrite !(and_key_false (_ <? -1)) by done.
    cbn [mbind option_bind].
    eexists; split; [done|]. split_and!; [|lia|done].
    simpl. split_and!; auto; lia.
Qed.

(** The private [insert] returns, keeps the invariant, and raises the
    height of the subtree by at most one; when it does raise it, the
    side the key went to is the higher one. *)
Lemma insert_avl node key value :
  avl node →
  ∃ node',
    insert node key value = Some node' ∧ avl node'
    ∧ (height node' = height node
       ∨ (height node' = height node + 1
          ∧ (node ≠ nullnode → grown node' key))).
Proof.
  induction node as [|k v h l IHl r IHr]; intros Havl.
  - eexists; split; [done|]. simpl. split; [lia|]. right. done.
  - pose proof Havl as (Hh & Hb & Hl & Hr).
    cbn [insert].
    destruct (key_cmp_spec key k) as [Hlt Hgt _ _|Hlt Hgt _ _|Hlt Hgt _ _];
      rewrite Hlt; [|rewrite Hgt..].
    + destruct (IHl Hl) as (l' & -> & Hl' & Hhl'). cbn [mbind option_bind].
      destruct (rebalance_left k v l' r key) as (n' & -> & Hn' & H2 & Hn2);
        auto.
      * lia.
      * intros Heq. destruct Hhl' as [?|[? Hg]]; [lia|]. apply Hg.
        intros ->. simpl in *.
        pose proof (avl_height_nonneg _ Hr). lia.
      * eexists; split; [done|]. split; [done|].
        destruct (decide (height l' - height r = 2)) as [Heq|Hne].
        -- left. rewrite (H2 Heq). simpl. lia.
        -- rewrite (Hn2 Hne). simpl.
           destruct Hhl' as [Hsame|[Hup _]]; [left; lia|].
           destruct (decide (height l < height r)); [left; lia|].
           right. split; [lia|]. intros _. left. split; [done|lia].
    + destruct (IHr Hr) as (r' & -> & Hr' & Hhr'). cbn [mbind option_bind].
      destruct (rebalance_right k v l r' key) as (n' & -> & Hn' & H2 & Hn2);
        auto.
      * lia.
      * intros Heq. destruct Hhr' as [?|[? Hg]]; [lia|]. apply Hg.
        intros ->. simpl in *.
        pose proof (avl_height_nonneg _ Hl). lia.
      * eexists; split; [done|]. split; [done|].
        destruct (decide (height r' - height l = 2)) as [Heq|Hne].
        -- left. rewrite (H2 Heq). simpl. lia.
        -- rewrite (Hn2 Hne). simpl.
           destruct Hhr' as [Hsame|[Hup _]]; [left; lia|].
           destruct (decide (height r < height l)); [left; lia|].
           right. split; [lia|]. intros _. right. split; [done|lia].
    + eexists; split; [done|]. split; [done|]. left. done.
Qed.

(** A sequence of public inserts returns and keeps the invariant. *)
Lemma insert_all_avl (ops : list (string * T)) (t : AVLTree T) :
  avl (root t) → ∃ t', insert_all ops t = Some t' ∧ avl (root t').
Proof.
  revert t. induction ops as [|[k v] ops IH]; intros t Ht.
  - by exists t.
  - cbn [insert_all]. unfold tree_insert.
    destruct (insert_avl (root t) k v Ht) as (n' & -> & Hn' & _).
    cbn [fmap option_fmap option_map mbind option_bind].
    by apply IH.
Qed.
End AVLFacts.

(** ** Rotations keep the keys, the order and the values *)

Section BSTFacts.
Context {T : Type}.
Implicit Types (node child l r a b c : AVLNode T) (key k : string)
         (v value : T).

Lemma all_keys_impl (P Q : string → Prop) node :
  (∀ k, P k → Q k) → all_keys P node → all_keys Q node.
Proof.
  intros HPQ. induction node as [|k v h l IHl r IHr]; simpl; [done|].
  intros (? & ? & ?). auto.
Qed.

Lemma lookup_node k v h l r key :
  lookup_key (Node k v h l r) key =
    if str_eq k key then Some v
    else if str_lt key k then lookup_key l key
    else lookup_key r key.
Proof.
  unfold lookup_key. cbn [find].
  destruct (str_eq k key); [done|]. by destruct (str_lt key k).
Qed.

Lemma same_content_trans a b c :
  same_content a b → same_content b c → same_content a c.
Proof.
  intros [Hk1 Hb1] [Hk2 Hb2]. split; [auto|].
  intros Ha. destruct (Hb1 Ha) as [Hb Hl1]. destruct (Hb2 Hb) as [Hc Hl2].
  split; [done|]. intros key. by rewrite Hl2.
Qed.

Lemma same_content_height k v h h' l r :
  same_content (Node k v h l r) (Node k v h' l r).
Proof.
  split; [done|]. intros Hb. split; [done|].
  intros key. by rewrite !lookup_node.
Qed.

Lemma same_content_left k v h h' l l2 r :
  same_content l l2 → same_content (Node k v h l r) (Node k v h' l2 r).
Proof.
  intros [Hk Hb]. split.
  - simpl. intros P (? & ? & ?). auto.
  - simpl. intros (Hl & Hr & Hbl & Hbr). destruct (Hb Hbl) as [Hbl2 Hlk].
    split; [auto|]. intros key. rewrite !lookup_node. by rewrite Hlk.
Qed.

Lemma same_content_right k v h h' l r r2 :
  same_content r r2 → same_content (Node k v h l r) (Node k v h' l r2).
Proof.
  intros [Hk Hb]. split.
  - simpl. intros P (? & ? & ?). auto.
  - simpl. intros (Hl & Hr & Hbl & Hbr). destruct (Hb Hbr) as [Hbr2 Hlk].
    split; [auto|]. intros key. rewrite !lookup_node. by rewrite Hlk.
Qed.

Lemma same_content_rightRotate (y x : AVLNode T) :
  rightRotate y = Some x → same_content y x.
Proof.
  destruct y as [|ky vy hy [|kx vx hx xl T2] yr]; try done.
  intros [= <-]. split.
  - simpl. tauto.
  - simpl. intros ((Hxy & Hxl & HT2) & Hyr & (Hxl' & HT2' & Hbxl & HbT2) & Hbyr).
    split.
    + split_and!; auto.
      eapply all_keys_impl; [|exact Hyr].
      intros k Hk. simpl in *. by apply (str_lt_trans kx ky k).
    + intros key. rewrite !lookup_node.
      destruct (key_cmp_spec key kx) as [Hlt Hgt Heq Hne|Hlt Hgt Heq Hne|Hlt Hgt Heq Hne];
        destruct (key_cmp_spec key ky) as [Hlt' Hgt' Heq' Hne'|Hlt' Hgt' Heq' Hne'|Hlt' Hgt' Heq' Hne'];
        rewrite ?Heq, ?Heq', ?Hlt, ?Hlt'; try done;
        clear -Hxy Hlt Hgt Hne Hlt' Hgt' Hne'; key_contra.
Qed.

Lemma same_content_leftRotate (x y : AVLNode T) :
  leftRotate x = Some y → same_content x y.
Proof.
  destruct x as [|kx vx hx xl [|ky vy hy T2 yr]]; try done.
  intros [= <-]. split.
  - simpl. tauto.
  - simpl. intros (Hxl & (Hxy & HT2 & Hyr) & Hbxl & (HT2' & Hyr' & HbT2 & Hbyr)).
    split.
    + split_and!; auto.
      eapply all_keys_impl; [|exact Hxl].
      intros k Hk. simpl in *. by apply (str_lt_trans k kx ky).
    + intros key. rewrite !lookup_node.
      destruct (key_cmp_spec key kx) as [Hlt Hgt Heq Hne|Hlt Hgt Heq Hne|Hlt Hgt Heq Hne];
        destruct (key_cmp_spec key ky) as [Hlt' Hgt' Heq' Hne'|Hlt' Hgt' Heq' Hne'|Hlt' Hgt' Heq' Hne'];
        rewrite ?Heq, ?Heq', ?Hlt, ?Hlt'; try done;
        clear -Hxy Hlt Hgt Hne Hlt' Hgt' Hne'; key_contra.
Qed.

(** Whatever branch [rebalance] takes, it is a chain of the steps
    above. *)
Lemma rebalance_same_content k v h l r key node' :
  rebalance k v l r key = Some node' →
  same_content (Node k v h l r) node'.
Proof.
  unfold rebalance.
  set (node := Node k v (1 + height l `max` height r) l r).
  assert (Hn : same_content (Node k v h l r) node)
    by apply same_content_height.
  intros Hreb.
  destruct (and_key _ l (str_lt key)) as [[]|]; [| |done];
    cbn [mbind option_bind] in Hreb.
  { eapply same_content_trans, same_content_rightRotate; done. }
  destruct (and_key _ r (str_gt key)) as [[]|]; [| |done];
    cbn [mbind option_bind] in Hreb.
  { eapply same_content_trans, same_content_leftRotate; done. }
  destruct (and_key _ l (str_gt key)) as [[]|]; [| |done];
    cbn [mbind option_bind] in Hreb.
  { destruct (leftRotate l) as [l2|] eqn:Hl2; [|done].
    cbn [mbind option_bind] in Hreb.
    eapply same_content_trans; [|eapply same_content_rightRotate; done].
    by apply same_content_left, same_content_leftRotate. }
  destruct (and_key _ r (str_lt key)) as [[]|]; [| |done];
    cbn [mbind option_bind] in Hreb.
  { destruct (rightRotate r) as [r2|] eqn:Hr2; [|done].
    cbn [mbind option_bind] in Hreb.
    eapply same_content_trans; [|eapply same_content_leftRotate; done].
    by apply same_content_right, same_content_rightRotate. }
  by injection Hreb as <-.
Qed.

(** The private [insert] on an ordered tree: the result is ordered,
    holds the new key beside the old ones, and [find] sees the new
    value under the key and the old values elsewhere. *)
Lemma insert_bst node key value node' :
  bst node → insert node key value = Some node' →
  bst node'
  ∧ (∀ P : string → Prop, P key → all_keys P node → all_keys P node')
  ∧ ∀ key', lookup_key node' key' =
              if str_eq key key' then Some value else lookup_key node key'.
Proof.
  revert node'. induction node as [|k v h l IHl r IHr]; intros node' Hb Hins.
  - injection Hins as <-. split_and!; [done|simpl; auto|].
    intros key'. unfold new_node. rewrite lookup_node.
    destruct (str_eq key key'); [done|]. by destruct (str_lt key' key).
  - destruct Hb as (Hl & Hr & Hbl & Hbr). cbn [insert] in Hins.
    destruct (key_cmp_spec key k) as [Hlt Hgt Heq Hne|Hlt Hgt Heq Hne|Hlt Hgt Heq ->];
      rewrite Hlt in Hins; [|rewrite Hgt in Hins..].
    + destruct (insert l key value) as [l'|] eqn:Hl'; [|done].
      cbn [mbind option_bind] in Hins.
      destruct (IHl l' Hbl eq_refl) as (Hbl' & Hkl' & Hlk').
      destruct (rebalance_same_content k v h l' r key node' Hins) as [Hk Hc].
      destruct Hc as [Hbn Hlk]. { simpl. split_and!; auto. }
      split_and!; [done| |].
      * intros P HP (? & ? & ?). apply Hk. simpl. auto.
      * intros key'. rewrite Hlk, !lookup_node, Hlk'.
        destruct (str_eq key key') eqn:E; [|done].
        apply str_eq_true in E as <-.
        by rewrite Heq, Hlt.
    + destruct (insert r key value) as [r'|] eqn:Hr'; [|done].
      cbn [mbind option_bind] in Hins.
      destruct (IHr r' Hbr eq_refl) as (Hbr' & Hkr' & Hlk').
      destruct (rebalance_same_content k v h l r' key node' Hins) as [Hk Hc].
      destruct Hc as [Hbn Hlk].
      { simpl. split_and!; auto. apply Hkr'; [|done]. by rewrite <- str_gt_lt. }
      split_and!; [done| |].
      * intros P HP (? & ? & ?). apply Hk. simpl. auto.
      * intros key'. rewrite Hlk, !lookup_node, Hlk'.
        destruct (str_eq key key') eqn:E; [|done].
        apply str_eq_true in E as <-.
        by rewrite Heq, Hlt.
    + injection Hins as <-. split_and!; [by simpl|simpl; tauto|].
      intros key'. rewrite !lookup_node.
      by destruct (str_eq k key').
Qed.
End BSTFacts.

(** ** Sequences of inserts *)

Section InsertAll.
Context {T : Type}.
Implicit Types (t : AVLTree T) (ops : list (string * T)) (key : string).

Lemma insert_all_bst ops t t' :
  bst (root t) → insert_all ops t = Some t' →
  bst (root t')
  ∧ ∀ key, lookup_key (root t') key =
             match last_inserted ops key with
             | Some v => Some v
             | None => lookup_key (root t) key
             end.
Proof.
  revert t. induction ops as [|[k v] ops IH]; intros t Hb Hins.
  - injection Hins as <-. done.
  - cbn [insert_all] in Hins. unfold tree_insert in Hins.
    destruct (insert (root t) k v) as [n|] eqn:Hn; [|done].
    cbn [fmap option_fmap option_map mbind option_bind] in Hins.
    destruct (insert_bst _ _ _ _ Hb Hn) as (Hbn & _ & Hlk).
    destruct (IH (mkTree n) Hbn Hins) as [Hbt' Hlk'].
    split; [done|]. intros key. rewrite Hlk'. cbn [last_inserted root].
    destruct (last_inserted ops key); [done|].
    rewrite Hlk. unfold str_eq. by destruct (String.eqb k key).
Qed.

Lemma last_inserted_None ops key :
  last_inserted ops key = None ↔ key ∉ ops.*1.
Proof.
  induction ops as [|[k v] ops IH]; cbn [last_inserted fmap list_fmap].
  - split; [|done]. intros _. apply not_elem_of_nil.
  - rewrite not_elem_of_cons, <- IH. simpl.
    destruct (last_inserted ops key).
    + split; [done|]. by intros [_ ?].
    + destruct (String.eqb_spec k key) as [->|Hne].
      * split; [done|]. by intros [? _].
      * split; [|done]. intros _. split; [congruence|done].
Qed.

Lemma find_null_lookup (node : AVLNode T) key :
  find node key = nullnode ↔ lookup_key node key = None.
Proof. unfold lookup_key. by destruct (find node key). Qed.

Lemma find_key (node : AVLNode T) key :
  find node key = nullnode ∨ key_of (find node key) = Some key.
Proof.
  induction node as [|k v h l IHl r IHr]; [by left|].
  cbn [find]. destruct (str_eq k key) eqn:E.
  - right. apply str_eq_true in E as ->. done.
  - destruct (str_lt key k); auto.
Qed.
End InsertAll.

(** C3.  Balance invariant: after any sequence of inserts into an
    initially empty balanced index, every insert has returned, and at
    every node of the resulting tree the heights of the left and the
    right subtree differ by at most one and the stored height is the
    height of the subtree (it was recomputed bottom-up after every
    change of structure). *)
Theorem C3_balance_invariant {T : Type} (ops : list (string * T)) :
  ∃ t : AVLTree T,
    insert_all ops empty_tree = Some t ∧ balanced (root t).
Proof.
  destruct (insert_all_avl ops (@empty_tree T)) as (t & Ht & Havl); [done|].
  exists t. split; [done|]. by apply avl_balanced.
Qed.

(** C4.  Lookup correctness: after any sequence of inserts into an
    initially empty balanced index, [find] on a key that was inserted
    returns the node of that key holding the value inserted last for it,
    and [find] on a key that was never inserted returns the null
    pointer; a null result never stands for a key that is present,
    whatever its value (an empty posting map included). *)
Theorem C4_lookup_correctness {T : Type} (ops : list (string * T))
    (key : string) :
  ∃ t : AVLTree T,
    insert_all ops empty_tree = Some t
    ∧ value_of (tree_find t key) = last_inserted ops key
    ∧ (tree_find t key = nullnode ↔ key ∉ ops.*1)
    ∧ (key ∈ ops.*1 ↔ key_of (tree_find t key) = Some key).
Proof.
  destruct (insert_all_avl ops (@empty_tree T)) as (t & Ht & _); [done|].
  destruct (insert_all_bst ops empty_tree t) as [_ Hlk]; [done..|].
  specialize (Hlk key). exists t. split; [done|].
  assert (Hv : value_of (tree_find t key) = last_inserted ops key).
  { unfold tree_find. fold (lookup_key (root t) key). rewrite Hlk.
    by destruct (last_inserted ops key). }
  assert (Hn : tree_find t key = nullnode ↔ key ∉ ops.*1).
  { rewrite <- last_inserted_None, <- Hv. unfold tree_find.
    by rewrite find_null_lookup. }
  split_and!; [done..|].
  split.
  - intros Hin. destruct (find_key (root t) key) as [Hnull|Hk]; [|done].
    apply Hn in Hnull. done.
  - intros Hk. destruct (decide (key ∈ ops.*1)) as [|Hnin]; [done|].
    apply Hn in Hnin. by rewrite Hnin in Hk.
Qed.

(** ** Persistence *)

Section LoadFacts.
Variable indet : nat → byte.
Variable can_allocate : Z → bool.

Lemma tree_load_frame (t : AVLTree posting) (s : ifstream) :
  same_but_root_value
    (root t) (root (state_of (tree_load indet can_allocate t s)).1).
Proof.
  unfold tree_load, node_load.
  destruct t as [[|k v h l r]]; cbn [root]; [done|].
  destruct (loadMap indet can_allocate v s) as [[v' s']|[v' s']]; done.
Qed.

Lemma loadFromFile_frame (t : AVLTree posting) (filename : string)
    (fs : filesystem) :
  same_but_root_value
    (root t) (root (state_of (loadFromFile indet can_allocate t filename fs))).
Proof.
  unfold loadFromFile.
  pose proof (tree_load_frame t (open_in fs filename)) as H.
  destruct (tree_load indet can_allocate t (open_in fs filename))
    as [[t' s']|[t' s']]; done.
Qed.

Lemma same_but_root_value_shape {T} (a b : AVLNode T) :
  same_but_root_value a b → shape a = shape b.
Proof.
  destruct a as [|k v h l r], b as [|k' v' h' l' r']; try done.
  intros (-> & -> & -> & ->). done.
Qed.

Lemma same_but_root_value_keys {T} (a b : AVLNode T) :
  same_but_root_value a b → (entries a).*1 = (entries b).*1.
Proof.
  destruct a as [|k v h l r], b as [|k' v' h' l' r']; try done.
  intros (-> & -> & -> & ->). cbn [entries].
  by rewrite !fmap_app, !fmap_cons.
Qed.
End LoadFacts.

(** C9.  Load never creates nodes: [loadFromFile] on an empty tree
    returns and leaves the tree empty, whatever the file system holds;
    on any tree, whether it returns or throws, the tree it leaves has the
    same root key, the same stored height and the very same left and
    right subtrees as before, hence the same key set and the same
    structure; only the value of the root can differ. *)
Theorem C9_load_never_creates_nodes (indet : nat → byte)
    (can_allocate : Z → bool) (t : AVLTree posting) (filename : string)
    (fs : filesystem) :
  loadFromFile indet can_allocate empty_tree filename fs = Returns empty_tree
  ∧ same_but_root_value
      (root t) (root (state_of (loadFromFile indet can_allocate t filename fs)))
  ∧ value_of (root (state_of (loadFromFile indet can_allocate t filename fs)))
    = (λ v, (state_of (loadMap indet can_allocate v (open_in fs filename))).1)
        <$> value_of (root t)
  ∧ shape (root (state_of (loadFromFile indet can_allocate t filename fs)))
    = shape (root t)
  ∧ (entries (root (state_of (loadFromFile indet can_allocate t filename fs)))).*1
    = (entries (root t)).*1.
Proof.
  pose proof (loadFromFile_frame indet can_allocate t filename fs) as H.
  split_and!; [done|done| | |].
  - unfold loadFromFile, tree_load, node_load.
    destruct t as [[|k v h l r]]; cbn [root value_of]; [done|].
    cbn [fmap option_fmap option_map].
    destruct (loadMap indet can_allocate v (open_in fs filename))
      as [[v' s']|[v' s']]; reflexivity.
  - symmetry. by apply same_but_root_value_shape.
  - symmetry. by apply same_but_root_value_keys.
Qed.

(** C10.  Secondary word lookup: for every index state and every word,
    [getOtherFilesByWord] returns the posting map [getFilesByWord]
    returns: the map stored under the word in the word index, or an
    empty map when the word is absent. *)
Theorem C10_other_lookup_is_word_lookup (wm : WordMap) (word : string) :
  getOtherFilesByWord wm word = getFilesByWord wm word
  ∧ getOtherFilesByWord wm word
    = default ∅ (value_of (tree_find (wordIndex wm) word)).
Proof.
  split; [reflexivity|].
  unfold getOtherFilesByWord, getFilesByWord, find_into.
  by destruct (tree_find (wordIndex wm) word).
Qed.

(** ** What [save] writes and what [load] reads back *)

Lemma fold_left_app_flat_map {A B} (f : A → list B) (xs : list A)
    (init : list B) :
  fold_left (λ out x, out ++ f x) xs init = init ++ flat_map f xs.
Proof.
  revert init. induction xs as [|x xs IH]; intros init; simpl.
  - by rewrite app_nil_r.
  - by rewrite IH, <- app_assoc.
Qed.

Lemma length_le_encode (n : nat) (z : Z) : length (le_encode n z) = n.
Proof. revert z. induction n as [|n IH]; intros z; simpl; [done|]. by rewrite IH. Qed.

Lemma saveMap_bytes (m : posting) (out : list byte) :
  saveMap m out =
    out ++ le_encode sizeof_size_t (Z.of_nat (size m))
        ++ flat_map saveMap_pair (map_to_list m).
Proof. unfold saveMap. by rewrite fold_left_app_flat_map, <- app_assoc. Qed.

Lemma one_entry_tree_built :
  insert_all one_entry_ops empty_tree = Some one_entry_tree.
Proof. reflexivity. Qed.

(** After any sequence of inserts, every inserted key is found in the
    index, and is absent from the index that results from saving it and
    loading the file into a fresh index. *)
Lemma roundtrip_loses_every_key (indet : nat → byte)
    (can_allocate : Z → bool) (ops : list (string * posting))
    (filename key : string) (fs : filesystem) :
  key ∈ ops.*1 →
  ∃ t,
    insert_all ops empty_tree = Some t
    ∧ tree_find t key ≠ nullnode
    ∧ tree_find
        (state_of (loadFromFile indet can_allocate empty_tree filename
                                (saveToFile t filename fs))) key
      = nullnode.
Proof.
  intros Hin.
  destruct (insert_all_avl ops (@empty_tree posting)) as (t & Ht & _); [done|].
  destruct (insert_all_bst ops empty_tree t) as [_ Hlk]; [done..|].
  exists t. split_and!; [done| |done].
  unfold tree_find. rewrite find_null_lookup, Hlk.
  destruct (last_inserted ops key) eqn:Hlast; [done|].
  by apply last_inserted_None in Hlast.
Qed.

(** C1.  Persistence round trip, at the index holding the single entry
    ["term"] with posting map [{"doc": 1}]: [find] returns the entry in
    the original index, the saved file holds 23 bytes, and after loading
    that file into a fresh index [find] reports absence for ["term"]. *)
Theorem C1_roundtrip_loses_entries (indet : nat → byte)
    (can_allocate : Z → bool) :
  insert_all one_entry_ops empty_tree = Some one_entry_tree
  ∧ value_of (tree_find one_entry_tree "term") = Some one_posting
  ∧ length (tree_save one_entry_tree []) = 23%nat
  ∧ ∃ t',
      loadFromFile indet can_allocate empty_tree "word.dat"
                   (saveToFile one_entry_tree "word.dat" ∅) = Returns t'
      ∧ tree_find t' "term" = nullnode
      ∧ value_of (tree_find t' "term") ≠ value_of (tree_find one_entry_tree "term").
Proof.
  split_and!; [by vm_compute..|].
  exists empty_tree. split_and!; [by vm_compute..|]. by vm_compute.
Qed.

(** The value [WordMap::load] returns is [true] exactly when none of the
    three per-index loads throws. *)
Lemma WordMap_load_result (indet : nat → byte) (can_allocate : Z → bool)
    (wm : WordMap) (f o n w fr : string) (fs : filesystem) :
  (WordMap_load indet can_allocate wm f o n w fr fs).2 =
    returned (loadFromFile indet can_allocate (orgIndex wm) o fs)
    && returned (loadFromFile indet can_allocate (nameIndex wm) n fs)
    && returned (loadFromFile indet can_allocate (wordIndex wm) w fs).
Proof.
  unfold WordMap_load.
  destruct (loadFromFile indet can_allocate (orgIndex wm) o fs); [|done].
  destruct (loadFromFile indet can_allocate (nameIndex wm) n fs); [|done].
  by destruct (loadFromFile indet can_allocate (wordIndex wm) w fs).
Qed.

(** A per-index load can throw: a non-empty index reading a file whose
    first document-id length cannot be allocated. *)
Lemma loadFromFile_can_throw (indet : nat → byte) :
  returned
    (loadFromFile indet allocate_below_max_size one_entry_tree "org.dat"
                  {[ "org.dat" := corrupt_file ]}) = false.
Proof. by vm_compute. Qed.

(** On freshly constructed indices every load returns at once. *)
Lemma WordMap_load_fresh (indet : nat → byte) (can_allocate : Z → bool)
    (f o n w fr : string) (fs : filesystem) :
  WordMap_load indet can_allocate empty_WordMap f o n w fr fs
  = (empty_WordMap, true).
Proof. reflexivity. Qed.

(** So the constructor never rebuilds: it ends with the empty index set
    and writes nothing, whatever the corpus and the files are. *)
Lemma SearchEngine_new_never_builds (more_stopwords : list string)
    (indet : nat → byte) (can_allocate : Z → bool) (corpus : list document)
    (f o n w fr : string) (fs : filesystem) :
  SearchEngine_new more_stopwords indet can_allocate corpus f o n w fr fs
  = Some (empty_WordMap, fs).
Proof. reflexivity. Qed.

(** C2.  Index-manager load, as the constructor calls it (on the freshly
    constructed index set) with none of the index files present: it
    returns [true] and leaves the three indices empty. *)
Theorem C2_load_succeeds_without_files (indet : nat → byte)
    (can_allocate : Z → bool) :
  WordMap_load indet can_allocate empty_WordMap
               "index.dat" "org.dat" "name.dat" "word.dat" "freq.dat" ∅
  = (empty_WordMap, true).
Proof. reflexivity. Qed.



(** What [save] writes for a non-empty index is what [AVLNode::save]
    writes for the root, which is what [saveMap] writes for its posting
    map. *)
Lemma tree_save_root (k : string) (m : posting) (h : Z)
    (l r : AVLNode posting) (out : list byte) :
  tree_save (mkTree (Node k m h l r)) out = node_save m out
  ∧ node_save m out = saveMap m out.
Proof. split; reflexivity. Qed.


(** ** Query parsing *)

Lemma append_cons (c : ascii) (s t : string) :
  String c s +:+ t = String c (s +:+ t).
Proof. reflexivity. Qed.

Lemma append_nil_l (t : string) : "" +:+ t = t.
Proof. reflexivity. Qed.

(** [simpl], and the steps of [+:+] that it is told to leave alone. *)
Ltac str_simpl := simpl; rewrite ?append_cons, ?append_nil_l.

Lemma append_nil_r (s : string) : s +:+ "" = s.
Proof. induction s as [|c s IH]; str_simpl; [done|]. by rewrite IH. Qed.

Lemma append_assoc (a b c : string) : (a +:+ b) +:+ c = a +:+ (b +:+ c).
Proof. induction a as [|x a IH]; str_simpl; [done|]. by rewrite IH. Qed.

(** Reading on from inside a token: the rest of the token is what
    [read_word] takes, and splitting goes on after it. *)
Lemma split_ws_read_word (s cur : string) :
  String.eqb (cur +:+ (read_word s).1) "" = false →
  split_ws s cur = (cur +:+ (read_word s).1) :: split_ws (read_word s).2 "".
Proof.
  revert cur. induction s as [|c s IH]; intros cur; simpl.
  - rewrite append_nil_r. by intros ->.
  - destruct (is_space c) eqn:Hc.
    + simpl. rewrite append_nil_r. intros ->. simpl. by rewrite Hc.
    + destruct (read_word s) as [w rest] eqn:Hrw. simpl in *.
      intros Hne. rewrite IH.
      * by rewrite append_assoc.
      * by rewrite append_assoc.
Qed.

Lemma split_ws_skip (s : string) : split_ws s "" = split_ws (skip_ws s) "".
Proof.
  induction s as [|c s IH]; simpl; [done|].
  destruct (is_space c) eqn:Hc; simpl; [done|]. by rewrite Hc.
Qed.

Lemma length_skip_ws (s : string) :
  (String.length (skip_ws s) ≤ String.length s)%nat.
Proof.
  induction s as [|c s IH]; simpl; [done|].
  destruct (is_space c); simpl; lia.
Qed.

Lemma length_read_word (s : string) :
  (String.length (read_word s).2 ≤ String.length s)%nat.
Proof.
  induction s as [|c s IH]; simpl; [done|].
  destruct (is_space c); simpl; [done|].
  destruct (read_word s); simpl in *. lia.
Qed.

(** One extraction: it fails exactly when no token is left, and
    otherwise yields the first token and a strictly shorter stream. *)
Lemma extract_spec (iss : string) :
  match extract iss with
  | None => split_ws iss "" = []
  | Some (term, iss') =>
      split_ws iss "" = term :: split_ws iss' ""
      ∧ (String.length iss' < String.length iss)%nat
  end.
Proof.
  unfold extract. rewrite (split_ws_skip iss).
  pose proof (length_skip_ws iss) as Hlen.
  destruct (skip_ws iss) as [|c s] eqn:Hs; [done|].
  assert (Hc : is_space c = false).
  { clear Hlen. induction iss as [|c' iss IH]; simpl in Hs; [done|].
    destruct (is_space c') eqn:Hc'; [auto|]. by injection Hs as -> ->. }
  destruct (read_word (String c s)) as [term iss'] eqn:Hrw.
  split.
  - rewrite (split_ws_read_word (String c s) "").
    + by rewrite Hrw.
    + rewrite Hrw. simpl in Hrw. rewrite Hc in Hrw.
      destruct (read_word s). by injection Hrw as <- <-.
  - pose proof (length_read_word s) as Hrest.
    simpl in Hrw. rewrite Hc in Hrw.
    destruct (read_word s) as [w rest]. injection Hrw as <- <-.
    simpl in *. lia.
Qed.

Section ParseFacts.
Variable more_stopwords : list string.

(** The loop is the fold of its body over the tokens, as soon as the
    bound covers the length of the stream. *)
Lemma parse_loop_fold (fuel : nat) (iss : string) (terms : gset string) :
  (String.length iss ≤ fuel)%nat →
  parse_loop more_stopwords fuel iss terms =
    fold_left (λ acc term, parse_term more_stopwords term acc)
              (split_ws iss "") terms.
Proof.
  revert iss terms. induction fuel as [|fuel IH]; intros iss terms Hlen.
  - destruct iss; [done|simpl in Hlen; lia].
  - cbn [parse_loop]. pose proof (extract_spec iss) as Hex.
    destruct (extract iss) as [[term iss']|].
    + destruct Hex as [-> Hlt]. cbn [fold_left]. apply IH. lia.
    + by rewrite Hex.
Qed.

(** A larger bound changes nothing: the loop has ended by itself. *)
Lemma parse_loop_enough (fuel : nat) (q : string) :
  (String.length q ≤ fuel)%nat →
  parse_loop more_stopwords fuel q ∅ = parse more_stopwords q.
Proof.
  intros H. unfold parse. by rewrite !parse_loop_fold.
Qed.

Lemma starts_with_dash (token : string) :
  starts_with "-" token = Ascii.eqb (char_at token 0) "-".
Proof.
  destruct token as [|c s]; [done|].
  unfold starts_with, char_at. cbn [String.prefix String.get].
  destruct (ascii_dec "-" c) as [<-|Hne].
  - by destruct s.
  - apply Ascii.eqb_neq in Hne as Hne'. rewrite Ascii.eqb_sym in Hne'.
    by rewrite Hne'.
Qed.

Lemma parse_term_classify (term : string) (terms : gset string) :
  parse_term more_stopwords term terms =
    match classify more_stopwords (tolower term) with
    | Some x => {[ x ]} ∪ terms
    | None => terms
    end.
Proof.
  unfold parse_term, classify. rewrite starts_with_dash.
  destruct (starts_with "org:" (tolower term)
            || starts_with "person:" (tolower term)); [done|].
  destruct (Ascii.eqb (char_at (tolower term) 0) "-").
  - by destruct (processWord more_stopwords _).
  - by destruct (processWord more_stopwords (tolower term)).
Qed.

Lemma fold_parse_term (tokens : list string) (terms : gset string) :
  fold_left (λ acc term, parse_term more_stopwords term acc) tokens terms =
    list_to_set (omap (classify more_stopwords) (tolower <$> tokens)) ∪ terms.
Proof.
  revert terms. induction tokens as [|t tokens IH]; intros terms.
  - cbn. by rewrite (left_id_L ∅ (∪)).
  - cbn [fold_left fmap list_fmap omap list_omap]. rewrite IH.
    rewrite parse_term_classify.
    destruct (classify more_stopwords (tolower t)) as [x|];
      cbn [list_to_set]; [|done].
    rewrite (assoc_L (∪)). f_equal. apply (comm_L (∪)).
Qed.

Lemma parse_refines_spec (q : string) :
  parse more_stopwords q = parse_spec more_stopwords q.
Proof.
  unfold parse, parse_spec. rewrite parse_loop_fold by done.
  rewrite fold_parse_term. by rewrite (right_id_L ∅ (∪)).
Qed.

(** Splitting a query made of two parts with white space between them. *)
Lemma split_ws_app (a b cur : string) (c : ascii) :
  is_space c = true →
  split_ws (a +:+ String c b) cur = split_ws a cur ++ split_ws b "".
Proof.
  intros Hc. revert cur. induction a as [|x a IH]; intros cur; str_simpl.
  - simpl. rewrite Hc. by destruct (String.eqb cur "").
  - destruct (is_space x).
    + by rewrite IH, app_assoc.
    + apply IH.
Qed.

Lemma parse_spec_app (a b : string) (c : ascii) :
  is_space c = true →
  parse_spec more_stopwords (a +:+ String c b) =
    parse_spec more_stopwords a ∪ parse_spec more_stopwords b.
Proof.
  intros Hc. unfold parse_spec.
  rewrite split_ws_app by done.
  rewrite fmap_app, omap_app, list_to_set_app_L. done.
Qed.
End ParseFacts.

(** C6.  Query parsing: for every query string the loop of [parse] ends
    within its bound and its result is the set of the terms that the
    white-space separated tokens of the query, case-folded, contribute:
    a token starting with "org:" or "person:" itself; a token starting
    with "-" the term "-" followed by [processWord] of the remainder,
    when that is non-empty; any other token its [processWord], when
    non-empty.  The result being a set, a query followed by white space
    and the same query again parses to the same terms. *)
Theorem C6_parse (more_stopwords : list string) (q : string) :
  parse more_stopwords q =
    list_to_set (omap (classify more_stopwords) (tolower <$> split_ws q ""))
  ∧ (∀ term, term ∈ parse more_stopwords q ↔
       ∃ token, token ∈ split_ws q ""
                ∧ classify more_stopwords (tolower token) = Some term)
  ∧ (∀ fuel, (String.length q ≤ fuel)%nat →
       parse_loop more_stopwords fuel q ∅ = parse more_stopwords q)
  ∧ parse more_stopwords (q +:+ " " +:+ q) = parse more_stopwords q.
Proof.
  split_and!.
  - apply parse_refines_spec.
  - intros term. rewrite parse_refines_spec. unfold parse_spec.
    rewrite elem_of_list_to_set, list_elem_of_omap. split.
    + intros (x & Hx & Hc). apply list_elem_of_fmap in Hx as (token & -> & Ht).
      eauto.
    + intros (token & Ht & Hc). exists (tolower token). split; [|done].
      apply list_elem_of_fmap. eauto.
  - intros fuel. apply parse_loop_enough.
  - rewrite !parse_refines_spec.
    change (q +:+ " " +:+ q) with (q +:+ String " " q).
    rewrite parse_spec_app by done. by rewrite (idemp_L (∪)).
Qed.

(** ** Strings: lengths, suffixes, letter case *)

Lemma length_append (a b : string) :
  String.length (a +:+ b) = (String.length a + String.length b)%nat.
Proof. induction a as [|c a IH]; str_simpl; [done|]. simpl. by rewrite IH. Qed.

Lemma length_substr (s : string) (n m : nat) :
  (n + m ≤ String.length s)%nat → String.length (substr s n m) = m.
Proof.
  unfold substr. revert n m. induction s as [|c s IH]; intros [|n] [|m]; simpl;
    try done; try lia.
  - intros H. rewrite (IH 0%nat m); [done|lia].
  - intros H. rewrite (IH n 0%nat); [done|lia].
  - intros H. rewrite (IH n (S m)); [done|lia].
Qed.

Lemma substr_split (s : string) (n : nat) :
  (n ≤ String.length s)%nat →
  s = substr s 0 n +:+ substr s n (String.length s - n).
Proof.
  unfold substr. revert n. induction s as [|c s IH]; intros [|n]; simpl;
    try done; try lia.
  - intros _. rewrite append_nil_l. f_equal.
    clear IH. induction s as [|c' s IH]; simpl; [done|]. by f_equal.
  - intros H. rewrite append_cons. f_equal. apply IH. lia.
Qed.

Lemma substr_append_r (p t : string) :
  substr (p +:+ t) (String.length p) (String.length t) = t.
Proof.
  unfold substr. induction p as [|c p IH]; str_simpl.
  - induction t as [|c t IH]; simpl; [done|]. by f_equal.
  - simpl. apply IH.
Qed.

Lemma substr_append_l (p t : string) :
  substr (p +:+ t) 0 (String.length p) = p.
Proof.
  unfold substr. induction p as [|c p IH]; str_simpl.
  - by destruct t.
  - simpl. by f_equal.
Qed.

(** [endsWith] holds exactly of the strings that are a prefix followed
    by the suffix. *)
Lemma endsWith_spec (str suffix : string) :
  endsWith str suffix = true ↔ ∃ p, str = p +:+ suffix.
Proof.
  unfold endsWith. split.
  - destruct (String.length str <? String.length suffix)%nat eqn:Hlen; [done|].
    apply Nat.ltb_ge in Hlen. intros Heq%String.eqb_eq.
    exists (substr str 0 (String.length str - String.length suffix)).
    pose proof (substr_split str (String.length str - String.length suffix))
      as Hs.
    replace (String.length str - (String.length str - String.length suffix))%nat
      with (String.length suffix) in Hs by lia.
    rewrite Heq in Hs. apply Hs. lia.
  - intros [p ->]. rewrite length_append.
    destruct (_ <? _)%nat eqn:Hlen; [apply Nat.ltb_lt in Hlen; lia|].
    replace (String.length p + String.length suffix - String.length suffix)%nat
      with (String.length p) by lia.
    rewrite substr_append_r. apply String.eqb_refl.
Qed.

Lemma endsWith_length (str suffix : string) :
  endsWith str suffix = true → (String.length suffix ≤ String.length str)%nat.
Proof. intros [p ->]%endsWith_spec. rewrite length_append. lia. Qed.


(** Letter case. *)

Lemma tolower_char_not_upper (c : ascii) : is_upper (tolower_char c) = false.
Proof. by destruct c as [[] [] [] [] [] [] [] []]. Qed.

Lemma tolower_char_id (c : ascii) : is_upper c = false → tolower_char c = c.
Proof. unfold tolower_char, is_upper. by intros ->. Qed.

Lemma has_upper_tolower (s : string) : has_upper (tolower s) = false.
Proof.
  induction s as [|c s IH]; simpl; [done|].
  by rewrite tolower_char_not_upper, IH.
Qed.

Lemma tolower_id (s : string) : has_upper s = false → tolower s = s.
Proof.
  induction s as [|c s IH]; simpl; [done|].
  intros [Hc Hs]%orb_false_iff. by rewrite tolower_char_id, IH.
Qed.

Lemma length_tolower (s : string) : String.length (tolower s) = String.length s.
Proof. induction s as [|c s IH]; simpl; [done|]. by rewrite IH. Qed.

Lemma has_upper_append (a b : string) :
  has_upper (a +:+ b) = has_upper a || has_upper b.
Proof.
  induction a as [|c a IH]; str_simpl; [done|].
  simpl. by rewrite IH, orb_assoc.
Qed.

Lemma has_upper_substr (s : string) (n m : nat) :
  has_upper s = false → has_upper (substr s n m) = false.
Proof.
  unfold substr. revert n m.
  induction s as [|c s IH]; intros [|n] [|m]; simpl; try done.
  - intros [Hc Hs]%orb_false_iff. rewrite Hc. by apply IH.
  - intros [Hc Hs]%orb_false_iff. by apply IH.
  - intros [Hc Hs]%orb_false_iff. by apply IH.
Qed.

Lemma length_pop_back (s : string) :
  String.length (pop_back s) = (String.length s - 1)%nat.
Proof. unfold pop_back. apply length_substr. lia. Qed.

Lemma length_replaceSuffix (str suffix replacement : string) :
  String.length (replaceSuffix str suffix replacement) = String.length str
  ∨ ((String.length suffix ≤ String.length str)%nat
     ∧ String.length (replaceSuffix str suffix replacement)
       = (String.length str - String.length suffix
          + String.length replacement)%nat).
Proof.
  unfold replaceSuffix.
  destruct (String.length suffix <=? String.length str)%nat eqn:Hlen;
    [|by left].
  apply Nat.leb_le in Hlen. cbn [andb].
  destruct (String.eqb _ suffix); [|by left].
  right. split; [done|]. rewrite length_append, length_substr; lia.
Qed.

Lemma has_upper_replaceSuffix (str suffix replacement : string) :
  has_upper str = false → has_upper replacement = false →
  has_upper (replaceSuffix str suffix replacement) = false.
Proof.
  intros Hs Hr. unfold replaceSuffix.
  destruct (_ && _); [|done].
  by rewrite has_upper_append, has_upper_substr, Hr.
Qed.

Lemma hasVowel_nonempty (s : string) :
  hasVowel s = true → (1 ≤ String.length s)%nat.
Proof. unfold hasVowel. destruct (String.length s); [done|lia]. Qed.

(** ** The stemmer *)




Lemma stem_short (w : string) : (String.length w ≤ 2)%nat → stem w = w.
Proof. intros H. unfold stem. apply Nat.leb_le in H. by rewrite H. Qed.

Lemma stem_long (w : string) :
  (2 < String.length w)%nat → stem w = step1c (step1b (step1a (tolower w))).
Proof. intros H. unfold stem. apply Nat.leb_gt in H. by rewrite H. Qed.


Lemma has_upper_step1a (x : string) :
  has_upper x = false → has_upper (step1a x) = false.
Proof.
  intros H. unfold step1a, pop_back.
  destruct (endsWith x "sses"); [by apply has_upper_replaceSuffix|].
  destruct (endsWith x "ies"); [by apply has_upper_replaceSuffix|].
  destruct (endsWith x "ss"); [done|].
  destruct (endsWith x "s"); [by apply has_upper_substr|done].
Qed.

Lemma has_upper_step1b_fixup (x : string) :
  has_upper x = false → has_upper (step1b_fixup x) = false.
Proof.
  intros H. unfold step1b_fixup, pop_back.
  destruct (_ || _); [by rewrite has_upper_append, H|].
  destruct (_ && _); [by apply has_upper_substr|].
  destruct (_ && _); [by rewrite has_upper_append, H|done].
Qed.

Lemma has_upper_step1b (x : string) :
  has_upper x = false → has_upper (step1b x) = false.
Proof.
  intros H. unfold step1b.
  destruct (endsWith x "eed").
  - destruct (0 <? _); [by apply has_upper_replaceSuffix|done].
  - destruct (_ || _); [|done].
    apply has_upper_step1b_fixup.
    destruct (endsWith x "ed"); by apply has_upper_replaceSuffix.
Qed.

Lemma has_upper_step1c (x : string) :
  has_upper x = false → has_upper (step1c x) = false.
Proof.
  intros H. unfold step1c. destruct (_ && _); [|done].
  by rewrite has_upper_append, has_upper_substr.
Qed.

(** The stem of a word of more than two characters is in lower case. *)
Lemma has_upper_stem (w : string) :
  (2 < String.length w)%nat → has_upper (stem w) = false.
Proof.
  intros H. rewrite stem_long by done.
  apply has_upper_step1c, has_upper_step1b, has_upper_step1a,
    has_upper_tolower.
Qed.

Lemma stem_tolower (w : string) :
  (2 < String.length w)%nat → stem w = stem (tolower w).
Proof.
  intros H. rewrite !stem_long by (by rewrite ?length_tolower).
  by rewrite (tolower_id (tolower w)) by apply has_upper_tolower.
Qed.



(** The word of the design document: "running" stems to "run", and
    "run" to itself. *)
Example stem_running : stem "running" = "run" ∧ stem "run" = "run".
Proof. split; vm_compute; reflexivity. Qed.


(** The stem of a word is never empty. *)

Lemma length_step1a (x : string) :
  (3 ≤ String.length x)%nat → (1 ≤ String.length (step1a x))%nat.
Proof.
  intros H. unfold step1a.
  destruct (endsWith x "sses") eqn:H1.
  { apply endsWith_length in H1. simpl in H1.
    destruct (length_replaceSuffix x "sses" "ss") as [->|[_ ->]]; simpl; lia. }
  destruct (endsWith x "ies") eqn:H2.
  { destruct (length_replaceSuffix x "ies" "i") as [->|[_ ->]]; simpl; lia. }
  destruct (endsWith x "ss"); [lia|].
  destruct (endsWith x "s"); [|lia].
  rewrite length_pop_back. lia.
Qed.

Lemma length_step1b_fixup (x : string) :
  (1 ≤ String.length x)%nat → (1 ≤ String.length (step1b_fixup x))%nat.
Proof.
  intros H. unfold step1b_fixup.
  destruct (_ || _); [rewrite length_append; lia|].
  destruct (endsWithDoubleConsonant x && negb (endsWith x "l")
            && negb (endsWith x "s") && negb (endsWith x "z")) eqn:Hd.
  - rewrite length_pop_back.
    apply andb_true_iff in Hd as [Hd _]. apply andb_true_iff in Hd as [Hd _].
    apply andb_true_iff in Hd as [Hd _].
    unfold endsWithDoubleConsonant in Hd.
    destruct (String.length x <? 2)%nat eqn:Hlen; [done|].
    apply Nat.ltb_ge in Hlen. lia.
  - destruct ((measureConsecutiveVC x =? 1) && endsWithCVC x);
      [rewrite length_append|]; lia.
Qed.

Lemma length_step1b (x : string) :
  (1 ≤ String.length x)%nat → (1 ≤ String.length (step1b x))%nat.
Proof.
  intros H. unfold step1b.
  destruct (endsWith x "eed") eqn:Heed.
  { apply endsWith_length in Heed. simpl in Heed.
    destruct (0 <? _); [|lia].
    destruct (length_replaceSuffix x "eed" "ee") as [->|[_ ->]]; simpl; lia. }
  destruct (endsWith x "ed") eqn:Hed; cbn [andb].
  - destruct (hasVowel (substr x 0 (String.length x - 2))
              || endsWith x "ing" && _) eqn:Hcond; [|lia].
    apply length_step1b_fixup.
    apply endsWith_length in Hed. simpl in Hed.
    assert (3 ≤ String.length x)%nat.
    { apply orb_true_iff in Hcond as [Hv|[Hing _]%andb_true_iff].
      - apply hasVowel_nonempty in Hv. rewrite length_substr in Hv; lia.
      - apply endsWith_length in Hing. simpl in Hing. lia. }
    destruct (length_replaceSuffix x "ed" "") as [->|[_ ->]]; simpl; lia.
  - cbn [orb]. destruct (endsWith x "ing") eqn:Hing; cbn [andb]; [|lia].
    destruct (hasVowel _) eqn:Hv; [|lia].
    apply length_step1b_fixup.
    apply endsWith_length in Hing. simpl in Hing.
    apply hasVowel_nonempty in Hv. rewrite length_substr in Hv by lia.
    destruct (length_replaceSuffix x "ing" "") as [->|[_ ->]]; simpl; lia.
Qed.

Lemma length_step1c (x : string) :
  (1 ≤ String.length x)%nat → (1 ≤ String.length (step1c x))%nat.
Proof.
  intros H. unfold step1c. destruct (_ && _); [|lia].
  rewrite length_append. simpl. lia.
Qed.

Lemma stem_nonempty (w : string) : w ≠ "" → stem w ≠ "".
Proof.
  intros Hw. destruct (decide (String.length w ≤ 2)%nat) as [Hshort|Hlong].
  - by rewrite stem_short.
  - rewrite stem_long by lia.
    assert (1 ≤ String.length (step1c (step1b (step1a (tolower w)))))%nat
      as Hlen.
    { apply length_step1c, length_step1b, length_step1a.
      rewrite length_tolower. lia. }
    intros Heq. rewrite Heq in Hlen. simpl in Hlen. lia.
Qed.

(** ** The index manager and ingestion *)

Lemma find_into_default (idx : AVLTree posting) (term : string) :
  (let '(found, files) := find_into idx term ∅ in
   if found then files else ∅)
  = default ∅ (lookup_key (root idx) term).
Proof.
  unfold find_into, lookup_key, tree_find.
  by destruct (find (root idx) term).
Qed.

Lemma getFilesByWord_lookup (wm : WordMap) (word : string) :
  getFilesByWord wm word
  = default ∅ (lookup_key (root (wordIndex wm)) word).
Proof.
  unfold getFilesByWord, find_into, lookup_key, tree_find.
  by destruct (find (root (wordIndex wm)) word).
Qed.

(** One association on a well-formed index: it returns, the index stays
    well formed, the term now maps to its old posting map with the count
    of the file incremented, and the other terms are as before. *)
Lemma associate_spec (idx : AVLTree posting) (term filepath : string) :
  wf_index idx →
  ∃ idx',
    associate idx term filepath = Some idx' ∧ wf_index idx'
    ∧ ∀ key, lookup_key (root idx') key =
               if str_eq term key
               then Some (increment (default ∅ (lookup_key (root idx) term))
                                    filepath)
               else lookup_key (root idx) key.
Proof.
  intros [Havl Hbst]. unfold associate.
  pose proof (find_into_default idx term) as Hfiles.
  destruct (find_into idx term ∅) as [found files]. rewrite Hfiles.
  unfold tree_insert.
  destruct (insert_avl (root idx) term
              (increment (default ∅ (lookup_key (root idx) term)) filepath)
              Havl) as (n' & Hins & Havl' & _).
  rewrite Hins. cbn [fmap option_fmap option_map].
  destruct (insert_bst _ _ _ _ Hbst Hins) as (Hbst' & _ & Hlk).
  exists (mkTree n'). split_and!; done.
Qed.

Lemma increment_has_file (files : posting) (filepath : string) :
  filepath ∈ dom (increment files filepath).
Proof.
  unfold increment. rewrite dom_insert_L.
  apply elem_of_union_l, elem_of_singleton. done.
Qed.

Section Ingestion.
Variable more_stopwords : list string.
Variable file : string.

Lemma associateOrg_wf (wm : WordMap) (org : string) :
  wf_WordMap wm → ∃ wm', associateOrg wm org file = Some wm' ∧ wf_WordMap wm'.
Proof.
  intros (Ho & Hn & Hw). unfold associateOrg.
  destruct (associate_spec (orgIndex wm) org file Ho) as (idx & -> & Hidx & _).
  eexists; split; [done|]. by split_and!.
Qed.

Lemma associateName_wf (wm : WordMap) (name : string) :
  wf_WordMap wm → ∃ wm', associateName wm name file = Some wm' ∧ wf_WordMap wm'.
Proof.
  intros (Ho & Hn & Hw). unfold associateName.
  destruct (associate_spec (nameIndex wm) name file Hn) as (idx & -> & Hidx & _).
  eexists; split; [done|]. by split_and!.
Qed.

Lemma for_each_wf {A} (body : WordMap → A → option WordMap) (xs : list A)
    (wm : WordMap) :
  (∀ wm x, wf_WordMap wm → ∃ wm', body wm x = Some wm' ∧ wf_WordMap wm') →
  wf_WordMap wm →
  ∃ wm', for_each body xs wm = Some wm' ∧ wf_WordMap wm'.
Proof.
  intros Hbody. revert wm. induction xs as [|x xs IH]; intros wm Hwf.
  - by exists wm.
  - cbn [for_each]. destruct (Hbody wm x Hwf) as (wm1 & -> & Hwf1).
    cbn [mbind option_bind]. by apply IH.
Qed.

(** One body word: the index set stays well formed, the file stays in
    every posting map it was in, and it is in the posting map of the
    processed word when that is not empty. *)
Lemma word_body_spec (wm : WordMap) (word : string) :
  wf_WordMap wm →
  ∃ wm',
    word_body more_stopwords file wm word = Some wm' ∧ wf_WordMap wm'
    ∧ (∀ key, file ∈ dom (getFilesByWord wm key) →
              file ∈ dom (getFilesByWord wm' key))
    ∧ (processWord more_stopwords word ≠ "" →
       file ∈ dom (getFilesByWord wm' (processWord more_stopwords word))).
Proof.
  intros (Ho & Hn & Hw). unfold word_body.
  destruct (String.eqb_spec (processWord more_stopwords word) "") as [->|Hne];
    cbn [negb].
  - exists wm. split_and!; done.
  - unfold associateWord.
    apply String.eqb_neq in Hne as Hne'. rewrite Hne'.
    destruct (associate_spec (wordIndex wm) (processWord more_stopwords word)
                file Hw) as (idx & -> & Hidx & Hlk).
    eexists; split; [done|]. split_and!; [done..| |].
    + intros key. rewrite !getFilesByWord_lookup. cbn [wordIndex].
      rewrite Hlk. destruct (str_eq _ key) eqn:E; [|done].
      intros _. apply increment_has_file.
    + intros _. rewrite getFilesByWord_lookup. cbn [wordIndex].
      rewrite Hlk. unfold str_eq. rewrite String.eqb_refl.
      apply increment_has_file.
Qed.

Lemma word_loop_spec (words : list string) (wm : WordMap) :
  wf_WordMap wm →
  ∃ wm',
    for_each (word_body more_stopwords file) words wm = Some wm'
    ∧ wf_WordMap wm'
    ∧ (∀ key, file ∈ dom (getFilesByWord wm key) →
              file ∈ dom (getFilesByWord wm' key))
    ∧ (∀ word, word ∈ words → processWord more_stopwords word ≠ "" →
       file ∈ dom (getFilesByWord wm' (processWord more_stopwords word))).
Proof.
  revert wm. induction words as [|w words IH]; intros wm Hwf.
  - exists wm. split_and!; [done..|]. intros word Hin.
    by apply elem_of_nil in Hin.
  - cbn [for_each].
    destruct (word_body_spec wm w Hwf) as (wm1 & -> & Hwf1 & Hkeep1 & Hnew1).
    cbn [mbind option_bind].
    destruct (IH wm1 Hwf1) as (wm' & -> & Hwf' & Hkeep & Hnew).
    exists wm'. split_and!; [done..|auto|].
    intros word [->|Hin]%elem_of_cons Hne; auto.
Qed.
End Ingestion.

(** Ingesting one document into a well-formed index set returns, and the
    document is then in the posting map of the processed form of each of
    its body words that [processWord] does not drop. *)
Lemma index_document_spec (more_stopwords : list string) (wm : WordMap)
    (doc : document) :
  wf_WordMap wm →
  ∃ wm',
    index_document more_stopwords wm doc = Some wm' ∧ wf_WordMap wm'
    ∧ ∀ word, word ∈ bodyWords doc →
        processWord more_stopwords word ≠ "" →
        filePath doc
          ∈ dom (getFilesByWord wm' (processWord more_stopwords word)).
Proof.
  intros Hwf. unfold index_document.
  destruct (for_each_wf
              (λ wm word, associateOrg wm (tolower word) (filePath doc))
              (organizations doc) wm) as (wm1 & -> & Hwf1); [|done|].
  { intros wm0 x. apply associateOrg_wf. }
  cbn [mbind option_bind].
  destruct (for_each_wf
              (λ wm word, associateName wm (tolower word) (filePath doc))
              (persons doc) wm1) as (wm2 & -> & Hwf2); [|done|].
  { intros wm0 x. apply associateName_wf. }
  cbn [mbind option_bind].
  destruct (word_loop_spec more_stopwords (filePath doc) (bodyWords doc)
              wm2 Hwf2) as (wm' & Hloop & Hwf' & _ & Hnew).
  exists wm'. split_and!; done.
Qed.

(** ** Stopwords and letter case *)

Lemma isStopword_upper (more_stopwords : list string) (w : string) :
  stopwords_lowercase more_stopwords = true →
  has_upper w = true →
  isStopword more_stopwords w = false.
Proof.
  intros Hlow Hup. unfold isStopword. apply bool_decide_eq_false.
  unfold stopwords. rewrite elem_of_list_to_set. intros Hin.
  unfold stopwords_lowercase in Hlow. rewrite forallb_forall in Hlow.
  apply list_elem_of_In in Hin. apply Hlow in Hin.
  cbn beta in Hin. rewrite Hup in Hin. done.
Qed.

(** C8 fails as stated: "An" has an upper-case letter and its lower-case
    form is a stopword, yet [processWord] returns it as it is, upper-case
    letter included, and not the stem of its lower-case form. *)
Lemma C8_lowercased_counterexample :
  stopwords_lowercase [] = true
  ∧ isStopword [] (tolower "An") = true
  ∧ has_upper "An" = true
  ∧ processWord [] "An" = "An"
  ∧ has_upper (processWord [] "An") = true
  ∧ processWord [] "An" ≠ stem (tolower "An").
Proof. split_and!; [vm_compute; reflexivity..|vm_compute; discriminate]. Qed.

(** C8, amended.  Case-sensitive stopword elision: when no stopword has
    an upper-case letter, for every input that has one and whose
    lower-case form is a stopword, [processWord] does not take the input
    for a stopword and returns its stem, which is not empty: for an input
    of more than two characters that is the stem of the lower-case form,
    free of upper-case letters; an input of at most two characters is
    returned as it is.  Ingesting a document whose body words include
    such an input returns with the document in the posting map of that
    result. *)
Theorem C8_uppercase_stopword_is_indexed (more_stopwords : list string)
    (w : string) :
  stopwords_lowercase more_stopwords = true →
  isStopword more_stopwords (tolower w) = true →
  has_upper w = true →
  isStopword more_stopwords w = false
  ∧ processWord more_stopwords w = stem w
  ∧ processWord more_stopwords w ≠ ""
  ∧ ((2 < String.length w)%nat →
     processWord more_stopwords w = stem (tolower w)
     ∧ has_upper (processWord more_stopwords w) = false)
  ∧ ((String.length w ≤ 2)%nat → processWord more_stopwords w = w)
  ∧ ∀ (wm : WordMap) (doc : document),
      wf_WordMap wm → w ∈ bodyWords doc →
      ∃ wm',
        index_document more_stopwords wm doc = Some wm'
        ∧ filePath doc
            ∈ dom (getFilesByWord wm' (processWord more_stopwords w)).
Proof.
  intros Hlow Hstop Hup.
  pose proof (isStopword_upper more_stopwords w Hlow Hup) as Hnot.
  assert (Hpw : processWord more_stopwords w = stem w).
  { unfold processWord. by rewrite Hnot. }
  assert (Hne : processWord more_stopwords w ≠ "").
  { rewrite Hpw. apply stem_nonempty. intros ->. done. }
  split_and!; [done..| | |].
  - intros Hlen. rewrite Hpw. split.
    + by apply stem_tolower.
    + by apply has_upper_stem.
  - intros Hlen. rewrite Hpw. by apply stem_short.
  - intros wm doc Hwf Hin.
    destruct (index_document_spec more_stopwords wm doc Hwf)
      as (wm' & Hidx & _ & Hnew).
    exists wm'. split; [done|]. by apply Hnew.
Qed.

(** C8, amended, at the input "The" with "the" among the stopwords. *)
Lemma C8_uppercase_stopword_witness :
  stopwords_lowercase ["the"] = true
  ∧ isStopword ["the"] (tolower "The") = true
  ∧ has_upper "The" = true
  ∧ (isStopword ["the"] "The" = false
     ∧ processWord ["the"] "The" = stem "The"
     ∧ processWord ["the"] "The" ≠ ""
     ∧ ((2 < String.length "The")%nat →
        processWord ["the"] "The" = stem (tolower "The")
        ∧ has_upper (processWord ["the"] "The") = false)
     ∧ ((String.length "The" ≤ 2)%nat → processWord ["the"] "The" = "The")
     ∧ ∀ (wm : WordMap) (doc : document),
         wf_WordMap wm → "The" ∈ bodyWords doc →
         ∃ wm',
           index_document ["the"] wm doc = Some wm'
           ∧ filePath doc ∈ dom (getFilesByWord wm' (processWord ["the"] "The"))).
Proof.
  split; [vm_compute; reflexivity|].
  split; [vm_compute; reflexivity|].
  split; [vm_compute; reflexivity|].
  apply (C8_uppercase_stopword_is_indexed ["the"] "The");
    vm_compute; reflexivity.
Defined.

(** The word "The" of a document is indexed under "the". *)
Example the_is_indexed :
  processWord ["the"] "The" = "the"
  ∧ ∃ wm',
      index_document ["the"] empty_WordMap the_document = Some wm'
      ∧ getFilesByWord wm' "the" = {[ "a.json" := 1 ]}.
Proof.
  split; [vm_compute; reflexivity|].
  eexists. split; vm_compute; reflexivity.
Qed.

(** ** A posting map survives [saveMap] followed by [loadMap] *)

Lemma byte_of_Z_value (z : Z) : Z.of_N (Byte.to_N (byte_of_Z z)) = z mod 256.
Proof.
  unfold byte_of_Z.
  pose proof (Z.mod_pos_bound z 256 ltac:(lia)) as Hb.
  destruct (Byte.of_N (Z.to_N (z mod 256))) as [b|] eqn:Hof.
  - apply Byte.to_of_N in Hof. rewrite Hof. lia.
  - apply Byte.of_N_None_iff in Hof. lia.
Qed.

Lemma le_decode_encode (n : nat) (z : Z) :
  le_decode (le_encode n z) = z mod 2 ^ (8 * Z.of_nat n).
Proof.
  revert z. induction n as [|n IH]; intros z.
  - simpl. by rewrite Z.mod_1_r.
  - cbn [le_encode le_decode]. rewrite byte_of_Z_value, IH.
    replace (8 * Z.of_nat (S n)) with (8 + 8 * Z.of_nat n) by lia.
    rewrite Z.pow_add_r by lia. change (2 ^ 8) with 256.
    rewrite Z.rem_mul_r by lia. done.
Qed.

Lemma decode_int_encode (v : Z) :
  - 2 ^ 31 ≤ v < 2 ^ 31 → decode_int (le_encode sizeof_int v) = v.
Proof.
  intros Hv. unfold decode_int. rewrite le_decode_encode.
  change (2 ^ (8 * Z.of_nat sizeof_int)) with (2 ^ 32).
  destruct (decide (0 ≤ v)) as [Hpos|Hneg].
  - rewrite Z.mod_small by lia.
    destruct (v <? 2 ^ 31) eqn:E; [done|]. apply Z.ltb_ge in E. lia.
  - replace (v mod 2 ^ 32) with (v + 2 ^ 32).
    + destruct (v + 2 ^ 32 <? 2 ^ 31) eqn:E; [|lia].
      apply Z.ltb_lt in E. lia.
    + apply Z.mod_unique with (q := -1); lia.
Qed.

Lemma length_list_byte_of_string (s : string) :
  length (list_byte_of_string s) = String.length s.
Proof.
  unfold list_byte_of_string. rewrite length_map.
  induction s as [|c s IH]; simpl; [done|]. by rewrite IH.
Qed.

Lemma read_into_exact (old bs rest : list byte) :
  length old = length bs →
  read_into old (mkStream (bs ++ rest) true) = (bs, mkStream rest true).
Proof.
  intros Hlen. unfold read_into. cbn [good rdbuf].
  rewrite Hlen, length_app.
  destruct (_ <=? _)%nat eqn:E; [|apply Nat.leb_gt in E; lia].
  by rewrite take_app_length, drop_app_length.
Qed.

Lemma length_uninitialised (indet : nat → byte) (n : nat) :
  length (uninitialised indet n) = n.
Proof. unfold uninitialised. by rewrite length_fmap, length_seq. Qed.

Section RoundTrip.
Variable indet : nat → byte.
Variable can_allocate : Z → bool.

Lemma loadMap_loop_saved (l : list (string * Z)) (acc : posting)
    (rest : list byte) :
  Forall (loadable can_allocate) l →
  loadMap_loop indet can_allocate (length l) acc
               (mkStream (flat_map saveMap_pair l ++ rest) true)
  = Returns (fold_left (λ acc p, <[p.1 := p.2]> acc) l acc,
             mkStream rest true).
Proof.
  revert acc. induction l as [|[k v] l IH]; intros acc Hl; [done|].
  apply Forall_cons in Hl as [(Halloc & Hlen & Hv) Hl]. cbn [fst snd] in *.
  cbn [length loadMap_loop flat_map]. unfold saveMap_pair at 1.
  cbn [fst snd]. rewrite <- !app_assoc.
  rewrite read_into_exact
    by by rewrite length_uninitialised, length_le_encode.
  rewrite le_decode_encode.
  change (2 ^ (8 * Z.of_nat sizeof_size_t)) with (2 ^ 64).
  rewrite Z.mod_small by lia. rewrite Halloc.
  rewrite read_into_exact
    by by rewrite length_replicate, Nat2Z.id, length_list_byte_of_string.
  rewrite read_into_exact
    by by rewrite length_uninitialised, length_le_encode.
  rewrite string_of_list_byte_of_string, decode_int_encode by done.
  by rewrite IH.
Qed.

Lemma fold_left_insert_list_to_map (l : list (string * Z)) :
  NoDup l.*1 →
  fold_left (λ acc p, <[p.1 := p.2]> acc) l (∅ : posting) = list_to_map l.
Proof.
  intros Hnd.
  rewrite <- (list_to_map_proper (reverse l) l).
  - unfold reverse. rewrite <- rev_alt, <- fold_left_rev_right.
    generalize (rev l). intros l'.
    induction l' as [|[k v] l' IH]; simpl; [done|]. by rewrite IH.
  - by rewrite fmap_reverse, reverse_Permutation.
  - apply reverse_Permutation.
Qed.

(** Reading back what [saveMap] wrote gives the map, with the stream
    left good at the end of what was written. *)
Lemma loadMap_saveMap (m old : posting) (rest : list byte) :
  Z.of_nat (size m) < 2 ^ 64 →
  map_Forall (λ k v, loadable can_allocate (k, v)) m →
  loadMap indet can_allocate old (mkStream (saveMap m [] ++ rest) true)
  = Returns (m, mkStream rest true).
Proof.
  intros Hsize Hm. unfold loadMap.
  rewrite saveMap_bytes, app_nil_l, <- app_assoc.
  rewrite read_into_exact
    by by rewrite length_uninitialised, length_le_encode.
  rewrite le_decode_encode.
  change (2 ^ (8 * Z.of_nat sizeof_size_t)) with (2 ^ 64).
  rewrite Z.mod_small by lia. rewrite Nat2Z.id.
  rewrite <- length_map_to_list, loadMap_loop_saved.
  - rewrite fold_left_insert_list_to_map by apply NoDup_fst_map_to_list.
    by rewrite list_to_map_to_list.
  - apply Forall_forall. intros [k v] Hin%elem_of_map_to_list.
    by apply (Hm k v).
Qed.

(** Saving an index and loading the file into the same, still populated
    index returns with the index as it was. *)
Lemma load_into_same_index (t : AVLTree posting) (filename : string)
    (fs : filesystem) :
  (∀ m, value_of (root t) = Some m →
        Z.of_nat (size m) < 2 ^ 64
        ∧ map_Forall (λ k v, loadable can_allocate (k, v)) m) →
  loadFromFile indet can_allocate t filename (saveToFile t filename fs)
  = Returns t.
Proof.
  intros Hok. unfold loadFromFile, saveToFile, open_in.
  rewrite lookup_insert_eq. unfold tree_load, tree_save, node_load, node_save.
  destruct t as [[|k m h l r]]; cbn [root]; [done|].
  destruct (Hok m eq_refl) as [Hsize Hm].
  rewrite <- (app_nil_r (saveMap m [])).
  by rewrite loadMap_saveMap.
Qed.
End RoundTrip.

(** * Further properties of the balanced index *)

Section EntriesFacts.
Context {T : Type}.
Implicit Types (node l r x y : AVLNode T) (key k : string) (v value : T).

Lemma node_count_entries node :
  node_count node = Z.of_nat (length (entries node)).
Proof.
  induction node as [|k v h l IHl r IHr]; simpl; [done|].
  rewrite length_app. simpl. lia.
Qed.

Lemma rightRotate_entries y x : rightRotate y = Some x → entries x = entries y.
Proof.
  destruct y as [|ky vy hy [|kx vx hx xl T2] yr]; try done.
  intros [= <-]. simpl. by rewrite <- app_assoc.
Qed.

Lemma leftRotate_entries x y : leftRotate x = Some y → entries y = entries x.
Proof.
  destruct x as [|kx vx hx xl [|ky vy hy T2 yr]]; try done.
  intros [= <-]. simpl. by rewrite <- app_assoc.
Qed.

Lemma rebalance_entries k v l r key node' :
  rebalance k v l r key = Some node' →
  entries node' = entries l ++ (k, v) :: entries r.
Proof.
  unfold rebalance. intros Hreb.
  destruct (and_key _ l (str_lt key)) as [[]|]; [| |done];
    cbn [mbind option_bind] in Hreb.
  { by rewrite (rightRotate_entries _ _ Hreb). }
  destruct (and_key _ r (str_gt key)) as [[]|]; [| |done];
    cbn [mbind option_bind] in Hreb.
  { by rewrite (leftRotate_entries _ _ Hreb). }
  destruct (and_key _ l (str_gt key)) as [[]|]; [| |done];
    cbn [mbind option_bind] in Hreb.
  { destruct (leftRotate l) as [l2|] eqn:Hl2; [|done].
    cbn [mbind option_bind] in Hreb.
    rewrite (rightRotate_entries _ _ Hreb). simpl.
    by rewrite (leftRotate_entries _ _ Hl2). }
  destruct (and_key _ r (str_lt key)) as [[]|]; [| |done];
    cbn [mbind option_bind] in Hreb.
  { destruct (rightRotate r) as [r2|] eqn:Hr2; [|done].
    cbn [mbind option_bind] in Hreb.
    rewrite (leftRotate_entries _ _ Hreb). simpl.
    by rewrite (rightRotate_entries _ _ Hr2). }
  by injection Hreb as <-.
Qed.

Lemma all_keys_entries (P : string → Prop) node :
  all_keys P node ↔ Forall P (keys node).
Proof.
  unfold keys. induction node as [|k v h l IHl r IHr]; simpl.
  - split; [constructor|done].
  - rewrite fmap_app, fmap_cons, Forall_app, Forall_cons, IHl, IHr. simpl.
    tauto.
Qed.

(** An ordered tree lists its keys in strictly increasing order. *)
Lemma bst_keys_sorted node : bst node → StronglySorted key_less (keys node).
Proof.
  unfold keys. induction node as [|k v h l IHl r IHr]; simpl.
  - constructor.
  - intros (Hl & Hr & Hbl & Hbr).
    rewrite fmap_app, fmap_cons. apply StronglySorted_app. simpl.
    apply all_keys_entries in Hl, Hr. unfold keys in Hl, Hr.
    rewrite Forall_forall in Hl, Hr.
    split_and!; [|auto|].
    + intros x1 x2 Hx1 [->|Hx2]%elem_of_cons.
      * by apply Hl.
      * apply Hl in Hx1. apply Hr in Hx2.
        by apply (str_lt_trans x1 k x2).
    + apply StronglySorted_cons. split; [|auto].
      apply Forall_forall. intros x Hx. by apply Hr.
Qed.

(** In an ordered tree, [find] sees exactly the entries. *)
Lemma bst_lookup_entries node key value :
  bst node → (key, value) ∈ entries node ↔ lookup_key node key = Some value.
Proof.
  revert value. induction node as [|k v h l IHl r IHr]; intros value; simpl.
  - intros _. split; [by intros ?%elem_of_nil|done].
  - intros (Hl & Hr & Hbl & Hbr).
    apply all_keys_entries in Hl, Hr. unfold keys in Hl, Hr.
    rewrite Forall_forall in Hl, Hr.
    rewrite lookup_node, elem_of_app, elem_of_cons,
      (IHl value Hbl), (IHr value Hbr).
    assert (Hinl : ∀ w, lookup_key l key = Some w → str_lt key k = true).
    { intros w Hw. apply (IHl w Hbl) in Hw. apply Hl.
      apply list_elem_of_fmap. by exists (key, w). }
    assert (Hinr : ∀ w, lookup_key r key = Some w → str_lt k key = true).
    { intros w Hw. apply (IHr w Hbr) in Hw. apply Hr.
      apply list_elem_of_fmap. by exists (key, w). }
    destruct (key_cmp_spec key k) as [Hlt Hgt Heq Hne|Hlt Hgt Heq Hne|Hlt Hgt Heq Hne];
      rewrite Heq, ?Hlt.
    + split; [|by left]. intros [?|[[= ? ?]|Hx]]; [done..|].
      apply Hinr in Hx. clear -Hx Hlt. key_contra.
    + split; [|by right; right]. intros [Hx|[[= ? ?]|?]]; [|done..].
      apply Hinl in Hx. congruence.
    + subst k. split.
      * intros [Hx|[[= ?]|Hx]]; [|by subst|].
        -- apply Hinl in Hx. by rewrite str_lt_irrefl in Hx.
        -- apply Hinr in Hx. by rewrite str_lt_irrefl in Hx.
      * intros [= ->]. by right; left.
Qed.
End EntriesFacts.

Section BalanceFacts.
Context {T : Type}.
Implicit Types (node l r : AVLNode T) (key k : string) (v value : T).

Lemma balanced_height node : balanced node → height node = real_height node.
Proof. destruct node; [done|]. by intros [-> _]. Qed.

Lemma balanced_avl node : balanced node → avl node.
Proof.
  induction node as [|k v h l IHl r IHr]; [done|].
  intros (Hh & Hb & Hl & Hr). cbn [avl].
  rewrite !balanced_height by done. cbn [real_height] in Hh.
  split_and!; auto; lia.
Qed.

Lemma avl_heights_ok node : avl node → heights_ok node.
Proof.
  induction node as [|k v h l IHl r IHr]; [done|].
  intros (Hh & _ & Hl & Hr). cbn [heights_ok]. auto.
Qed.

Lemma heights_ok_real node : heights_ok node → height node = real_height node.
Proof.
  induction node as [|k v h l IHl r IHr]; simpl; [done|].
  intros (-> & Hl & Hr). by rewrite IHl, IHr.
Qed.

(** The number of nodes grows at least like a power of two of half the
    height. *)
Lemma avl_count node : avl node → 2 ^ (height node / 2) ≤ node_count node + 1.
Proof.
  induction node as [|k v h l IHl r IHr]; [done|].
  intros (Hh & Hb & Hl & Hr). cbn [height node_count].
  specialize (IHl Hl). specialize (IHr Hr).
  pose proof (avl_height_nonneg _ Hl) as Hl0.
  pose proof (avl_height_nonneg _ Hr) as Hr0.
  assert (Hstep : ∀ a, 0 ≤ a → 2 ^ ((a + 2) / 2) = 2 * 2 ^ (a / 2)).
  { intros a Ha. replace (a + 2) with (a + 1 * 2) by lia.
    rewrite Z.div_add by lia. rewrite Z.pow_add_r by (try apply Z.div_pos; lia).
    lia. }
  assert (Hmono : ∀ a b, 0 ≤ a ≤ b → 2 ^ (a / 2) ≤ 2 ^ (b / 2)).
  { intros a b Hab. apply Z.pow_le_mono_r; [lia|].
    apply Z.div_le_mono; lia. }
  subst h.
  destruct (decide (height l = height r)) as [Heq|Hne].
  - rewrite Heq, Z.max_id.
    pose proof (Hmono (1 + height r) (height r + 2) ltac:(lia)) as H1.
    rewrite Hstep in H1 by lia. rewrite Heq in IHl. lia.
  - destruct (decide (height l < height r)) as [Hlt|Hge].
    + replace (1 + height l `max` height r) with (height l + 2) by lia.
      rewrite Hstep by lia.
      pose proof (Hmono (height l) (height r) ltac:(lia)). lia.
    + replace (1 + height l `max` height r) with (height r + 2) by lia.
      rewrite Hstep by lia.
      pose proof (Hmono (height r) (height l) ltac:(lia)). lia.
Qed.

(** An insert adds one node when the key is new and none when [find]
    reaches the key. *)
Lemma insert_count node key value node' :
  insert node key value = Some node' →
  node_count node' = node_count node + (if has_key node key then 0 else 1).
Proof.
  unfold has_key.
  revert node'. induction node as [|k v h l IHl r IHr]; intros node' Hins.
  - by injection Hins as <-.
  - cbn [insert find] in *.
    destruct (key_cmp_spec key k) as [Hlt Hgt Heq Hne|Hlt Hgt Heq Hne|Hlt Hgt Heq Hne];
      rewrite Hlt in Hins; [|rewrite Hgt in Hins..]; rewrite Heq, ?Hlt.
    + destruct (insert l key value) as [l'|] eqn:Hl'; [|done].
      cbn [mbind option_bind] in Hins.
      apply rebalance_entries in Hins.
      rewrite (node_count_entries node'), Hins, length_app. cbn [length].
      specialize (IHl l' eq_refl). rewrite !node_count_entries in IHl.
      cbn [node_count]. rewrite !node_count_entries. lia.
    + destruct (insert r key value) as [r'|] eqn:Hr'; [|done].
      cbn [mbind option_bind] in Hins.
      apply rebalance_entries in Hins.
      rewrite (node_count_entries node'), Hins, length_app. cbn [length].
      specialize (IHr r' eq_refl). rewrite !node_count_entries in IHr.
      cbn [node_count]. rewrite !node_count_entries. lia.
    + injection Hins as <-. cbn [node_count]. lia.
Qed.



Lemma key_less_NoDup (l : list string) : StronglySorted key_less l → NoDup l.
Proof.
  induction 1 as [|x l Hs IH Hx]; constructor; [|done].
  intros Hin. rewrite Forall_forall in Hx. specialize (Hx x Hin).
  unfold key_less in Hx. by rewrite str_lt_irrefl in Hx.
Qed.
End BalanceFacts.

(** A rotation that goes through keeps the in-order sequence of the
    entries; it keeps the search-tree order, and it leaves every stored
    height equal to the height of its subtree when that held before. *)
Theorem rotation_keeps_entries {T : Type} (y x : AVLNode T) :
  rightRotate y = Some x ∨ leftRotate y = Some x →
  entries x = entries y
  ∧ (bst y → bst x)
  ∧ (heights_ok y → heights_ok x).
Proof.
  intros [Hrot|Hrot].
  - split_and!.
    + by apply rightRotate_entries.
    + intros Hb. by apply (same_content_rightRotate y x Hrot).
    + destruct y as [|ky vy hy [|kx vx hx xl T2] yr]; try done.
      injection Hrot as <-. simpl.
      intros (_ & (_ & ? & ?) & ?). split_and!; auto; lia.
  - split_and!.
    + by apply leftRotate_entries.
    + intros Hb. by apply (same_content_leftRotate y x Hrot).
    + destruct y as [|kx vx hx xl [|ky vy hy T2 yr]]; try done.
      injection Hrot as <-. simpl.
      intros (_ & ? & (_ & ? & ?)). split_and!; auto; lia.
Qed.

(** The right rotation of a left chain of three nodes. *)
Lemma rotation_keeps_entries_witness :
  (rightRotate left_chain = Some small_tree
   ∨ leftRotate left_chain = Some small_tree)
  ∧ entries small_tree = entries left_chain
  ∧ (bst left_chain → bst small_tree)
  ∧ (heights_ok left_chain → heights_ok small_tree).
Proof.
  split; [left; reflexivity|].
  apply (rotation_keeps_entries left_chain small_tree). left. reflexivity.
Defined.

(** An insert into any balanced tree returns, leaves the tree balanced,
    and leaves its height as it was or one more. *)
Theorem insert_keeps_balanced {T : Type} (node : AVLNode T) (key : string)
    (value : T) :
  balanced node →
  ∃ node',
    insert node key value = Some node' ∧ balanced node'
    ∧ real_height node ≤ real_height node' ≤ real_height node + 1.
Proof.
  intros Hb%balanced_avl.
  destruct (insert_avl node key value Hb) as (node' & Hins & Havl & Hh).
  exists node'. split; [done|]. split; [by apply avl_balanced|].
  rewrite <- !avl_real_height by done. lia.
Qed.

Lemma insert_keeps_balanced_witness :
  balanced small_tree
  ∧ ∃ node',
      insert small_tree "d" 4 = Some node' ∧ balanced node'
      ∧ real_height small_tree ≤ real_height node'
        ≤ real_height small_tree + 1.
Proof.
  assert (H : balanced small_tree) by (cbn; lia).
  split; [exact H|].
  apply (insert_keeps_balanced small_tree "d" 4 H).
Defined.



Section ContentFacts.
Context {T : Type}.
Implicit Types (node : AVLNode T) (key k : string) (v value : T).

Lemma elem_of_keys node key :
  key ∈ keys node ↔ ∃ v, (key, v) ∈ entries node.
Proof.
  unfold keys. rewrite list_elem_of_fmap. split.
  - intros ([k v] & -> & Hin). by exists v.
  - intros [v Hin]. by exists (key, v).
Qed.

Lemma bst_has_key node key :
  bst node → has_key node key = true ↔ key ∈ keys node.
Proof.
  intros Hb. rewrite elem_of_keys. unfold has_key.
  split.
  - destruct (find node key) as [|k v h l r] eqn:Hf; [done|]. intros _.
    exists v. apply bst_lookup_entries; [done|].
    unfold lookup_key. by rewrite Hf.
  - intros [v Hin]. apply bst_lookup_entries in Hin; [|done].
    unfold lookup_key in Hin. by destruct (find node key).
Qed.
End ContentFacts.

(** On an ordered tree [find] returns the null pointer exactly for the
    keys the tree does not hold; for a key it holds it returns the node
    of that key, whose value is the one the tree holds for it. *)
Theorem find_on_ordered_tree {T : Type} (node : AVLNode T) (key : string) :
  bst node →
  (find node key = nullnode ↔ key ∉ keys node)
  ∧ (key ∈ keys node → key_of (find node key) = Some key)
  ∧ (∀ v, value_of (find node key) = Some v ↔ (key, v) ∈ entries node).
Proof.
  intros Hb. pose proof (bst_has_key node key Hb) as Hk.
  split_and!.
  - rewrite <- Hk. unfold has_key. by destruct (find node key).
  - intros Hin. apply Hk in Hin. unfold has_key in Hin.
    destruct (find_key node key) as [Hn| ->]; [|done].
    by rewrite Hn in Hin.
  - intros v. by rewrite bst_lookup_entries.
Qed.

Lemma find_on_ordered_tree_witness :
  bst small_tree
  ∧ (find small_tree "c" = nullnode ↔ "c" ∉ keys small_tree)
  ∧ ("c" ∈ keys small_tree → key_of (find small_tree "c") = Some "c")
  ∧ (∀ v, value_of (find small_tree "c") = Some v
          ↔ ("c", v) ∈ entries small_tree).
Proof.
  assert (H : bst small_tree) by (cbn; split_and!; reflexivity).
  split; [exact H|].
  apply (find_on_ordered_tree small_tree "c" H).
Defined.

(** An insert into an ordered tree leaves it ordered; afterwards the
    tree holds the inserted value under the key and, under every other
    key, what it held before; it has one node more when the key is new
    and as many as before when it is not. *)
Theorem insert_into_ordered_tree {T : Type} (node node' : AVLNode T)
    (key : string) (value : T) :
  bst node → insert node key value = Some node' →
  bst node'
  ∧ (∀ k v, (k, v) ∈ entries node' ↔
       (k = key ∧ v = value) ∨ (k ≠ key ∧ (k, v) ∈ entries node))
  ∧ node_count node' =
      node_count node + (if decide (key ∈ keys node) then 0 else 1).
Proof.
  intros Hb Hins.
  destruct (insert_bst node key value node' Hb Hins) as (Hb' & _ & Hlk).
  split_and!; [done| |].
  - intros k v. rewrite !bst_lookup_entries, Hlk by done.
    unfold str_eq. destruct (String.eqb_spec key k) as [->|Hne].
    + split; [intros [= ->]; by left|]. by intros [[_ ->]|[? _]].
    + split; [intros ?; right; split; [congruence|done]|].
      by intros [[-> _]|[_ ?]].
  - rewrite (insert_count node key value node' Hins).
    pose proof (bst_has_key node key Hb) as Hk.
    destruct (has_key node key); case_decide; try done.
    + by destruct Hk as [Hk _]; specialize (Hk eq_refl).
    + by destruct Hk as [_ Hk]; specialize (Hk ltac:(done)).
Qed.

Lemma insert_into_ordered_tree_witness :
  bst small_tree ∧ insert small_tree "d" 4 = Some small_tree_d
  ∧ bst small_tree_d
  ∧ (∀ k v, (k, v) ∈ entries small_tree_d ↔
       (k = "d" ∧ v = 4) ∨ (k ≠ "d" ∧ (k, v) ∈ entries small_tree))
  ∧ node_count small_tree_d =
      node_count small_tree + (if decide ("d" ∈ keys small_tree) then 0 else 1).
Proof.
  assert (H : bst small_tree) by (cbn; split_and!; reflexivity).
  split; [exact H|]. split; [reflexivity|].
  apply (insert_into_ordered_tree small_tree small_tree_d "d" 4 H).
  reflexivity.
Defined.

Section SequenceFacts.
Context {T : Type}.

Lemma last_inserted_is_Some (ops : list (string * T)) (key : string) :
  is_Some (last_inserted ops key) ↔ key ∈ ops.*1.
Proof.
  rewrite <- not_eq_None_Some, last_inserted_None.
  destruct (decide (key ∈ ops.*1)); naive_solver.
Qed.
End SequenceFacts.

(** After any sequence of inserts into an empty index, an in-order walk
    of the tree meets the keys in strictly increasing order, the entries
    are exactly the inserted keys with the value given last to each, and
    there is one node for each distinct key. *)
Theorem index_holds_last_values {T : Type} (ops : list (string * T)) :
  ∃ t : AVLTree T,
    insert_all ops empty_tree = Some t
    ∧ StronglySorted key_less (keys (root t))
    ∧ (∀ k v, (k, v) ∈ entries (root t) ↔ last_inserted ops k = Some v)
    ∧ node_count (root t) = Z.of_nat (length (remove_dups ops.*1)).
Proof.
  destruct (insert_all_avl ops (@empty_tree T)) as (t & Ht & _); [done|].
  destruct (insert_all_bst ops empty_tree t) as [Hb Hlk]; [done..|].
  exists t. split; [done|].
  assert (Hent : ∀ k v, (k, v) ∈ entries (root t) ↔ last_inserted ops k = Some v).
  { intros k v. rewrite bst_lookup_entries, Hlk by done.
    by destruct (last_inserted ops k). }
  pose proof (bst_keys_sorted (root t) Hb) as Hsorted.
  split_and!; [done..|].
  rewrite node_count_entries. f_equal.
  rewrite <- (length_fmap fst). apply Permutation_length.
  apply NoDup_Permutation.
  - by apply key_less_NoDup.
  - apply NoDup_remove_dups.
  - intros k. rewrite elem_of_remove_dups, <- (last_inserted_is_Some ops k).
    pose proof (elem_of_keys (root t) k) as Hk. unfold keys in Hk.
    rewrite Hk. split; intros [v Hv]; exists v; by apply Hent.
Qed.

(** After any sequence of inserts into an empty index the height of the
    tree is logarithmic in the number of its nodes: two to the power of
    half the height is at most the number of nodes plus one, and there
    are at most as many nodes as inserts. *)
Theorem height_is_logarithmic {T : Type} (ops : list (string * T)) :
  ∃ t : AVLTree T,
    insert_all ops empty_tree = Some t
    ∧ 2 ^ (real_height (root t) / 2) ≤ node_count (root t) + 1
    ∧ node_count (root t) ≤ Z.of_nat (length ops).
Proof.
  destruct (insert_all_avl ops (@empty_tree T)) as (t & Ht & Havl); [done|].
  exists t. split; [done|]. split.
  - rewrite <- avl_real_height by done. by apply avl_count.
  - clear Havl. revert t Ht.
    assert (∀ t0 t : AVLTree T, insert_all ops t0 = Some t →
              node_count (root t)
              ≤ node_count (root t0) + Z.of_nat (length ops)) as Hgen.
    { induction ops as [|[k v] ops IH]; intros t0 t Ht.
      - injection Ht as <-. simpl. lia.
      - cbn [insert_all] in Ht. unfold tree_insert in Ht.
        destruct (insert (root t0) k v) as [n|] eqn:Hn; [|done].
        cbn [fmap option_fmap option_map mbind option_bind] in Ht.
        apply IH in Ht. cbn [root] in Ht.
        rewrite (insert_count _ _ _ _ Hn) in Ht.
        cbn [length]. destruct (has_key (root t0) k); lia. }
    intros t Ht. apply Hgen in Ht. simpl in Ht. simpl. lia.
Qed.

(** * Further properties of persistence *)

Lemma posting_loadable_spec (can_allocate : Z → bool) (m : posting) :
  posting_loadable can_allocate m = true →
  Z.of_nat (size m) < 2 ^ 64
  ∧ map_Forall (λ k v, loadable can_allocate (k, v)) m.
Proof.
  unfold posting_loadable. intros [Hsize Hall]%andb_true_iff.
  split; [lia|]. intros k v Hkv.
  rewrite forallb_forall in Hall.
  specialize (Hall (k, v)). cbn [fst snd] in Hall.
  assert (Hin : In (k, v) (map_to_list m))
    by by apply list_elem_of_In, elem_of_map_to_list.
  apply Hall in Hin. unfold loadable. cbn [fst snd].
  apply andb_true_iff in Hin as [Hin ?]. apply andb_true_iff in Hin as [Hin ?].
  apply andb_true_iff in Hin as [? ?]. split_and!; [done|lia..].
Qed.

(** What [saveMap] wrote, [loadMap] reads back: the map it returns is
    the map that was saved, whatever the map it is given held, and the
    stream is left good at the first byte after it. *)
Theorem saveMap_loadMap_roundtrip (indet : nat → byte)
    (can_allocate : Z → bool) (m old : posting) (rest : list byte) :
  posting_loadable can_allocate m = true →
  loadMap indet can_allocate old (mkStream (saveMap m [] ++ rest) true)
  = Returns (m, mkStream rest true).
Proof.
  intros [Hsize Hm]%posting_loadable_spec. by apply loadMap_saveMap.
Qed.

Lemma saveMap_loadMap_roundtrip_witness :
  posting_loadable allocate_below_max_size one_posting = true
  ∧ loadMap zero_storage allocate_below_max_size ∅
            (mkStream (saveMap one_posting [] ++ []) true)
    = Returns (one_posting, mkStream [] true).
Proof.
  assert (H : posting_loadable allocate_below_max_size one_posting = true)
    by (vm_compute; reflexivity).
  split; [exact H|].
  apply (saveMap_loadMap_roundtrip zero_storage allocate_below_max_size
           one_posting ∅ [] H).
Defined.

Lemma load_saved_index (indet : nat → byte) (can_allocate : Z → bool)
    (t : AVLTree posting) (filename : string) (fs : filesystem) :
  index_loadable can_allocate t = true →
  loadFromFile indet can_allocate t filename (saveToFile t filename fs)
  = Returns t.
Proof.
  intros Hok. apply load_into_same_index.
  intros m Hm. apply posting_loadable_spec.
  unfold index_loadable in Hok. destruct (root t); [done|].
  by injection Hm as <-.
Qed.

(** Saving an index to a file and loading that file into the same,
    still populated index returns and leaves the index as it was. *)
Theorem save_then_load_same_index (indet : nat → byte)
    (can_allocate : Z → bool) (t : AVLTree posting) (filename : string)
    (fs : filesystem) :
  index_loadable can_allocate t = true →
  loadFromFile indet can_allocate t filename (saveToFile t filename fs)
  = Returns t.
Proof. apply load_saved_index. Qed.

Lemma save_then_load_same_index_witness :
  index_loadable allocate_below_max_size one_entry_tree = true
  ∧ loadFromFile zero_storage allocate_below_max_size one_entry_tree
                 "word.dat" (saveToFile one_entry_tree "word.dat" ∅)
    = Returns one_entry_tree.
Proof.
  assert (H : index_loadable allocate_below_max_size one_entry_tree = true)
    by (vm_compute; reflexivity).
  split; [exact H|].
  apply (save_then_load_same_index zero_storage allocate_below_max_size
           one_entry_tree "word.dat" ∅ H).
Defined.

(** [WordMap::save] with three different paths leaves each index in its
    own file and no other file touched; loading these files into the
    same, still populated index set then returns [true] and leaves the
    index set as it was. *)
Theorem WordMap_save_then_load (indet : nat → byte) (can_allocate : Z → bool)
    (wm : WordMap) (f o n w fr : string) (fs : filesystem) :
  o ≠ n → o ≠ w → n ≠ w →
  index_loadable can_allocate (orgIndex wm) = true →
  index_loadable can_allocate (nameIndex wm) = true →
  index_loadable can_allocate (wordIndex wm) = true →
  WordMap_save wm f o n w fr fs !! o = Some (tree_save (orgIndex wm) [])
  ∧ WordMap_save wm f o n w fr fs !! n = Some (tree_save (nameIndex wm) [])
  ∧ WordMap_save wm f o n w fr fs !! w = Some (tree_save (wordIndex wm) [])
  ∧ (∀ other, other ≠ o → other ≠ n → other ≠ w →
       WordMap_save wm f o n w fr fs !! other = fs !! other)
  ∧ WordMap_load indet can_allocate wm f o n w fr
                 (WordMap_save wm f o n w fr fs)
    = (wm, true).
Proof.
  intros Hon How Hnw Ho Hn Hw. unfold WordMap_save, saveToFile.
  assert (Hfo : <[w:=tree_save (wordIndex wm) []]>
                  (<[n:=tree_save (nameIndex wm) []]>
                     (<[o:=tree_save (orgIndex wm) []]> fs)) !! o
                = Some (tree_save (orgIndex wm) []))
    by (rewrite lookup_insert_ne by done; rewrite lookup_insert_ne by done;
        by rewrite lookup_insert_eq).
  assert (Hfn : <[w:=tree_save (wordIndex wm) []]>
                  (<[n:=tree_save (nameIndex wm) []]>
                     (<[o:=tree_save (orgIndex wm) []]> fs)) !! n
                = Some (tree_save (nameIndex wm) []))
    by (rewrite lookup_insert_ne by done; by rewrite lookup_insert_eq).
  assert (Hfw : <[w:=tree_save (wordIndex wm) []]>
                  (<[n:=tree_save (nameIndex wm) []]>
                     (<[o:=tree_save (orgIndex wm) []]> fs)) !! w
                = Some (tree_save (wordIndex wm) []))
    by by rewrite lookup_insert_eq.
  split_and!; [done..| |].
  - intros other ???. by rewrite !lookup_insert_ne.
  - assert (Hload : ∀ t path fs',
              index_loadable can_allocate t = true →
              fs' !! path = Some (tree_save t []) →
              loadFromFile indet can_allocate t path fs' = Returns t).
    { intros t path fs' Hok Hfile.
      rewrite <- (load_saved_index indet can_allocate t path fs' Hok).
      unfold loadFromFile, open_in, saveToFile.
      by rewrite Hfile, lookup_insert_eq. }
    unfold WordMap_load.
    rewrite (Hload _ _ _ Ho Hfo), (Hload _ _ _ Hn Hfn), (Hload _ _ _ Hw Hfw).
    by destruct wm.
Qed.

Lemma WordMap_save_then_load_witness :
  "org.dat" ≠ "name.dat" ∧ "org.dat" ≠ "word.dat" ∧ "name.dat" ≠ "word.dat"
  ∧ index_loadable allocate_below_max_size (orgIndex sample_WordMap) = true
  ∧ index_loadable allocate_below_max_size (nameIndex sample_WordMap) = true
  ∧ index_loadable allocate_below_max_size (wordIndex sample_WordMap) = true
  ∧ WordMap_load zero_storage allocate_below_max_size sample_WordMap
                 "index.dat" "org.dat" "name.dat" "word.dat" "freq.dat"
                 (WordMap_save sample_WordMap "index.dat" "org.dat" "name.dat"
                               "word.dat" "freq.dat" ∅)
    = (sample_WordMap, true).
Proof.
  assert (H1 : "org.dat" ≠ "name.dat") by discriminate.
  assert (H2 : "org.dat" ≠ "word.dat") by discriminate.
  assert (H3 : "name.dat" ≠ "word.dat") by discriminate.
  assert (H4 : index_loadable allocate_below_max_size
                 (orgIndex sample_WordMap) = true) by (vm_compute; reflexivity).
  assert (H5 : index_loadable allocate_below_max_size
                 (nameIndex sample_WordMap) = true) by (vm_compute; reflexivity).
  assert (H6 : index_loadable allocate_below_max_size
                 (wordIndex sample_WordMap) = true) by (vm_compute; reflexivity).
  split_and!; [done..|].
  apply (WordMap_save_then_load zero_storage allocate_below_max_size
           sample_WordMap "index.dat" "org.dat" "name.dat" "word.dat"
           "freq.dat" ∅ H1 H2 H3 H4 H5 H6).
Defined.

(** [WordMap::load], whether it returns [true] or [false], leaves the
    keys, the structure and the stored heights of the three indices as
    they were, and it returns [true] exactly when none of the three
    per-index loads throws. *)
Theorem WordMap_load_keeps_keys (indet : nat → byte) (can_allocate : Z → bool)
    (wm : WordMap) (f o n w fr : string) (fs : filesystem) :
  shape (root (orgIndex (WordMap_load indet can_allocate wm f o n w fr fs).1))
  = shape (root (orgIndex wm))
  ∧ shape (root (nameIndex (WordMap_load indet can_allocate wm f o n w fr fs).1))
    = shape (root (nameIndex wm))
  ∧ shape (root (wordIndex (WordMap_load indet can_allocate wm f o n w fr fs).1))
    = shape (root (wordIndex wm))
  ∧ (WordMap_load indet can_allocate wm f o n w fr fs).2
    = returned (loadFromFile indet can_allocate (orgIndex wm) o fs)
      && returned (loadFromFile indet can_allocate (nameIndex wm) n fs)
      && returned (loadFromFile indet can_allocate (wordIndex wm) w fs).
Proof.
  pose proof (loadFromFile_frame indet can_allocate (orgIndex wm) o fs) as Ho.
  pose proof (loadFromFile_frame indet can_allocate (nameIndex wm) n fs) as Hn.
  pose proof (loadFromFile_frame indet can_allocate (wordIndex wm) w fs) as Hw.
  apply same_but_root_value_shape in Ho, Hn, Hw.
  unfold WordMap_load.
  destruct (loadFromFile indet can_allocate (orgIndex wm) o fs);
    cbn [state_of] in Ho; [|by split_and!].
  destruct (loadFromFile indet can_allocate (nameIndex wm) n fs);
    cbn [state_of] in Hn; [|by split_and!].
  destruct (loadFromFile indet can_allocate (wordIndex wm) w fs);
    cbn [state_of] in Hw; by split_and!.
Qed.

(** * Further properties of the index manager *)

Lemma getFilesByOrg_lookup (wm : WordMap) (org : string) :
  getFilesByOrg wm org = default ∅ (lookup_key (root (orgIndex wm)) org).
Proof.
  unfold getFilesByOrg, find_into, lookup_key, tree_find.
  by destruct (find (root (orgIndex wm)) org).
Qed.

Lemma getFilesByName_lookup (wm : WordMap) (name : string) :
  getFilesByName wm name = default ∅ (lookup_key (root (nameIndex wm)) name).
Proof.
  unfold getFilesByName, find_into, lookup_key, tree_find.
  by destruct (find (root (nameIndex wm)) name).
Qed.

Lemma increment_lookup (files : posting) (filepath f : string) :
  increment files filepath !! f =
    if decide (f = filepath)
    then Some (wrap_int (default 0 (files !! filepath) + 1))
    else files !! f.
Proof.
  unfold increment. case_decide as Hf.
  - subst f. by rewrite lookup_insert_eq.
  - by rewrite lookup_insert_ne.
Qed.

(** The posting maps of an index after one association, read through
    the lookup of the index manager. *)
Lemma associate_postings (idx idx' : AVLTree posting) (term filepath : string) :
  wf_index idx → associate idx term filepath = Some idx' →
  wf_index idx'
  ∧ ∀ key f,
      default ∅ (lookup_key (root idx') key) !! f =
        if decide (key = term ∧ f = filepath)
        then Some (wrap_int
                     (default 0 (default ∅ (lookup_key (root idx) term)
                                   !! filepath) + 1))
        else default ∅ (lookup_key (root idx) key) !! f.
Proof.
  intros Hwf Hassoc.
  destruct (associate_spec idx term filepath Hwf) as (idx2 & Heq & Hwf' & Hlk).
  rewrite Hassoc in Heq. injection Heq as <-.
  split; [done|]. intros key f. rewrite Hlk. unfold str_eq.
  destruct (String.eqb_spec term key) as [<-|Hne]; cbn [default]; unfold id.
  - rewrite increment_lookup. destruct (decide (f = filepath)) as [->|Hf].
    + by rewrite decide_True.
    + rewrite decide_False; [done|]. by intros [_ ?].
  - case_decide as Hd; [|done]. destruct Hd as [-> _]. done.
Qed.

Lemma associateWord_postings (wm : WordMap) (word filepath : string) :
  wf_WordMap wm →
  ∃ wm',
    associateWord wm word filepath = Some wm' ∧ wf_WordMap wm'
    ∧ orgIndex wm' = orgIndex wm ∧ nameIndex wm' = nameIndex wm
    ∧ (word = "" → wm' = wm)
    ∧ ∀ key f,
        getFilesByWord wm' key !! f =
          if decide (key = word ∧ f = filepath ∧ word ≠ "")
          then Some (wrap_int
                       (default 0 (getFilesByWord wm word !! filepath) + 1))
          else getFilesByWord wm key !! f.
Proof.
  intros (Ho & Hn & Hw). unfold associateWord.
  destruct (String.eqb_spec word "") as [->|Hne].
  - exists wm. split_and!; [done..|]. intros key f.
    case_decide as Hd; [|done]. by destruct Hd as (_ & _ & ?).
  - destruct (associate_spec (wordIndex wm) word filepath Hw)
      as (idx & Hassoc & _).
    rewrite Hassoc. cbn [mbind option_bind].
    destruct (associate_postings _ _ _ _ Hw Hassoc) as [Hwf' Hpost].
    eexists. split; [done|]. split_and!; [done..|].
    intros key f. rewrite !getFilesByWord_lookup. cbn [wordIndex].
    rewrite Hpost.
    destruct (decide (key = word ∧ f = filepath)) as [[-> ->]|Hd].
    + by rewrite decide_True.
    + rewrite decide_False; [done|]. intros (? & ? & _). by apply Hd.
Qed.

(** [associateWord] on a well-formed index set returns and keeps it well
    formed; it leaves the other two indices alone; for a non-empty word
    the count of the file under the word becomes its old count (zero
    when there was none) plus one, wrapped to an [int], and every other
    count of the word index stays; for the empty word nothing changes. *)
Theorem associateWord_counts (wm : WordMap) (word filepath : string) :
  wf_WordMap wm →
  ∃ wm',
    associateWord wm word filepath = Some wm' ∧ wf_WordMap wm'
    ∧ orgIndex wm' = orgIndex wm ∧ nameIndex wm' = nameIndex wm
    ∧ (word = "" → wm' = wm)
    ∧ ∀ key f,
        getFilesByWord wm' key !! f =
          if decide (key = word ∧ f = filepath ∧ word ≠ "")
          then Some (wrap_int
                       (default 0 (getFilesByWord wm word !! filepath) + 1))
          else getFilesByWord wm key !! f.
Proof. apply associateWord_postings. Qed.

Lemma associateWord_counts_witness :
  wf_WordMap sample_WordMap
  ∧ ∃ wm',
      associateWord sample_WordMap "run" "a.json" = Some wm'
      ∧ wf_WordMap wm'
      ∧ orgIndex wm' = orgIndex sample_WordMap
      ∧ nameIndex wm' = nameIndex sample_WordMap
      ∧ ("run" = "" → wm' = sample_WordMap)
      ∧ ∀ key f,
          getFilesByWord wm' key !! f =
            if decide (key = "run" ∧ f = "a.json" ∧ "run" ≠ "")
            then Some (wrap_int
                         (default 0 (getFilesByWord sample_WordMap "run"
                                       !! "a.json") + 1))
            else getFilesByWord sample_WordMap key !! f.
Proof.
  assert (H : wf_WordMap sample_WordMap).
  { unfold wf_WordMap, wf_index. cbn. split_and!; (done || lia). }
  split; [exact H|].
  apply (associateWord_counts sample_WordMap "run" "a.json" H).
Defined.

(** [associateOrg] and [associateName] on a well-formed index set return
    and keep it well formed; each changes its own index only, where the
    count of the file under the term becomes its old count (zero when
    there was none) plus one, wrapped to an [int], every other count
    staying as it was. *)
Theorem associateEntity_counts (wm : WordMap) (term filepath : string) :
  wf_WordMap wm →
  (∃ wm',
     associateOrg wm term filepath = Some wm' ∧ wf_WordMap wm'
     ∧ nameIndex wm' = nameIndex wm ∧ wordIndex wm' = wordIndex wm
     ∧ ∀ key f,
         getFilesByOrg wm' key !! f =
           if decide (key = term ∧ f = filepath)
           then Some (wrap_int
                        (default 0 (getFilesByOrg wm term !! filepath) + 1))
           else getFilesByOrg wm key !! f)
  ∧ (∃ wm',
       associateName wm term filepath = Some wm' ∧ wf_WordMap wm'
       ∧ orgIndex wm' = orgIndex wm ∧ wordIndex wm' = wordIndex wm
       ∧ ∀ key f,
           getFilesByName wm' key !! f =
             if decide (key = term ∧ f = filepath)
             then Some (wrap_int
                          (default 0 (getFilesByName wm term !! filepath) + 1))
             else getFilesByName wm key !! f).
Proof.
  intros (Ho & Hn & Hw). split.
  - unfold associateOrg.
    destruct (associate_spec (orgIndex wm) term filepath Ho)
      as (idx & Hassoc & _).
    rewrite Hassoc. cbn [mbind option_bind].
    destruct (associate_postings _ _ _ _ Ho Hassoc) as [Hwf' Hpost].
    eexists. split; [done|]. split_and!; [done..|].
    intros key f. rewrite !getFilesByOrg_lookup. cbn [orgIndex]. apply Hpost.
  - unfold associateName.
    destruct (associate_spec (nameIndex wm) term filepath Hn)
      as (idx & Hassoc & _).
    rewrite Hassoc. cbn [mbind option_bind].
    destruct (associate_postings _ _ _ _ Hn Hassoc) as [Hwf' Hpost].
    eexists. split; [done|]. split_and!; [done..|].
    intros key f. rewrite !getFilesByName_lookup. cbn [nameIndex]. apply Hpost.
Qed.

Lemma associateEntity_counts_witness :
  wf_WordMap sample_WordMap
  ∧ (∃ wm',
       associateOrg sample_WordMap "acme" "b.json" = Some wm' ∧ wf_WordMap wm'
       ∧ nameIndex wm' = nameIndex sample_WordMap
       ∧ wordIndex wm' = wordIndex sample_WordMap
       ∧ ∀ key f,
           getFilesByOrg wm' key !! f =
             if decide (key = "acme" ∧ f = "b.json")
             then Some (wrap_int
                          (default 0 (getFilesByOrg sample_WordMap "acme"
                                        !! "b.json") + 1))
             else getFilesByOrg sample_WordMap key !! f)
  ∧ (∃ wm',
       associateName sample_WordMap "acme" "b.json" = Some wm'
       ∧ wf_WordMap wm'
       ∧ orgIndex wm' = orgIndex sample_WordMap
       ∧ wordIndex wm' = wordIndex sample_WordMap
       ∧ ∀ key f,
           getFilesByName wm' key !! f =
             if decide (key = "acme" ∧ f = "b.json")
             then Some (wrap_int
                          (default 0 (getFilesByName sample_WordMap "acme"
                                        !! "b.json") + 1))
             else getFilesByName sample_WordMap key !! f).
Proof.
  assert (H : wf_WordMap sample_WordMap).
  { unfold wf_WordMap, wf_index. cbn. split_and!; (done || lia). }
  split; [exact H|].
  apply (associateEntity_counts sample_WordMap "acme" "b.json" H).
Defined.

(** * Further properties of ingestion *)

Lemma wrap_int_add (a b : Z) : wrap_int (wrap_int a + b) = wrap_int (a + b).
Proof.
  unfold wrap_int.
  replace ((a + 2 ^ 31) `mod` 2 ^ 32 - 2 ^ 31 + b + 2 ^ 31)
    with ((a + 2 ^ 31) `mod` 2 ^ 32 + b) by lia.
  rewrite Z.add_mod_idemp_l by lia.
  replace (a + 2 ^ 31 + b) with (a + b + 2 ^ 31) by lia. done.
Qed.

Lemma for_each_invariant {A S} (P : S → Prop) (body : S → A → option S)
    (xs : list A) (s : S) :
  (∀ s x, P s → ∃ s', body s x = Some s' ∧ P s') →
  P s → ∃ s', for_each body xs s = Some s' ∧ P s'.
Proof.
  intros Hbody. revert s. induction xs as [|x xs IH]; intros s Hs.
  - by exists s.
  - cbn [for_each]. destruct (Hbody s x Hs) as (s1 & -> & Hs1).
    cbn [mbind option_bind]. by apply IH.
Qed.

Section WordCounts.
Variable more_stopwords : list string.
Variable file : string.

Lemma occurrences_cons (term w : string) (words : list string) :
  occurrences more_stopwords term (w :: words) =
    (if decide (processWord more_stopwords w = term) then 1 else 0)
    + occurrences more_stopwords term words.
Proof.
  unfold occurrences. case_decide as Hw.
  - rewrite filter_cons_True by done. cbn [length]. lia.
  - by rewrite filter_cons_False.
Qed.

Lemma occurrences_nonneg (term : string) (words : list string) :
  0 ≤ occurrences more_stopwords term words.
Proof. unfold occurrences. lia. Qed.

(** The third loop of ingestion: for every term and file, the count
    after the loop. *)
Lemma word_loop_counts (words : list string) (wm : WordMap) :
  wf_WordMap wm →
  ∃ wm',
    for_each (word_body more_stopwords file) words wm = Some wm'
    ∧ wf_WordMap wm'
    ∧ orgIndex wm' = orgIndex wm ∧ nameIndex wm' = nameIndex wm
    ∧ ∀ term f,
        getFilesByWord wm' term !! f =
          if decide (term ≠ "" ∧ f = file
                     ∧ 0 < occurrences more_stopwords term words)
          then Some (wrap_int
                       (default 0 (getFilesByWord wm term !! file)
                        + occurrences more_stopwords term words))
          else getFilesByWord wm term !! f.
Proof.
  revert wm. induction words as [|w words IH]; intros wm Hwf.
  - exists wm. split_and!; [done..|]. intros term f.
    rewrite decide_False; [done|]. intros (_ & _ & Hn). by vm_compute in Hn.
  - cbn [for_each].
    set (pw := processWord more_stopwords w).
    change (word_body more_stopwords file wm w)
      with (if negb (String.eqb pw "") then associateWord wm pw file
            else Some wm).
    assert (Hstep : ∃ wm1,
              (if negb (String.eqb pw "") then associateWord wm pw file
               else Some wm) = Some wm1
              ∧ wf_WordMap wm1
              ∧ orgIndex wm1 = orgIndex wm ∧ nameIndex wm1 = nameIndex wm
              ∧ ∀ key f,
                  getFilesByWord wm1 key !! f =
                    if decide (key = pw ∧ f = file ∧ pw ≠ "")
                    then Some (wrap_int
                                 (default 0 (getFilesByWord wm pw !! file) + 1))
                    else getFilesByWord wm key !! f).
    { destruct (String.eqb_spec pw "") as [Hpw|Hpw]; cbn [negb].
      - exists wm. split_and!; [done..|]. intros key f.
        rewrite decide_False; [done|]. by intros (_ & _ & ?).
      - destruct (associateWord_postings wm pw file Hwf)
          as (wm1 & ? & ? & ? & ? & _ & ?).
        by exists wm1. }
    destruct Hstep as (wm1 & -> & Hwf1 & Ho1 & Hn1 & Hpost1).
    cbn [mbind option_bind].
    destruct (IH wm1 Hwf1) as (wm' & -> & Hwf' & Ho & Hn & Hpost).
    exists wm'. split_and!; [done|done|congruence|congruence|].
    intros term f. rewrite Hpost, occurrences_cons. fold pw.
    pose proof (occurrences_nonneg term words) as Hnn.
    rewrite !Hpost1.
    destruct (decide (term ≠ "" ∧ f = file)) as [[Hterm ->]|Hnot].
    + destruct (decide (pw = term)) as [Heq|Hne].
      * subst term.
        rewrite (decide_True (P := pw = pw ∧ file = file ∧ pw ≠ "")) by done.
        rewrite (decide_True (P := pw ≠ "" ∧ file = file ∧ 0 < 1 + _))
          by (split_and!; [done..|lia]).
        destruct (decide (pw ≠ "" ∧ file = file
                          ∧ 0 < occurrences more_stopwords pw words))
          as [Hd|Hd].
        -- cbn [default]. unfold id. rewrite wrap_int_add.
           do 2 apply f_equal. lia.
        -- do 2 apply f_equal.
           assert (occurrences more_stopwords pw words = 0) as ->; [|lia].
           destruct (decide (0 < occurrences more_stopwords pw words));
             [|lia]. exfalso. by apply Hd.
      * rewrite (decide_False (P := term = pw ∧ file = file ∧ pw ≠ ""))
          by (intros (? & _); congruence).
        replace (0 + occurrences more_stopwords term words)
          with (occurrences more_stopwords term words) by lia.
        done.
    + rewrite (decide_False (P := _ ∧ _ ∧ 0 < occurrences _ term words))
        by (intros (? & ? & _); by apply Hnot).
      rewrite (decide_False (P := term ≠ "" ∧ f = file ∧ _))
        by (intros (? & ? & _); by apply Hnot).
      rewrite decide_False; [done|].
      intros (-> & -> & ?). by apply Hnot.
Qed.
End WordCounts.

(** The word index after ingesting one document into a well-formed
    index set: ingestion returns; under every non-empty term that is the
    processed form of [n > 0] body words, the count of the document is
    its old count (zero when there was none) plus [n], wrapped to an
    [int]; every other count of the word index is as before. *)
Theorem index_document_word_counts (more_stopwords : list string)
    (wm : WordMap) (doc : document) :
  wf_WordMap wm →
  ∃ wm',
    index_document more_stopwords wm doc = Some wm' ∧ wf_WordMap wm'
    ∧ ∀ term f,
        getFilesByWord wm' term !! f =
          if decide (term ≠ "" ∧ f = filePath doc
                     ∧ 0 < occurrences more_stopwords term (bodyWords doc))
          then Some (wrap_int
                       (default 0 (getFilesByWord wm term !! filePath doc)
                        + occurrences more_stopwords term (bodyWords doc)))
          else getFilesByWord wm term !! f.
Proof.
  intros Hwf. unfold index_document.
  destruct (for_each_invariant
              (λ wm', wf_WordMap wm' ∧ wordIndex wm' = wordIndex wm)
              (λ wm word, associateOrg wm (tolower word) (filePath doc))
              (organizations doc) wm) as (wm1 & -> & Hwf1 & Hw1); [|done|].
  { intros wm0 x [Hwf0 Hw0]. unfold associateOrg.
    destruct Hwf0 as (Ho & Hn & Hw).
    destruct (associate_spec (orgIndex wm0) (tolower x) (filePath doc) Ho)
      as (idx & -> & Hidx & _).
    eexists. split; [done|]. by split. }
  cbn [mbind option_bind].
  destruct (for_each_invariant
              (λ wm', wf_WordMap wm' ∧ wordIndex wm' = wordIndex wm)
              (λ wm word, associateName wm (tolower word) (filePath doc))
              (persons doc) wm1) as (wm2 & -> & Hwf2 & Hw2); [|done|].
  { intros wm0 x [Hwf0 Hw0]. unfold associateName.
    destruct Hwf0 as (Ho & Hn & Hw).
    destruct (associate_spec (nameIndex wm0) (tolower x) (filePath doc) Hn)
      as (idx & -> & Hidx & _).
    eexists. split; [done|]. by split. }
  cbn [mbind option_bind].
  destruct (word_loop_counts more_stopwords (filePath doc) (bodyWords doc)
              wm2 Hwf2) as (wm' & -> & Hwf' & _ & _ & Hpost).
  exists wm'. split_and!; [done..|].
  intros term f. rewrite Hpost.
  rewrite !(getFilesByWord_lookup wm2), Hw2, <- !getFilesByWord_lookup. done.
Qed.

Lemma index_document_word_counts_witness :
  wf_WordMap sample_WordMap
  ∧ ∃ wm',
      index_document [] sample_WordMap sample_document = Some wm'
      ∧ wf_WordMap wm'
      ∧ ∀ term f,
          getFilesByWord wm' term !! f =
            if decide (term ≠ "" ∧ f = filePath sample_document
                       ∧ 0 < occurrences [] term (bodyWords sample_document))
            then Some (wrap_int
                         (default 0 (getFilesByWord sample_WordMap term
                                       !! filePath sample_document)
                          + occurrences [] term (bodyWords sample_document)))
            else getFilesByWord sample_WordMap term !! f.
Proof.
  assert (H : wf_WordMap sample_WordMap).
  { unfold wf_WordMap, wf_index. cbn. split_and!; (done || lia). }
  split; [exact H|].
  apply (index_document_word_counts [] sample_WordMap sample_document H).
Defined.

(** The body of [sample_document] has three words that stem to "run" and
    one stopword. *)
Example sample_document_indexed :
  ∃ wm',
    index_document [] sample_WordMap sample_document = Some wm'
    ∧ getFilesByWord wm' "run" = {[ "a.json" := 1; "b.json" := 3 ]}
    ∧ getFilesByWord wm' "and" = ∅
    ∧ getFilesByOrg wm' "acme" = {[ "a.json" := 1; "b.json" := 1 ]}.
Proof. eexists. split_and!; vm_compute; reflexivity. Qed.

Lemma postings_kept_refl (wm : WordMap) : postings_kept wm wm.
Proof. by intros key f. Qed.

Lemma postings_kept_trans (wm1 wm2 wm3 : WordMap) :
  postings_kept wm1 wm2 → postings_kept wm2 wm3 → postings_kept wm1 wm3.
Proof.
  intros H12 H23 key f.
  destruct (H12 key f) as (? & ? & ?). destruct (H23 key f) as (? & ? & ?).
  split_and!; auto.
Qed.

(** One association keeps every posting of the index and adds that of
    the term and the file. *)
Lemma associate_keeps (idx idx' : AVLTree posting) (term filepath : string) :
  wf_index idx → associate idx term filepath = Some idx' →
  (∀ key f, f ∈ dom (default ∅ (lookup_key (root idx) key)) →
            f ∈ dom (default ∅ (lookup_key (root idx') key)))
  ∧ filepath ∈ dom (default ∅ (lookup_key (root idx') term)).
Proof.
  intros Hwf Hassoc.
  destruct (associate_postings idx idx' term filepath Hwf Hassoc) as [_ Hpost].
  split.
  - intros key f. rewrite !elem_of_dom, Hpost.
    by destruct (decide (key = term ∧ f = filepath)).
  - rewrite elem_of_dom, Hpost. by rewrite decide_True.
Qed.

Section Findable.
Variable more_stopwords : list string.

Lemma associateOrg_keeps (wm : WordMap) (org filepath : string) :
  wf_WordMap wm →
  ∃ wm',
    associateOrg wm org filepath = Some wm' ∧ wf_WordMap wm'
    ∧ postings_kept wm wm' ∧ filepath ∈ dom (getFilesByOrg wm' org).
Proof.
  intros (Ho & Hn & Hw). unfold associateOrg.
  destruct (associate_spec (orgIndex wm) org filepath Ho)
    as (idx & Hassoc & Hidx & _).
  rewrite Hassoc. cbn [mbind option_bind].
  destruct (associate_keeps _ _ _ _ Ho Hassoc) as [Hkeep Hnew].
  eexists. split; [done|]. split_and!; [done..| |].
  - intros key f. rewrite !getFilesByOrg_lookup. cbn [orgIndex].
    split_and!; [apply Hkeep|done..].
  - rewrite getFilesByOrg_lookup. done.
Qed.

Lemma associateName_keeps (wm : WordMap) (name filepath : string) :
  wf_WordMap wm →
  ∃ wm',
    associateName wm name filepath = Some wm' ∧ wf_WordMap wm'
    ∧ postings_kept wm wm' ∧ filepath ∈ dom (getFilesByName wm' name).
Proof.
  intros (Ho & Hn & Hw). unfold associateName.
  destruct (associate_spec (nameIndex wm) name filepath Hn)
    as (idx & Hassoc & Hidx & _).
  rewrite Hassoc. cbn [mbind option_bind].
  destruct (associate_keeps _ _ _ _ Hn Hassoc) as [Hkeep Hnew].
  eexists. split; [done|]. split_and!; [done..| |].
  - intros key f. rewrite !getFilesByName_lookup. cbn [nameIndex].
    split_and!; [done|apply Hkeep|done].
  - rewrite getFilesByName_lookup. done.
Qed.

Lemma word_body_keeps (wm : WordMap) (word filepath : string) :
  wf_WordMap wm →
  ∃ wm',
    word_body more_stopwords filepath wm word = Some wm' ∧ wf_WordMap wm'
    ∧ postings_kept wm wm'
    ∧ (processWord more_stopwords word ≠ "" →
       filepath ∈ dom (getFilesByWord wm' (processWord more_stopwords word))).
Proof.
  intros Hwf. pose proof Hwf as (Ho & Hn & Hw). unfold word_body.
  destruct (String.eqb_spec (processWord more_stopwords word) "") as [->|Hne];
    cbn [negb].
  - exists wm. split_and!; [done..|apply postings_kept_refl|done].
  - unfold associateWord.
    apply String.eqb_neq in Hne as Hne'. rewrite Hne'.
    destruct (associate_spec (wordIndex wm) (processWord more_stopwords word)
                filepath Hw) as (idx & Hassoc & Hidx & _).
    rewrite Hassoc. cbn [mbind option_bind].
    destruct (associate_keeps _ _ _ _ Hw Hassoc) as [Hkeep Hnew].
    eexists. split; [done|]. split_and!; [done..| |].
    + intros key f. rewrite !getFilesByWord_lookup. cbn [wordIndex].
      split_and!; [done..|apply Hkeep].
    + intros _. rewrite getFilesByWord_lookup. done.
Qed.

(** A loop whose every step keeps the postings and adds the one of its
    element leaves all of them in place. *)
Lemma for_each_posts {A} (body : WordMap → A → option WordMap)
    (posted : WordMap → A → Prop) (xs : list A) (wm : WordMap) :
  (∀ wm wm' x, postings_kept wm wm' → posted wm x → posted wm' x) →
  (∀ wm x, wf_WordMap wm →
     ∃ wm', body wm x = Some wm' ∧ wf_WordMap wm'
            ∧ postings_kept wm wm' ∧ posted wm' x) →
  wf_WordMap wm →
  ∃ wm',
    for_each body xs wm = Some wm' ∧ wf_WordMap wm'
    ∧ postings_kept wm wm' ∧ ∀ x, x ∈ xs → posted wm' x.
Proof.
  intros Hmono Hbody. revert wm.
  induction xs as [|x xs IH]; intros wm Hwf.
  - exists wm. split_and!; [done..|apply postings_kept_refl|].
    by intros x ?%elem_of_nil.
  - cbn [for_each].
    destruct (Hbody wm x Hwf) as (wm1 & -> & Hwf1 & Hkeep1 & Hx).
    cbn [mbind option_bind].
    destruct (IH wm1 Hwf1) as (wm' & -> & Hwf' & Hkeep & Hxs).
    exists wm'. split_and!; [done..| |].
    + by apply (postings_kept_trans wm wm1 wm').
    + intros y [->|Hy]%elem_of_cons; [|by apply Hxs].
      by apply (Hmono wm1 wm').
Qed.

Lemma index_document_posts (wm : WordMap) (doc : document) :
  wf_WordMap wm →
  ∃ wm',
    index_document more_stopwords wm doc = Some wm' ∧ wf_WordMap wm'
    ∧ postings_kept wm wm' ∧ document_posted more_stopwords wm' doc.
Proof.
  intros Hwf. unfold index_document.
  destruct (for_each_posts
              (λ wm word, associateOrg wm (tolower word) (filePath doc))
              (λ wm word, filePath doc ∈ dom (getFilesByOrg wm (tolower word)))
              (organizations doc) wm)
    as (wm1 & -> & Hwf1 & Hkeep1 & Horgs); [| |done|].
  { intros wm0 wm0' x Hk. apply Hk. }
  { intros wm0 x. apply associateOrg_keeps. }
  cbn [mbind option_bind].
  destruct (for_each_posts
              (λ wm word, associateName wm (tolower word) (filePath doc))
              (λ wm word, filePath doc ∈ dom (getFilesByName wm (tolower word)))
              (persons doc) wm1)
    as (wm2 & -> & Hwf2 & Hkeep2 & Hnames); [| |done|].
  { intros wm0 wm0' x Hk. apply Hk. }
  { intros wm0 x. apply associateName_keeps. }
  cbn [mbind option_bind].
  destruct (for_each_posts
              (word_body more_stopwords (filePath doc))
              (λ wm word,
                 processWord more_stopwords word ≠ "" →
                 filePath doc
                   ∈ dom (getFilesByWord wm (processWord more_stopwords word)))
              (bodyWords doc) wm2)
    as (wm' & -> & Hwf' & Hkeep3 & Hwords); [| |done|].
  { intros wm0 wm0' x Hk Hx Hne. by apply Hk, Hx. }
  { intros wm0 x. apply word_body_keeps. }
  exists wm'. split_and!; [done..| |].
  - eauto using postings_kept_trans.
  - split_and!.
    + intros org Hin. apply Hkeep3, Hkeep2. by apply Horgs.
    + intros name Hin. apply Hkeep3. by apply Hnames.
    + done.
Qed.
End Findable.

(** [buildFromScratch] on a well-formed index set returns and keeps it
    well formed; it removes no posting; and afterwards every document of
    the corpus is in the posting map of each of its organisations and
    persons in lower case, and of the processed form of each body word
    that [processWord] does not drop. *)
Theorem buildFromScratch_posts_every_term (more_stopwords : list string)
    (corpus : list document) (wm : WordMap) :
  wf_WordMap wm →
  ∃ wm',
    buildFromScratch more_stopwords corpus wm = Some wm' ∧ wf_WordMap wm'
    ∧ postings_kept wm wm'
    ∧ ∀ doc, doc ∈ corpus → document_posted more_stopwords wm' doc.
Proof.
  intros Hwf. unfold buildFromScratch.
  apply for_each_posts; [| |done].
  - intros wm0 wm0' doc Hk (Ho & Hn & Hw). split_and!.
    + intros org Hin. by apply Hk, Ho.
    + intros name Hin. by apply Hk, Hn.
    + intros word Hin Hne. by apply Hk, Hw.
  - intros wm0 doc. apply index_document_posts.
Qed.

Lemma buildFromScratch_posts_every_term_witness :
  wf_WordMap empty_WordMap
  ∧ ∃ wm',
      buildFromScratch [] [the_document; sample_document] empty_WordMap
      = Some wm'
      ∧ wf_WordMap wm'
      ∧ postings_kept empty_WordMap wm'
      ∧ ∀ doc, doc ∈ [the_document; sample_document] →
               document_posted [] wm' doc.
Proof.
  assert (H : wf_WordMap empty_WordMap).
  { unfold wf_WordMap, wf_index. cbn. done. }
  split; [exact H|].
  apply (buildFromScratch_posts_every_term []
           [the_document; sample_document] empty_WordMap H).
Defined.

(** * Further properties of the text normaliser *)

Lemma replaceSuffix_append (p suffix replacement : string) :
  replaceSuffix (p +:+ suffix) suffix replacement = p +:+ replacement.
Proof.
  unfold replaceSuffix. rewrite length_append.
  replace (String.length p + String.length suffix - String.length suffix)%nat
    with (String.length p) by lia.
  rewrite substr_append_r, String.eqb_refl, substr_append_l.
  destruct (_ <=? _)%nat eqn:H; [done|]. apply Nat.leb_gt in H. lia.
Qed.

Lemma replaceSuffix_no_suffix (str suffix replacement : string) :
  endsWith str suffix = false → replaceSuffix str suffix replacement = str.
Proof.
  unfold endsWith, replaceSuffix. intros H.
  destruct (String.length str <? String.length suffix)%nat eqn:Hlt.
  - apply Nat.ltb_lt in Hlt.
    destruct (_ <=? _)%nat eqn:Hle; [apply Nat.leb_le in Hle; lia|done].
  - rewrite H. by rewrite andb_false_r.
Qed.

(** [endsWith] and [replaceSuffix] do what their names say: the first
    holds exactly of a prefix followed by the suffix, the second swaps
    the suffix of such a string for the replacement and leaves every
    other string alone. *)
Theorem endsWith_replaceSuffix_spec (str suffix replacement : string) :
  (endsWith str suffix = true ↔ ∃ p, str = p +:+ suffix)
  ∧ (∀ p, replaceSuffix (p +:+ suffix) suffix replacement = p +:+ replacement)
  ∧ (replaceSuffix str suffix replacement ≠ str → endsWith str suffix = true)
  ∧ (String.length (replaceSuffix str suffix replacement)
     ≤ String.length str + String.length replacement)%nat.
Proof.
  split_and!.
  - apply endsWith_spec.
  - intros p. apply replaceSuffix_append.
  - intros Hne. destruct (endsWith str suffix) eqn:E; [done|].
    by rewrite replaceSuffix_no_suffix in Hne.
  - destruct (length_replaceSuffix str suffix replacement) as [->|[_ ->]]; lia.
Qed.

Lemma length_step1a_le (x : string) :
  (String.length (step1a x) ≤ String.length x)%nat.
Proof.
  unfold step1a.
  destruct (endsWith x "sses") eqn:H1.
  { apply endsWith_spec in H1 as [p ->].
    rewrite replaceSuffix_append, !length_append. simpl. lia. }
  destruct (endsWith x "ies") eqn:H2.
  { apply endsWith_spec in H2 as [p ->].
    rewrite replaceSuffix_append, !length_append. simpl. lia. }
  destruct (endsWith x "ss"); [done|].
  destruct (endsWith x "s"); [|done].
  rewrite length_pop_back. lia.
Qed.

Lemma length_step1b_fixup_le (x : string) :
  (String.length (step1b_fixup x) ≤ String.length x + 1)%nat.
Proof.
  unfold step1b_fixup.
  destruct (_ || _); [rewrite length_append; simpl; lia|].
  destruct (endsWithDoubleConsonant x && negb (endsWith x "l")
            && negb (endsWith x "s") && negb (endsWith x "z")).
  - rewrite length_pop_back. lia.
  - destruct ((measureConsecutiveVC x =? 1) && endsWithCVC x);
      [rewrite length_append; simpl|]; lia.
Qed.

Lemma length_step1b_le (x : string) :
  (String.length (step1b x) ≤ String.length x)%nat.
Proof.
  unfold step1b.
  destruct (endsWith x "eed") eqn:Heed.
  { destruct (0 <? _); [|done].
    apply endsWith_spec in Heed as [p ->].
    rewrite replaceSuffix_append, !length_append. simpl. lia. }
  destruct (endsWith x "ed") eqn:Hed.
  - destruct (_ || _); [|done].
    apply endsWith_spec in Hed as [p ->].
    rewrite replaceSuffix_append, length_append.
    pose proof (length_step1b_fixup_le (p +:+ "")) as H.
    rewrite length_append in H. simpl in *. lia.
  - cbn [andb orb]. destruct (endsWith x "ing") eqn:Hing; cbn [andb]; [|done].
    destruct (hasVowel _); [|done].
    apply endsWith_spec in Hing as [p ->].
    rewrite replaceSuffix_append, length_append.
    pose proof (length_step1b_fixup_le (p +:+ "")) as H.
    rewrite length_append in H. simpl in *. lia.
Qed.

Lemma length_step1c_le (x : string) :
  (String.length (step1c x) ≤ String.length x)%nat.
Proof.
  unfold step1c. destruct (endsWith x "y") eqn:Hy; cbn [andb]; [|done].
  destruct (hasVowel _); [|done].
  apply endsWith_length in Hy. simpl in Hy.
  rewrite length_append, length_substr by lia. simpl. lia.
Qed.

(** The stem of a word is never longer than the word, and it is empty
    only for the empty word. *)
Theorem stem_length (w : string) :
  (String.length (stem w) ≤ String.length w)%nat
  ∧ (stem w = "" ↔ w = "").
Proof.
  split.
  - destruct (decide (String.length w ≤ 2)%nat) as [Hshort|Hlong].
    + by rewrite stem_short.
    + rewrite stem_long by lia. rewrite <- (length_tolower w).
      etrans; [apply length_step1c_le|].
      etrans; [apply length_step1b_le|]. apply length_step1a_le.
  - split.
    + intros Hs. destruct (decide (w = "")) as [|Hne]; [done|].
      by apply stem_nonempty in Hne.
    + by intros ->.
Qed.

(** On a word of more than two characters [stem] ignores the case of
    the letters, and its result has no upper-case letter. *)
Theorem stem_ignores_case (w : string) :
  (2 < String.length w)%nat →
  stem w = stem (tolower w) ∧ has_upper (stem w) = false.
Proof.
  intros H. split; [by apply stem_tolower|by apply has_upper_stem].
Qed.

Lemma stem_ignores_case_witness :
  (2 < String.length "RUNNING")%nat
  ∧ stem "RUNNING" = stem (tolower "RUNNING")
  ∧ has_upper (stem "RUNNING") = false.
Proof.
  assert (H : (2 < String.length "RUNNING")%nat) by (simpl; lia).
  split; [exact H|]. apply (stem_ignores_case "RUNNING" H).
Defined.

(** [processWord] returns the empty string, the sign to drop the token,
    exactly for the stopwords and for the empty token. *)
Theorem processWord_empty_iff (more_stopwords : list string) (w : string) :
  processWord more_stopwords w = ""
  ↔ isStopword more_stopwords w = true ∨ w = "".
Proof.
  unfold processWord. destruct (isStopword more_stopwords w).
  - split; [by left|done].
  - split.
    + intros Hs. right. destruct (decide (w = "")) as [|Hne]; [done|].
      by apply stem_nonempty in Hne.
    + intros [?| ->]; done.
Qed.

Section Measure.
Variable str : string.

Lemma measure_fold_ge (l : list nat) (m : Z) (c : bool) :
  m ≤ (fold_left (measure_step str) l (m, c)).1.
Proof.
  revert m c. induction l as [|i l IH]; intros m c; simpl; [lia|].
  destruct (c && negb (isConsonant str i)).
  - etrans; [|apply IH]. lia.
  - apply IH.
Qed.

Lemma measure_fold_consonants (l : list nat) (m : Z) (c : bool) :
  existsb (λ i, negb (isConsonant str i)) l = false →
  (fold_left (measure_step str) l (m, c)).1 = m.
Proof.
  revert m c. induction l as [|i l IH]; intros m c; simpl; [done|].
  intros [Hi Hl]%orb_false_iff. apply negb_false_iff in Hi.
  rewrite Hi, andb_false_r. by apply IH.
Qed.

Lemma measure_fold_vowel (l : list nat) (m : Z) :
  existsb (λ i, negb (isConsonant str i)) l = true →
  m + 1 ≤ (fold_left (measure_step str) l (m, true)).1.
Proof.
  revert m. induction l as [|i l IH]; intros m; simpl; [done|].
  destruct (isConsonant str i) eqn:Hi; simpl.
  - apply IH.
  - intros _. apply measure_fold_ge.
Qed.

Lemma measure_positive : (0 <? measureConsecutiveVC str) = hasVowel str.
Proof.
  unfold measureConsecutiveVC, hasVowel.
  destruct (existsb _ _) eqn:Hv.
  - apply measure_fold_vowel with (m := 0) in Hv. lia.
  - by rewrite (measure_fold_consonants _ 0 true Hv).
Qed.
End Measure.

(** The measure of a word is positive exactly when the word has a
    vowel; so a final "eed" becomes "ee" exactly when a vowel comes
    before it. *)
Theorem measure_positive_iff_vowel (p : string) :
  (0 < measureConsecutiveVC p ↔ hasVowel p = true)
  ∧ step1b (p +:+ "eed") = (if hasVowel p then p +:+ "ee" else p +:+ "eed").
Proof.
  pose proof (measure_positive p) as Hm. split.
  - rewrite <- Hm. symmetry. apply Z.ltb_lt.
  - unfold step1b.
    assert (Heed : endsWith (p +:+ "eed") "eed" = true)
      by (apply endsWith_spec; by exists p).
    rewrite Heed, length_append. simpl String.length.
    replace (String.length p + 3 - 3)%nat with (String.length p) by lia.
    rewrite substr_append_l, Hm.
    destruct (hasVowel p); [|done]. apply replaceSuffix_append.
Qed.

(** * Further properties of query parsing *)

Lemma is_space_tolower_char (c : ascii) :
  is_space (tolower_char c) = is_space c.
Proof. by destruct c as [[] [] [] [] [] [] [] []]. Qed.

Lemma tolower_append (a b : string) :
  tolower (a +:+ b) = tolower a +:+ tolower b.
Proof.
  induction a as [|c a IH]; str_simpl; [done|].
  simpl. by rewrite IH.
Qed.

Lemma tolower_idemp (s : string) : tolower (tolower s) = tolower s.
Proof. apply tolower_id, has_upper_tolower. Qed.

Lemma tolower_eq_empty (s : string) :
  String.eqb (tolower s) "" = String.eqb s "".
Proof. by destruct s. Qed.

Lemma split_ws_tolower (s cur : string) :
  split_ws (tolower s) (tolower cur) = tolower <$> split_ws s cur.
Proof.
  revert cur. induction s as [|c s IH]; intros cur; simpl.
  - rewrite tolower_eq_empty. by destruct (String.eqb cur "").
  - rewrite is_space_tolower_char. destruct (is_space c).
    + rewrite tolower_eq_empty, fmap_app. change "" with (tolower "") at 2.
      rewrite IH. by destruct (String.eqb cur "").
    + rewrite <- IH. by rewrite tolower_append.
Qed.

Section ParseTerms.
Variable more_stopwords : list string.

Lemma has_upper_stem_lower (x : string) :
  has_upper x = false → has_upper (stem x) = false.
Proof.
  intros Hx. destruct (decide (String.length x ≤ 2)%nat) as [Hshort|Hlong].
  - by rewrite stem_short.
  - apply has_upper_stem. lia.
Qed.

Lemma has_upper_processWord (x : string) :
  has_upper x = false → has_upper (processWord more_stopwords x) = false.
Proof.
  intros Hx. unfold processWord.
  destruct (isStopword more_stopwords x); [done|].
  by apply has_upper_stem_lower.
Qed.

Lemma classify_lowercase (token term : string) :
  has_upper token = false →
  classify more_stopwords token = Some term →
  term ≠ "" ∧ has_upper term = false.
Proof.
  intros Hup. unfold classify.
  destruct (starts_with "org:" token || starts_with "person:" token) eqn:Hpre.
  - intros [= <-]. split; [|done]. intros ->. by vm_compute in Hpre.
  - destruct (starts_with "-" token).
    + destruct (String.eqb_spec
                  (processWord more_stopwords
                     (substr token 1 (String.length token - 1))) "")
        as [|Hne]; [done|].
      intros [= <-]. split; [done|].
      rewrite has_upper_append. simpl.
      by apply has_upper_processWord, has_upper_substr.
    + destruct (String.eqb_spec (processWord more_stopwords token) "")
        as [|Hne]; [done|].
      intros [= <-]. split; [done|]. by apply has_upper_processWord.
Qed.
End ParseTerms.

(** Parsing a query made of two parts with a white-space character
    between them gives the union of the terms of the parts: the terms of
    a query do not depend on the order of its words. *)
Theorem parse_union (more_stopwords : list string) (a b : string)
    (c : ascii) :
  is_space c = true →
  parse more_stopwords (a +:+ String c b)
  = parse more_stopwords a ∪ parse more_stopwords b
  ∧ parse more_stopwords (a +:+ String c b)
    = parse more_stopwords (b +:+ String c a).
Proof.
  intros Hc. rewrite !parse_refines_spec, !parse_spec_app by done.
  split; [done|]. apply (comm_L (∪)).
Qed.

Lemma parse_union_witness :
  is_space " " = true
  ∧ parse [] ("profit" +:+ String " " "-loss")
    = parse [] "profit" ∪ parse [] "-loss"
  ∧ parse [] ("profit" +:+ String " " "-loss")
    = parse [] ("-loss" +:+ String " " "profit").
Proof.
  assert (H : is_space " " = true) by reflexivity.
  split; [exact H|]. apply (parse_union [] "profit" "-loss" " " H).
Defined.

(** Parsing ignores the case of the letters of the query. *)
Theorem parse_ignores_case (more_stopwords : list string) (q : string) :
  parse more_stopwords (tolower q) = parse more_stopwords q.
Proof.
  rewrite !parse_refines_spec. unfold parse_spec.
  change "" with (tolower "") at 1. rewrite split_ws_tolower.
  rewrite <- list_fmap_compose. f_equal. f_equal.
  apply list_fmap_ext. intros i t _. simpl. apply tolower_idemp.
Qed.

(** No term of a parsed query is empty, and none has an upper-case
    letter. *)
Theorem parse_terms_lowercase (more_stopwords : list string)
    (q term : string) :
  term ∈ parse more_stopwords q → term ≠ "" ∧ has_upper term = false.
Proof.
  rewrite parse_refines_spec. unfold parse_spec.
  rewrite elem_of_list_to_set, list_elem_of_omap.
  intros (t & Ht & Hc). apply list_elem_of_fmap in Ht as (token & -> & _).
  apply (classify_lowercase more_stopwords (tolower token)); [|done].
  apply has_upper_tolower.
Qed.

Lemma parse_terms_lowercase_witness :
  "run" ∈ parse ["the"] "Running -The org:ACME"
  ∧ "run" ≠ "" ∧ has_upper "run" = false.
Proof.
  assert (H : "run" ∈ parse ["the"] "Running -The org:ACME")
    by (apply (bool_decide_unpack _); vm_compute; exact I).
  split; [exact H|].
  apply (parse_terms_lowercase ["the"] "Running -The org:ACME" "run" H).
Defined.

(** The terms of "Running -The org:ACME" with "the" among the
    stopwords. *)
Example parse_sample :
  parse ["the"] "Running -The org:ACME" = {[ "run"; "org:acme" ]}.
Proof. by vm_compute. Qed.

(** * Properties of the command line and of the result list *)


Lemma display_loop_spec (results : list string) (count k : Z) (f : string) :
  0 ≤ count →
  (k, f) ∈ display_loop results count ↔
    count < k ≤ 15 ∧ results !! Z.to_nat (k - count - 1) = Some f.
Proof.
  revert count. induction results as [|r results IH]; intros count Hc; simpl.
  - split; [by intros ?%elem_of_nil|]. by intros [_ ?].
  - destruct (15 <=? count) eqn:E.
    + apply Z.leb_le in E. split; [by intros ?%elem_of_nil|]. lia.
    + apply Z.leb_gt in E. rewrite elem_of_cons, IH by lia.
      split.
      * intros [[= -> ->]|[Hk Hf]].
        -- split; [lia|]. by replace (count + 1 - count - 1) with 0 by lia.
        -- split; [lia|].
           replace (Z.to_nat (k - count - 1))
             with (S (Z.to_nat (k - (count + 1) - 1))) by lia.
           done.
      * intros [Hk Hf]. destruct (decide (k = count + 1)) as [->|Hne].
        -- left. replace (count + 1 - count - 1) with 0 in Hf by lia.
           simpl in Hf. congruence.
        -- right. split; [lia|].
           replace (Z.to_nat (k - count - 1))
             with (S (Z.to_nat (k - (count + 1) - 1))) in Hf by lia.
           done.
Qed.

(** For a result list of fewer than 2^31 entries, [displayResults]
    lists the first fifteen results, numbered from one in their order,
    and adds its note exactly when there are more; the numbers
    [handleSearch] accepts are exactly the numbers listed, and the result
    it shows for a number is the one listed under it. *)
Theorem displayed_results_are_selectable (results : list string) (k : Z)
    (f : string) :
  Z.of_nat (length results) < 2 ^ 31 →
  ((k, f) ∈ (displayResults results).1 ↔
     valid_result_number results k = true ∧ chosen_result results k = Some f)
  ∧ (displayResults results).1.*2 = take 15 results
  ∧ ((displayResults results).2 = true ↔ (15 < length results)%nat).
Proof.
  intros Hsize.
  unfold displayResults, valid_result_number, chosen_result. cbn [fst snd].
  assert (wrap_int (Z.of_nat (length results)) = Z.of_nat (length results))
    as ->.
  { unfold wrap_int. rewrite Z.mod_small by lia. lia. }
  split_and!.
  - rewrite display_loop_spec by lia.
    replace (k - 0 - 1) with (k - 1) by lia.
    rewrite andb_true_iff, Z.ltb_lt, Z.leb_le. split.
    + intros [Hk Hf]. split; [|done].
      apply lookup_lt_Some in Hf. lia.
    + intros [Hk Hf]. split; [lia|done].
  - assert (∀ count, 0 ≤ count →
              (display_loop results count).*2
              = take (Z.to_nat (15 - count)) results) as Hgen.
    { clear Hsize.
      induction results as [|r results IH]; intros count Hc; simpl.
      - by rewrite take_nil.
      - destruct (15 <=? count) eqn:E.
        + apply Z.leb_le in E.
          by replace (Z.to_nat (15 - count)) with 0%nat by lia.
        + apply Z.leb_gt in E. cbn [fmap list_fmap snd].
          replace (Z.to_nat (15 - count))
            with (S (Z.to_nat (15 - (count + 1)))) by lia.
          cbn [take]. f_equal. by apply IH; lia. }
    by rewrite Hgen.
  - apply Nat.ltb_lt.
Qed.

Lemma displayed_results_are_selectable_witness :
  Z.of_nat (length ["a.json"; "b.json"]) < 2 ^ 31
  ∧ (((2, "b.json") ∈ (displayResults ["a.json"; "b.json"]).1 ↔
        valid_result_number ["a.json"; "b.json"] 2 = true
        ∧ chosen_result ["a.json"; "b.json"] 2 = Some "b.json")
     ∧ (displayResults ["a.json"; "b.json"]).1.*2
       = take 15 ["a.json"; "b.json"]
     ∧ ((displayResults ["a.json"; "b.json"]).2 = true
        ↔ (15 < length ["a.json"; "b.json"])%nat)).
Proof.
  assert (H : Z.of_nat (length ["a.json"; "b.json"]) < 2 ^ 31)
    by (vm_compute; reflexivity).
  split; [exact H|].
  apply (displayed_results_are_selectable ["a.json"; "b.json"] 2 "b.json" H).
Defined.

(** * Properties of the text form of a document's record *)

Section DocumentInfoFacts.
Import DocumentInfo.
Variable indet : nat → byte.

Lemma read_line_line (l rest : string) :
  one_line l = true →
  read_line (l +:+ String "010" rest) = (l, Some rest).
Proof.
  induction l as [|c l IH]; str_simpl; [done|].
  intros [Hc Hl]%andb_true_iff. apply negb_true_iff in Hc.
  by rewrite Hc, IH.
Qed.

Lemma getline_line (l rest str : string) :
  one_line l = true →
  getline (opened (l +:+ String "010" rest)) str = (opened rest, l).
Proof.
  intros Hl. unfold getline, opened. cbn [is_good eofbit failbit unread negb andb].
  by rewrite read_line_line.
Qed.

Lemma digit_of_pretty_N_char (x : N) :
  (x < 10)%N → digit_of (pretty_N_char x) = Some (Z.of_N x).
Proof.
  intros Hx.
  assert (x = 0 ∨ x = 1 ∨ x = 2 ∨ x = 3 ∨ x = 4 ∨ x = 5 ∨ x = 6 ∨ x = 7
          ∨ x = 8 ∨ x = 9)%N as Hcases by lia.
  by repeat destruct Hcases as [->|Hcases]; [..|subst x].
Qed.

Lemma digit_is_no_space (c : ascii) (d : Z) :
  digit_of c = Some d →
  is_space c = false ∧ Ascii.eqb c "-" = false ∧ Ascii.eqb c "+" = false.
Proof.
  destruct c as [[] [] [] [] [] [] [] []]; by vm_compute.
Qed.

(** The digits [pretty_N_go] puts in front are read back by
    [read_digits]. *)
Lemma pretty_N_go_digits (x : N) :
  ∃ ds : string,
    (∀ s, pretty_N_go x s = ds +:+ s)
    ∧ (∀ t acc any,
         read_digits (ds +:+ t) acc any
         = read_digits t (acc * 10 ^ Z.of_nat (String.length ds) + Z.of_N x)
             (any || negb (String.eqb ds "")))
    ∧ (x = 0%N ∧ ds = ""
       ∨ ∃ c ds0 d, ds = String c ds0 ∧ digit_of c = Some d).
Proof.
  induction (N.lt_wf_0 x) as [x _ IH].
  destruct (decide (x = 0%N)) as [->|Hx].
  - exists "". split_and!.
    + intros s. by rewrite pretty_N_go_0.
    + intros t acc any. str_simpl. rewrite orb_false_r. f_equal. lia.
    + by left.
  - destruct (IH (x `div` 10)%N) as (ds & Hgo & Hread & Hfirst).
    { apply N.div_lt; lia. }
    assert (x `mod` 10 < 10)%N as Hmod by (apply N.mod_lt; lia).
    exists (ds +:+ String (pretty_N_char (x `mod` 10)) "").
    split_and!.
    + intros s. rewrite pretty_N_go_step by lia.
      by rewrite Hgo, append_assoc.
    + intros t acc any. rewrite append_assoc. str_simpl.
      rewrite Hread. cbn [read_digits].
      rewrite (digit_of_pretty_N_char _ Hmod).
      f_equal.
      * rewrite length_append. cbn [String.length].
        replace (Z.of_nat (String.length ds + 1))
          with (Z.of_nat (String.length ds) + 1) by lia.
        rewrite Z.pow_add_r, Z.pow_1_r by lia.
        pose proof (N.div_mod x 10 ltac:(lia)) as Hdm.
        rewrite N2Z.inj_div, N2Z.inj_mod.
        change (Z.of_N 10) with 10.
        pose proof (Z.div_mod (Z.of_N x) 10 ltac:(lia)). lia.
      * destruct ds; str_simpl; by rewrite orb_true_r.
    + right. destruct Hfirst as [[_ ->]|(c & ds0 & d & -> & Hd)].
      * str_simpl. do 3 eexists. split; [done|].
        by apply digit_of_pretty_N_char.
      * str_simpl. by do 3 eexists.
Qed.

Lemma read_digits_stop (rest : string) (acc : Z) (any : bool) :
  read_digits (String "010" rest) acc any = (acc, any, String "010" rest).
Proof. done. Qed.

Lemma skip_ws_digit (c : ascii) (s : string) (d : Z) :
  digit_of c = Some d → skip_ws (String c s) = String c s.
Proof.
  intros Hd. cbn [skip_ws]. by destruct (digit_is_no_space c d Hd) as [-> _].
Qed.

(** What [put_int] wrote for an [int] is read back by [get_int], up to
    the newline that follows it. *)
Lemma get_int_put_int (z v : Z) (u rest : string) :
  is_int z = true →
  skip_ws u = put_int z +:+ String "010" rest →
  get_int (opened u) v = (opened (String "010" rest), z).
Proof.
  intros [Hlo Hhi]%andb_true_iff Hu.
  apply Z.leb_le in Hlo. apply Z.ltb_lt in Hhi.
  unfold get_int, opened. cbn [is_good eofbit failbit unread negb andb].
  rewrite Hu. unfold put_int, pretty, pretty_Z.
  destruct z as [|p|p].
  - by vm_compute.
  - unfold pretty, pretty_positive, pretty, pretty_N.
    rewrite decide_False by done.
    destruct (pretty_N_go_digits (N.pos p)) as (ds & Hgo & Hread & Hfirst).
    rewrite Hgo, append_nil_r.
    destruct Hfirst as [[[=] _]|(c & ds0 & d & -> & Hd)].
    destruct (digit_is_no_space c d Hd) as (_ & Hminus & Hplus).
    rewrite append_cons, Hminus, Hplus, <- append_cons.
    rewrite Hread, read_digits_stop. cbn [orb negb String.eqb].
    change (Z.of_N (N.pos p)) with (Z.pos p).
    replace (0 * 10 ^ Z.of_nat (String.length (String c ds0)) + Z.pos p)
      with (Z.pos p) by lia.
    cbn [negb]. rewrite (proj2 (Z.ltb_ge _ _)) by lia.
    by rewrite (proj2 (Z.leb_gt _ _)) by lia.
  - unfold pretty, pretty_positive, pretty, pretty_N.
    rewrite decide_False by done.
    destruct (pretty_N_go_digits (N.pos p)) as (ds & Hgo & Hread & Hfirst).
    rewrite Hgo, append_nil_r. str_simpl.
    destruct Hfirst as [[[=] _]|(c & ds0 & d & -> & Hd)].
    rewrite Hread, read_digits_stop. cbn [orb negb String.eqb].
    change (Z.of_N (N.pos p)) with (Z.pos p).
    replace (0 * 10 ^ Z.of_nat (String.length (String c ds0)) + Z.pos p)
      with (Z.pos p) by lia.
    cbn [negb]. change (- Z.pos p) with (Z.neg p).
    rewrite (proj2 (Z.ltb_ge _ _)) by lia.
    by rewrite (proj2 (Z.leb_gt _ _)) by lia.
Qed.

Lemma skip_ws_put_int (z : Z) (t : string) :
  skip_ws (put_int z +:+ t) = put_int z +:+ t.
Proof.
  unfold put_int, pretty, pretty_Z. destruct z as [|p|p]; [done|..].
  - unfold pretty, pretty_positive, pretty, pretty_N.
    rewrite decide_False by done.
    destruct (pretty_N_go_digits (N.pos p)) as (ds & Hgo & _ & Hfirst).
    rewrite Hgo, append_nil_r.
    destruct Hfirst as [[[=] _]|(c & ds0 & d & -> & Hd)].
    rewrite append_cons. by apply (skip_ws_digit _ _ d).
  - done.
Qed.

Lemma read_word_token (w rest : string) :
  no_space w = true →
  read_word (w +:+ String " " rest) = (w, String " " rest).
Proof.
  induction w as [|c w IH]; str_simpl; [done|].
  intros [Hc Hw]%andb_true_iff. apply negb_true_iff in Hc.
  by rewrite Hc, IH.
Qed.

Lemma skip_ws_token (w t : string) :
  is_token w = true → skip_ws (w +:+ t) = w +:+ t.
Proof.
  intros [Hne Hw]%andb_true_iff. destruct w as [|c w]; [done|].
  str_simpl. cbn [no_space] in Hw.
  apply andb_true_iff in Hw as [Hc _]. apply negb_true_iff in Hc.
  by rewrite Hc.
Qed.

(** A term [save] wrote is read back by [get_string], up to the blank
    that follows it. *)
Lemma get_string_token (w str u rest : string) :
  is_token w = true →
  skip_ws u = w +:+ String " " rest →
  get_string (opened u) str = (opened (String " " rest), w).
Proof.
  intros Hw Hu. unfold get_string, opened.
  cbn [is_good eofbit failbit unread negb andb]. rewrite Hu.
  pose proof Hw as [Hne Hns]%andb_true_iff.
  destruct w as [|c w]; [done|]. rewrite append_cons.
  rewrite <- append_cons. by rewrite read_word_token.
Qed.

(** The loop of [load] reads back the entries [save] wrote, whether it
    starts at their first character or at the newline before it. *)
Lemma load_terms_put_terms (l : list (string * Z)) :
  Forall ok_entry l →
  ∀ (u : string) (tf : gmap string Z),
    u = put_terms l ∨ u = String "010" (put_terms l) →
    ∃ u', load_terms indet (length l) (opened u) tf
          = (opened u', foldl (λ tf e, <[e.1 := e.2]> tf) tf l).
Proof.
  induction 1 as [|[term freq] l [Hterm Hfreq] Hl IH]; intros u tf Hu.
  - by exists u.
  - cbn [length load_terms foldl fst snd] in *.
    assert (skip_ws u
            = term +:+ String " " (put_int freq
                                   +:+ String "010" (put_terms l))) as Hskip.
    { assert (put_terms ((term, freq) :: l)
              = term +:+ String " " (put_int freq
                                     +:+ String "010" (put_terms l))) as Heq.
      { change (put_terms ((term, freq) :: l))
          with (put_term (term, freq) +:+ put_terms l).
        unfold put_term, newline. cbn [fst snd].
        rewrite !append_assoc. by str_simpl. }
      assert (skip_ws (put_terms ((term, freq) :: l))
              = put_terms ((term, freq) :: l)) as Hsk
        by (rewrite Heq; by apply skip_ws_token).
      destruct Hu as [->| ->]; [by rewrite Hsk, Heq|].
      transitivity (skip_ws (put_terms ((term, freq) :: l)));
        [done|by rewrite Hsk]. }
    rewrite (get_string_token term "" u _ Hterm Hskip).
    rewrite (get_int_put_int freq _ _ (put_terms l) Hfreq).
    + apply IH. by right.
    + cbn [skip_ws]. change (is_space " ") with true. cbn iota.
      apply skip_ws_put_int.
Qed.

Lemma foldl_insert_union (l : list (string * Z)) (tf : gmap string Z) :
  NoDup l.*1 →
  foldl (λ tf e, <[e.1 := e.2]> tf) tf l = list_to_map l ∪ tf.
Proof.
  revert tf. induction l as [|[k v] l IH]; intros tf Hnd; simpl.
  - by rewrite (left_id_L ∅ (∪)).
  - apply NoDup_cons in Hnd as [Hk Hnd]. rewrite IH by done.
    rewrite <- insert_union_l. symmetry. apply insert_union_r.
    by apply not_elem_of_list_to_map_1.
Qed.

Lemma load_terms_frame (n : nat) (s : istream) (tf : gmap string Z)
    (term : string) :
  is_Some (tf !! term) →
  is_Some ((load_terms indet n s tf).2 !! term).
Proof.
  revert s tf. induction n as [|n IH]; intros s tf Hin; [done|].
  cbn [load_terms].
  destruct (get_string s "") as [s1 t1].
  destruct (get_int s1 (uninitialised_int indet)) as [s2 f2].
  apply IH. apply lookup_insert_is_Some'. by right.
Qed.

Lemma not_good_set_failbit (s : istream) :
  is_good (set_failbit s) = false.
Proof. unfold is_good. cbn. apply andb_false_r. Qed.

(** Once the stream is not good, a round of the loop of [load] only
    stores the indeterminate [freq] under the empty term. *)
Lemma load_terms_not_good (n : nat) (s : istream) (tf : gmap string Z) :
  is_good s = false →
  is_good (load_terms indet n s tf).1 = false
  ∧ ((load_terms indet n s tf).2 = tf
     ∨ (load_terms indet n s tf).2 = <["" := uninitialised_int indet]> tf).
Proof.
  revert s tf. induction n as [|n IH]; intros s tf Hs; [by split; [|left]|].
  assert (load_terms indet (S n) s tf
          = load_terms indet n (set_failbit (set_failbit s))
              (<["" := uninitialised_int indet]> tf)) as ->.
  { cbn [load_terms]. unfold get_string. rewrite Hs.
    unfold get_int. by rewrite not_good_set_failbit. }
  destruct (IH (set_failbit (set_failbit s))
              (<["" := uninitialised_int indet]> tf)
              (not_good_set_failbit _)) as [Hg [Htf|Htf]].
  - split; [done|]. by right.
  - split; [done|]. right. by rewrite Htf, insert_insert_eq.
Qed.

Lemma getline_not_good (s : istream) (str : string) :
  is_good s = false → getline s str = (set_failbit s, str).
Proof. intros Hs. unfold getline. by rewrite Hs. Qed.

(** [load] after the first [getline] has left the stream not good. *)
Lemma load_rest_not_good (d : t) (s : istream) (title' : string) :
  is_good s = false →
  let r := (let '(s, publication') := getline s (publication d) in
            let '(s, date') := getline s (date d) in
            let '(s, filepath') := getline s (filepath d) in
            let '(s, size) := get_int s (uninitialised_int indet) in
            let s := ignore s in
            let '(s, tf) := load_terms indet (Z.to_nat size) s
                              (termFrequencies d) in
            (s, mk title' publication' date' filepath' tf)) in
  is_good r.1 = false
  ∧ title r.2 = title' ∧ publication r.2 = publication d
  ∧ date r.2 = date d ∧ filepath r.2 = filepath d
  ∧ (termFrequencies r.2 = termFrequencies d
     ∨ termFrequencies r.2
       = <["" := uninitialised_int indet]> (termFrequencies d)).
Proof.
  intros Hs r. subst r.
  rewrite (getline_not_good s) by done.
  rewrite (getline_not_good (set_failbit s))
    by apply not_good_set_failbit.
  rewrite (getline_not_good (set_failbit (set_failbit s)))
    by apply not_good_set_failbit.
  unfold get_int. rewrite not_good_set_failbit.
  unfold ignore. rewrite not_good_set_failbit.
  set (s' := set_failbit _).
  destruct (load_terms_not_good (Z.to_nat (uninitialised_int indet)) s'
              (termFrequencies d) (not_good_set_failbit _)) as [Hg Htf].
  destruct (load_terms indet _ s' (termFrequencies d)) as [s'' tf].
  by cbn in *.
Qed.

Lemma load_save (d d0 : t) :
  loadable d →
  ∃ u, load indet d0 (opened (save d ""))
       = (opened u,
          mk (title d) (publication d) (date d) (filepath d)
             (termFrequencies d ∪ termFrequencies d0)).
Proof.
  intros (Ht & Hp & Hd & Hf & Hsize & Hterms).
  unfold load, save, newline. rewrite append_nil_l. str_simpl.
  rewrite (getline_line _ _ _ Ht), (getline_line _ _ _ Hp),
    (getline_line _ _ _ Hd), (getline_line _ _ _ Hf).
  rewrite (get_int_put_int (Z.of_nat (size (termFrequencies d))) _ _
             (put_terms (map_to_list (termFrequencies d)))).
  2:{ unfold is_int. apply andb_true_iff.
      split; [apply Z.leb_le|apply Z.ltb_lt]; lia. }
  2:{ apply skip_ws_put_int. }
  change (ignore (opened (String "010" ?x))) with (opened x).
  rewrite Nat2Z.id, <- length_map_to_list.
  assert (Forall ok_entry (map_to_list (termFrequencies d))) as Hall.
  { apply map_Forall_to_list in Hterms.
    eapply Forall_impl; [exact Hterms|]. by intros [term freq]. }
  destruct (load_terms_put_terms _ Hall
              (put_terms (map_to_list (termFrequencies d)))
              (termFrequencies d0) (or_introl eq_refl)) as [u ->].
  exists u. rewrite foldl_insert_union by apply NoDup_fst_map_to_list.
  by rewrite list_to_map_to_list.
Qed.

End DocumentInfoFacts.

(** A record whose four text fields hold no newline, whose terms are
    not empty and hold no white space, and whose counts and number of
    terms are [int]s, is read back by [load] from what [save] wrote: the
    four fields are those saved and the stream is still good.  The terms
    saved are added to those the loading record already had, with the
    saved counts; loaded into a record without terms, the result is the
    saved record. *)
Theorem DocumentInfo_save_then_load (indet : nat → byte)
    (d d0 : DocumentInfo.t) :
  DocumentInfo.loadable d →
  let r := DocumentInfo.load indet d0
             (DocumentInfo.opened (DocumentInfo.save d "")) in
  DocumentInfo.is_good r.1 = true
  ∧ r.2 = DocumentInfo.mk (DocumentInfo.title d)
            (DocumentInfo.publication d) (DocumentInfo.date d)
            (DocumentInfo.filepath d)
            (DocumentInfo.termFrequencies d
             ∪ DocumentInfo.termFrequencies d0)
  ∧ (DocumentInfo.termFrequencies d0 = ∅ → r.2 = d).
Proof.
  intros Hd r. subst r.
  destruct (load_save indet d d0 Hd) as [u ->]. cbn [fst snd].
  split_and!; [done..|].
  intros ->. rewrite (right_id_L ∅ (∪)). by destruct d.
Qed.

Lemma DocumentInfo_save_then_load_witness :
  DocumentInfo.loadable sample_record
  ∧ let r := DocumentInfo.load zero_storage sample_record
               (DocumentInfo.opened (DocumentInfo.save sample_record "")) in
    DocumentInfo.is_good r.1 = true
    ∧ r.2 = DocumentInfo.mk (DocumentInfo.title sample_record)
              (DocumentInfo.publication sample_record)
              (DocumentInfo.date sample_record)
              (DocumentInfo.filepath sample_record)
              (DocumentInfo.termFrequencies sample_record
               ∪ DocumentInfo.termFrequencies sample_record)
    ∧ (DocumentInfo.termFrequencies sample_record = ∅ → r.2 = sample_record).
Proof.
  assert (H : DocumentInfo.loadable sample_record).
  { unfold DocumentInfo.loadable.
    do 5 (split; [vm_compute; reflexivity|]).
    unfold sample_record. cbn [DocumentInfo.termFrequencies].
    apply map_Forall_insert_2; [by vm_compute|].
    apply map_Forall_singleton. by vm_compute. }
  split; [exact H|].
  apply (DocumentInfo_save_then_load zero_storage sample_record
           sample_record H).
Defined.

(** [load] never removes a term: whatever the stream holds, every term
    the record had before the load it has after it. *)
Theorem DocumentInfo_load_keeps_terms (indet : nat → byte)
    (d : DocumentInfo.t) (s : DocumentInfo.istream) :
  dom (DocumentInfo.termFrequencies d)
  ⊆ dom (DocumentInfo.termFrequencies (DocumentInfo.load indet d s).2).
Proof.
  unfold DocumentInfo.load.
  destruct (DocumentInfo.getline s _) as [s1 t1].
  destruct (DocumentInfo.getline s1 _) as [s2 t2].
  destruct (DocumentInfo.getline s2 _) as [s3 t3].
  destruct (DocumentInfo.getline s3 _) as [s4 t4].
  destruct (DocumentInfo.get_int s4 _) as [s5 n].
  pose proof (load_terms_frame indet (Z.to_nat n) (DocumentInfo.ignore s5)
                (DocumentInfo.termFrequencies d)) as Hframe.
  destruct (DocumentInfo.load_terms indet _ _ _) as [s6 tf].
  cbn [fst snd DocumentInfo.termFrequencies] in *.
  intros term Hterm%elem_of_dom. apply elem_of_dom. by apply Hframe.
Qed.

(** [load] does not test the stream.  From a stream that is not good,
    or from an empty file, it leaves the stream failed and the
    publication, the date and the file path as they were; the title is
    kept in the first case and erased in the second; and the loop, which
    then runs as often as the indeterminate [size] says, can only store
    the indeterminate [freq] under the empty term. *)
Theorem DocumentInfo_load_failed_stream (indet : nat → byte)
    (d : DocumentInfo.t) (s : DocumentInfo.istream) :
  DocumentInfo.is_good s = false ∨ s = DocumentInfo.opened "" →
  let r := DocumentInfo.load indet d s in
  DocumentInfo.is_good r.1 = false
  ∧ DocumentInfo.title r.2
    = (if DocumentInfo.is_good s then "" else DocumentInfo.title d)
  ∧ DocumentInfo.publication r.2 = DocumentInfo.publication d
  ∧ DocumentInfo.date r.2 = DocumentInfo.date d
  ∧ DocumentInfo.filepath r.2 = DocumentInfo.filepath d
  ∧ (DocumentInfo.termFrequencies r.2 = DocumentInfo.termFrequencies d
     ∨ DocumentInfo.termFrequencies r.2
       = <["" := DocumentInfo.uninitialised_int indet]>
           (DocumentInfo.termFrequencies d)).
Proof.
  intros Hs r. subst r. unfold DocumentInfo.load.
  destruct Hs as [Hs| ->].
  - rewrite (getline_not_good s) by done. rewrite Hs.
    apply (load_rest_not_good indet d (DocumentInfo.set_failbit s)
             (DocumentInfo.title d)).
    apply not_good_set_failbit.
  - change (DocumentInfo.getline (DocumentInfo.opened "") (DocumentInfo.title d))
      with (DocumentInfo.mkIn "" true true, "").
    change (DocumentInfo.is_good (DocumentInfo.opened "")) with true.
    by apply (load_rest_not_good indet d (DocumentInfo.mkIn "" true true) "").
Qed.

Lemma DocumentInfo_load_failed_stream_witness :
  (DocumentInfo.is_good (DocumentInfo.opened "") = false
   ∨ DocumentInfo.opened "" = DocumentInfo.opened "")
  ∧ let r := DocumentInfo.load zero_storage sample_record
               (DocumentInfo.opened "") in
    DocumentInfo.is_good r.1 = false
    ∧ DocumentInfo.title r.2
      = (if DocumentInfo.is_good (DocumentInfo.opened "") then ""
         else DocumentInfo.title sample_record)
    ∧ DocumentInfo.publication r.2 = DocumentInfo.publication sample_record
    ∧ DocumentInfo.date r.2 = DocumentInfo.date sample_record
    ∧ DocumentInfo.filepath r.2 = DocumentInfo.filepath sample_record
    ∧ (DocumentInfo.termFrequencies r.2
       = DocumentInfo.termFrequencies sample_record
       ∨ DocumentInfo.termFrequencies r.2
         = <["" := DocumentInfo.uninitialised_int zero_storage]>
             (DocumentInfo.termFrequencies sample_record)).
Proof.
  assert (H : DocumentInfo.is_good (DocumentInfo.opened "") = false
              ∨ DocumentInfo.opened "" = DocumentInfo.opened "")
    by (right; reflexivity).
  split; [exact H|].
  apply (DocumentInfo_load_failed_stream zero_storage sample_record
           (DocumentInfo.opened "") H).
Defined.
